(** * Game-font text transcoding: a shallow embedding of
      [common/util/FontUtils.cpp]

    The file follows the source top to bottom: the version registry, the
    Korean pre-pass with its global accumulator [seqs], the font bank with
    its four longest-match resolvers, the forward transcoder
    [convert_utf8_to_game], the validity policy [valid_char_range], the
    reverse transcoder [convert_game_to_utf8], the three shipped banks with
    their tables, and the bank registry.  Theorems come after the
    definitions.

    Conventions.
    - A C++ [char] is an [ascii]; a [std::string] is a [list ascii] (UTF-8
      text is the list of its bytes, as in the C++ source file); a [u8] is a
      [byte], with [byte_of_ascii] and [ascii_of_byte] where the source
      converts.
    - A [const char*] is the list of the bytes stored from the pointer on.
      [ptr_add] is pointer arithmetic and [deref] reads the pointed byte.
      What lies behind the last modelled byte reads as 0, so a list without
      a zero byte stands for a buffer closed by its terminator.
    - Loops run on a fuel counter that is set to a bound the loop cannot
      exceed; the [_fuel] lemmas show that more fuel changes nothing.
    - Left out: the tables of Hangul glyph numbers, which no function
      reads, and the destructor of a bank, which prints [seqs] and clears
      it. *)

From Stdlib Require Import ZArith List Ascii String Strings.Byte Lia Bool.
From Stdlib Require Import Permutation Sorted.
From stdpp Require Import gmap strings.
Import ListNotations.

Local Open Scope nat_scope.

(** ** Characters *)

Definition NUL : ascii := "000"%char.
Definition TAB : ascii := "009"%char.
Definition NEWLINE : ascii := "010"%char.
Definition DQUOTE : ascii := "034"%char.
Definition BACKSLASH : ascii := "\"%char.

(** The value of a [char] in a comparison.  [char] is signed on the
    platforms the project builds for; the comparisons of the source are
    against 7-bit constants, where signedness makes no difference. *)
Definition char_to_int (c : ascii) : Z :=
  let n := Z.of_N (N_of_ascii c) in
  if (n <? 128)%Z then n else (n - 256)%Z.

(** [u8(c)] *)
Definition char_to_u8 (c : ascii) : Z := Z.of_N (N_of_ascii c).

(** [lo <= c && c <= hi] for character constants [lo], [hi]. *)
Definition char_between (lo hi c : ascii) : bool :=
  (char_to_int lo <=? char_to_int c)%Z && (char_to_int c <=? char_to_int hi)%Z.

(** A string literal of the source as the list of its bytes. *)
Definition str (s : string) : list ascii := list_ascii_of_string s.

(** ** Pointers into a character buffer *)

Definition deref (in_ : list ascii) : ascii := hd NUL in_.
Definition ptr_add (in_ : list ascii) (k : nat) : list ascii := skipn k in_.
Definition ptr_index (in_ : list ascii) (i : nat) : ascii := nth i in_ NUL.

(** ** Exceptions and results

    The exceptions, named after the messages of the [std::runtime_error]s
    of the source.  In the words of the specification the first is
    IncompleteEscape, the second InvalidHexEscape, the fourth InvalidEscape
    and the fifth UnknownVersion. *)

Inductive exception : Type :=
| incomplete_string_escape_code          (* "incomplete string escape code" *)
| invalid_character_escape_hex_number    (* "invalid character escape hex number" *)
| invalid_character_escape               (* "invalid character escape" *)
| unknown_string_escape_code (p : ascii) (* "unknown string escape code '{}' (0x{:x})" *)
| unknown_text_version (name : string)   (* "unknown text version {}" *)
| assertion_failed                       (* ASSERT *)
| invalid_argument                       (* std::stoul without a digit *)
| out_of_range.                          (* at() of a string, vector or map *)

Inductive Result (A : Type) : Type :=
| Ok (a : A)
| Err (e : exception).
Arguments Ok {A} a.
Arguments Err {A} e.

Definition Result_bind {A B} (r : Result A) (k : A -> Result B) : Result B :=
  match r with
  | Ok a => k a
  | Err e => Err e
  end.

Declare Scope result_scope.
Delimit Scope result_scope with result.
Notation "x <- r ;;; k" := (Result_bind r (fun x => k))
  (at level 60, r at next level, right associativity) : result_scope.

(** [std::string::at] *)
Definition string_at (s : list ascii) (i : nat) : Result ascii :=
  match nth_error s i with
  | Some c => Ok c
  | None => Err out_of_range
  end.

(** ** Data model (FontUtils.h)

    The header is not among the sources.  Its declarations are taken from
    the data model of the specification and fitted to the initialisers of
    the tables ([{"ˇ", {0x10}}], [{"~~", "世"}]) and to the fields that the
    code reads. *)

(** Modelled from the spec: the enumeration [GameTextVersion] of
    FontUtils.h, "a closed enumeration (at minimum the three known
    profiles)"; the constructors are the three that the source names. *)
Inductive GameTextVersion : Type := JAK1_V1 | JAK1_V2 | JAK2.

#[global] Instance GameTextVersion_eq_dec : EqDecision GameTextVersion.
Proof. solve_decision. Defined.

Definition GameTextVersion_to_nat (v : GameTextVersion) : nat :=
  match v with JAK1_V1 => 10 | JAK1_V2 => 11 | JAK2 => 20 end.

#[global] Instance GameTextVersion_countable : Countable GameTextVersion.
Proof.
  refine (inj_countable' GameTextVersion_to_nat
            (fun n => match n with 10 => JAK1_V1 | 11 => JAK1_V2 | _ => JAK2 end) _).
  intros []; reflexivity.
Defined.

(** Modelled from the spec: the struct [EncodeInfo] of FontUtils.h, an
    EncodeRule, "a pair (byte-sequence, display-character-sequence)"; in
    the initialisers the text comes first. *)
Record EncodeInfo : Type := mkEncodeInfo {
  chars : list ascii;   (* std::string chars *)
  bytes : list byte     (* std::vector<u8> bytes *)
}.

(** Modelled from the spec: the struct [ReplaceInfo] of FontUtils.h, a
    ReplaceRule, "a pair (encoded-substring, display-substring)". *)
Record ReplaceInfo : Type := mkReplaceInfo {
  from : list ascii;    (* std::string from: the game side *)
  to : list ascii       (* std::string to: the display side *)
}.

(** Modelled from the spec: the members of the class [GameTextFontBank] of
    FontUtils.h, a VersionProfile, which "owns one EncodeRule table, one
    ReplaceRule table and one set of passthrough raw byte values".  The
    class holds the addresses of the two tables and of the set; the record
    holds what they point to. *)
Record GameTextFontBank : Type := mkGameTextFontBank {
  m_version : GameTextVersion;
  m_encode_info : list EncodeInfo;
  m_replace_info : list ReplaceInfo;
  m_passthrus : gset ascii
}.

(** ** [std::sort]

    [std::sort] leaves the relative order of elements that compare equal
    unspecified.  The model is an insertion sort that keeps them in their
    original order.  The theorems use no more of it than that its result is
    an ordered permutation: what is evaluated on the shipped tables is
    stated for their rules in any order ([same_rules] below). *)

Fixpoint sort_insert {A} (comp : A -> A -> bool) (x : A) (l : list A) : list A :=
  match l with
  | [] => [x]
  | y :: l' => if comp y x then y :: sort_insert comp x l' else x :: l
  end.

Fixpoint std_sort {A} (comp : A -> A -> bool) (l : list A) : list A :=
  match l with
  | [] => []
  | x :: l' => sort_insert comp x (std_sort comp l')
  end.

(** ** The version registry *)

Definition sTextVerEnumMap : gmap string GameTextVersion :=
  <["jak1-v1"%string := JAK1_V1]>
    (<["jak1-v2"%string := JAK1_V2]>
       (<["jak2"%string := JAK2]> ∅)).

Definition get_text_version_from_name (name : string) : Result GameTextVersion :=
  match sTextVerEnumMap !! name with
  | Some v => Ok v
  | None => Err out_of_range
  end.

(** [get_text_version_name]: the loop over [sTextVerEnumMap] that returns
    the first name whose version is the one asked for.  An [unordered_map]
    is visited in an order that the program cannot rely on: [entries] is
    the content of the map in the order of the visit.  [None] stands for
    the [std::runtime_error] "invalid text version {}" that is thrown when
    the loop ends without a match. *)
Fixpoint get_text_version_name_in (entries : list (string * GameTextVersion))
    (version : GameTextVersion) : option string :=
  match entries with
  | [] => None
  | (name, ver) :: entries' =>
      if bool_decide (ver = version) then Some name
      else get_text_version_name_in entries' version
  end.

Definition get_text_version_name (version : GameTextVersion) : option string :=
  get_text_version_name_in (map_to_list sTextVerEnumMap) version.

(** ** The Korean pre-pass and its accumulator

    [static std::vector<u64> seqs] is the only global the transcoders
    write.  [shl64 v k] is [v << k] on a [u64]: the bits shifted out are
    lost (the source shifts by [i * 16], which leaves the width of the type
    from the fifth element of a group on). *)

Definition shl64 (v k : Z) : Z := Z.land (Z.shiftl v k) (2 ^ 64 - 1).

(** [while ( *in && *in != 3 && *in != 4) { out.push_back( *in); ++in; }] *)
Fixpoint korean_ascii_run (in_ : list ascii) (out : list ascii)
  : list ascii * list ascii :=
  match in_ with
  | [] => (in_, out)
  | c :: in' =>
      if negb (Ascii.eqb c NUL) && negb (Ascii.eqb c "003") && negb (Ascii.eqb c "004")
      then korean_ascii_run in' (out ++ [c])
      else (in_, out)
  end.

(** The loop over one group of glyph codes.  After a marker 5 the source
    steps to the next byte without looking at it, so that byte is emitted
    whatever it is, a terminator included. *)
Fixpoint korean_jamo_run (in_ : list ascii) (i : Z) (seq : Z) (out : list ascii)
  : list ascii * Z * list ascii :=
  match in_ with
  | [] => (in_, seq, out)
  | c :: in' =>
      if negb (Ascii.eqb c NUL) && negb (Ascii.eqb c "003") && negb (Ascii.eqb c "004")
      then
        if Ascii.eqb c "005" then
          let d := deref in' in
          let seq' := Z.lor seq (shl64 (Z.lor 256 (char_to_u8 d)) (i * 16)) in
          match in' with
          | [] => (ptr_add in' 1, seq', out ++ ["001"%char; d])
          | _ :: in'' => korean_jamo_run in'' (i + 1)%Z seq' (out ++ ["001"%char; d])
          end
        else
          let seq' := Z.lor seq (shl64 (Z.lor 768 (char_to_u8 c)) (i * 16)) in
          korean_jamo_run in' (i + 1)%Z seq' (out ++ ["003"%char; c])
      else (in_, seq, out)
  end.

(** The outer [while ( *in)].  The second branch steps over the marker and
    the length byte ([++in; int len = *in; ++in;]) unconditionally. *)
Fixpoint korean_loop (fuel : nat) (in_ : list ascii) (out : list ascii) (seqs : list Z)
  : list ascii * list Z :=
  match fuel with
  | 0 => (out, seqs)
  | S fuel' =>
      if Ascii.eqb (deref in_) NUL then (out, seqs)
      else if Ascii.eqb (deref in_) "003" then
        let '(in1, out1) := korean_ascii_run (ptr_add in_ 1) out in
        korean_loop fuel' in1 out1 seqs
      else
        let in1 := ptr_add in_ 1 in
        let in2 := ptr_add in1 1 in
        let '(in3, seq, out1) := korean_jamo_run in2 0%Z 0%Z out in
        let seqs1 :=
          if negb (existsb (Z.eqb seq) seqs)
          then std_sort Z.ltb (seqs ++ [seq])
          else seqs in
        korean_loop fuel' in3 out1 seqs1
  end.

(** [convert_korean_text_from_game]: the text and the new value of [seqs]. *)
Definition convert_korean_text_from_game (in_ : list ascii) (seqs : list Z)
  : list ascii * list Z :=
  korean_loop (length in_) in_ [] seqs.

(** ** The font bank *)

(** The constructor sorts both tables in place, longest pattern first. *)
Definition GameTextFontBank_new (version : GameTextVersion)
    (encode_info : list EncodeInfo) (replace_info : list ReplaceInfo)
    (passthrus : gset ascii) : GameTextFontBank :=
  {| m_version := version;
     m_encode_info :=
       std_sort (fun a b => length (bytes b) <? length (bytes a)) encode_info;
     m_replace_info :=
       std_sort (fun a b => length (from b) <? length (from a)) replace_info;
     m_passthrus := passthrus |}.

(** *** The resolvers *)

(** [for (i = 0; found && i < size; ++i) if (uint8_t(in[i]) != bytes.at(i))
    found = false;], with [info_bytes] the bytes from index [i] on. *)
Fixpoint bytes_found (in_ : list ascii) (info_bytes : list byte) (i : nat) : bool :=
  match info_bytes with
  | [] => true
  | b :: rest =>
      if Byte.eqb (byte_of_ascii (ptr_index in_ i)) b
      then bytes_found in_ rest (S i)
      else false
  end.

(** [for (i = 0; found && i < length && i + off < in.size(); ++i)
    if (in.at(i + off) != chars.at(i)) found = false;], with [rest] the
    string [in] from index [i + off] on and [info_chars] the characters of
    the rule from index [i] on.  When [i + off] reaches the end of [in] the
    loop stops and [found] keeps its value. *)
Fixpoint chars_found (rest : list ascii) (info_chars : list ascii) : bool :=
  match info_chars, rest with
  | [], _ => true
  | _ :: _, [] => true
  | c :: info_chars', x :: rest' =>
      if Ascii.eqb x c then chars_found rest' info_chars' else false
  end.

(** [!best_info || info.chars.length() > best_info->chars.length()] *)
Definition longer_chars (info : EncodeInfo) (best_info : option EncodeInfo) : bool :=
  match best_info with
  | None => true
  | Some best => length (chars best) <? length (chars info)
  end.

(** In the four resolvers the conjunction [found && ...] is written as
    nested conditionals, the second operand being read when the first
    holds. *)
Definition find_encode_to_utf8 (this : GameTextFontBank) (in_ : list ascii)
  : option EncodeInfo :=
  fold_left
    (fun best_info info =>
       if length (bytes info) =? 0 then best_info
       else if bytes_found in_ (bytes info) 0 then
         if longer_chars info best_info then Some info else best_info
       else best_info)
    (m_encode_info this) None.

Definition find_encode_to_game (this : GameTextFontBank) (in_ : list ascii) (off : nat)
  : option EncodeInfo :=
  let rest := ptr_add in_ off in
  fold_left
    (fun best_info info =>
       if length (chars info) =? 0 then best_info
       else if chars_found rest (chars info) then
         if longer_chars info best_info then Some info else best_info
       else best_info)
    (m_encode_info this) None.

(** [in.size() - off < n] on [size_t].  With [off] behind the end of the
    string the difference wraps around to a number that no length reaches. *)
Definition size_t_sub_lt (size off n : nat) : bool :=
  if off <=? size then size - off <? n else false.

(** [memcmp(p, q, n) == 0] *)
Fixpoint memcmp_eq (p q : list ascii) (n : nat) : bool :=
  match n with
  | 0 => true
  | S n' =>
      if Ascii.eqb (deref p) (deref q)
      then memcmp_eq (ptr_add p 1) (ptr_add q 1) n'
      else false
  end.

(** [s.empty()] *)
Definition empty {A} (s : list A) : bool :=
  match s with
  | [] => true
  | _ :: _ => false
  end.

Definition find_replace_to_utf8 (this : GameTextFontBank) (in_ : list ascii) (off : nat)
  : option ReplaceInfo :=
  let size := length in_ in
  let data := ptr_add in_ off in
  fold_left
    (fun best_info info =>
       if empty (from info) then best_info
       else if size_t_sub_lt size off (length (from info)) then best_info
       else if memcmp_eq data (from info) (length (from info)) then
         match best_info with
         | None => Some info
         | Some best =>
             if length (from best) <? length (from info) then Some info else best_info
         end
       else best_info)
    (m_replace_info this) None.

Definition find_replace_to_game (this : GameTextFontBank) (in_ : list ascii) (off : nat)
  : option ReplaceInfo :=
  let size := length in_ in
  let data := ptr_add in_ off in
  fold_left
    (fun best_info info =>
       if empty (to info) then best_info
       else if size_t_sub_lt size off (length (to info)) then best_info
       else if memcmp_eq data (to info) (length (to info)) then
         match best_info with
         | None => Some info
         | Some best =>
             if length (to best) <? length (to info) then Some info else best_info
         end
       else best_info)
    (m_replace_info this) None.

(** *** The string loops

    [for (int i = 0; i < n;) { ... i += k; }]: the body maps the index and
    the string built so far to their next values. *)
Fixpoint for_index {A} (fuel : nat) (n : nat) (body : nat -> A -> nat * A)
    (i : nat) (acc : A) : A :=
  match fuel with
  | 0 => acc
  | S fuel' =>
      if i <? n
      then let '(i', acc') := body i acc in for_index fuel' n body i' acc'
      else acc
  end.

Definition replace_to_utf8_body (this : GameTextFontBank) (str_ : list ascii)
    (i : nat) (newstr : list ascii) : nat * list ascii :=
  match find_replace_to_utf8 this str_ i with
  | None => (i + 1, newstr ++ [nth i str_ NUL])
  | Some remap => (i + length (from remap), newstr ++ to remap)
  end.

Definition replace_to_utf8 (this : GameTextFontBank) (str_ : list ascii) : list ascii :=
  for_index (length str_) (length str_) (replace_to_utf8_body this str_) 0 [].

Definition replace_to_game_body (this : GameTextFontBank) (str_ : list ascii)
    (i : nat) (newstr : list ascii) : nat * list ascii :=
  match find_replace_to_game this str_ i with
  | None => (i + 1, newstr ++ [nth i str_ NUL])
  | Some remap => (i + length (to remap), newstr ++ from remap)
  end.

Definition replace_to_game (this : GameTextFontBank) (str_ : list ascii) : list ascii :=
  for_index (length str_) (length str_) (replace_to_game_body this str_) 0 [].

Definition encode_utf8_to_game_body (this : GameTextFontBank) (str_ : list ascii)
    (i : nat) (newstr : list ascii) : nat * list ascii :=
  match find_encode_to_game this str_ i with
  | None => (i + 1, newstr ++ [nth i str_ NUL])
  | Some remap => (i + length (chars remap), newstr ++ map ascii_of_byte (bytes remap))
  end.

Definition encode_utf8_to_game (this : GameTextFontBank) (str_ : list ascii) : list ascii :=
  for_index (length str_) (length str_) (encode_utf8_to_game_body this str_) 0 [].

(** ** The forward transcoder *)

(** Modelled from the spec: [str_util::hex_char] of string_util.h, which is
    not among the sources; it tells whether a character is a hexadecimal
    digit ("the two characters following [\c] are not valid hexadecimal
    digits"). *)
Definition hex_char (c : ascii) : bool :=
  char_between "0" "9" c || char_between "a" "f" c || char_between "A" "F" c.

Definition hex_digit_value (c : ascii) : option Z :=
  if char_between "0" "9" c then Some (char_to_int c - 48)%Z
  else if char_between "a" "f" c then Some (char_to_int c - 87)%Z
  else if char_between "A" "F" c then Some (char_to_int c - 55)%Z
  else None.

(** [std::stoul(s, &end, 16)]: the value of the leading hexadecimal digits
    and their number.  The white space, sign and [0x] prefix that the
    library function also accepts are left out: the source calls it on two
    characters that have both passed [hex_char]. *)
Fixpoint stoul16_digits (s : list ascii) (value : Z) (end_ : nat) : Z * nat :=
  match s with
  | [] => (value, end_)
  | c :: s' =>
      match hex_digit_value c with
      | Some d => stoul16_digits s' (value * 16 + d)%Z (S end_)
      | None => (value, end_)
      end
  end.

Definition stoul16 (s : list ascii) : Result (Z * nat) :=
  let '(value, end_) := stoul16_digits s 0%Z 0 in
  if end_ =? 0 then Err invalid_argument else Ok (value, end_).

(** [char(value)] *)
Definition char_of_value (value : Z) : ascii := ascii_of_N (Z.to_N (value mod 256)).

(** The escape loop of [convert_utf8_to_game]:
    [for (size_t i = 0; i < str.size(); ++i)].  Every recursive call shows
    the increment of its branch followed by the [++i] of the loop.  The
    macro [ASSERT] of common/util/Assert.h, which is not among the sources,
    is taken to stop the conversion; its test never fails here. *)
Fixpoint unescape_loop (fuel : nat) (str_ : list ascii) (i : nat) (newstr : list ascii)
  : Result (list ascii) :=
  match fuel with
  | 0 => Ok newstr
  | S fuel' =>
      if i <? length str_ then
        (c <- string_at str_ i ;;;
         if Ascii.eqb c DQUOTE then
           unescape_loop fuel' str_ (i + 1 + 1) (newstr ++ [DQUOTE])
         else if Ascii.eqb c BACKSLASH then
           if length str_ <=? i + 1 then Err incomplete_string_escape_code
           else
             p <- string_at str_ (i + 1) ;;;
             if Ascii.eqb p "c" then
               if length str_ <=? i + 3 then Err incomplete_string_escape_code
               else
                 first <- string_at str_ (i + 2) ;;;
                 second <- string_at str_ (i + 3) ;;;
                 if negb (hex_char first) || negb (hex_char second)
                 then Err invalid_character_escape_hex_number
                 else
                   r <- stoul16 [first; second] ;;;
                   let '(value, end_) := r in
                   if negb (end_ =? 2) then Err invalid_character_escape
                   else if negb (value <? 256)%Z then Err assertion_failed
                   else unescape_loop fuel' str_ (i + 3 + 1)
                          (newstr ++ [char_of_value value])
             else if Ascii.eqb p DQUOTE || Ascii.eqb p BACKSLASH then
               unescape_loop fuel' str_ (i + 1 + 1) (newstr ++ [p])
             else Err (unknown_string_escape_code p)
         else
           unescape_loop fuel' str_ (i + 1) (newstr ++ [c]))%result
      else Ok newstr
  end.

Definition convert_utf8_to_game (this : GameTextFontBank) (str_ : list ascii)
    (escape : bool) : Result (list ascii) :=
  (newstr <- (if escape then unescape_loop (length str_) str_ 0 [] else Ok str_) ;;;
   let newstr1 := replace_to_game this newstr in
   Ok (encode_utf8_to_game this newstr1))%result.

(** ** The validity policy *)

Definition valid_char_range (this : GameTextFontBank) (in_ : ascii) : bool :=
  match m_version this with
  | JAK1_V1 | JAK1_V2 =>
      (char_between "0" "9" in_ || char_between "A" "Z" in_
       || bool_decide (in_ ∈ m_passthrus this))
      && negb (Ascii.eqb in_ BACKSLASH)
  | JAK2 =>
      (char_between "0" "9" in_ || char_between "A" "Z" in_
       || char_between "a" "z" in_
       || bool_decide (in_ ∈ m_passthrus this))
      && negb (Ascii.eqb in_ BACKSLASH)
  end.

(** ** The reverse transcoder *)

Definition hex_digit (n : Z) : ascii :=
  if (n <? 10)%Z then ascii_of_N (Z.to_N (48 + n)) else ascii_of_N (Z.to_N (87 + n)).

(** [fmt::format("\\c{:02x}", uint8_t(c))] *)
Definition format_c02x (c : ascii) : list ascii :=
  [BACKSLASH; "c"%char; hex_digit (char_to_u8 c / 16); hex_digit (char_to_u8 c mod 16)].

(** The first loop of [convert_game_to_utf8]: [while ( *in) { ... in++; }] *)
Fixpoint decode_loop (fuel : nat) (this : GameTextFontBank) (in_ : list ascii)
    (temp : list ascii) : list ascii :=
  match fuel with
  | 0 => temp
  | S fuel' =>
      let c := deref in_ in
      if Ascii.eqb c NUL then temp
      else
        match find_encode_to_utf8 this in_ with
        | Some remap =>
            decode_loop fuel' this
              (ptr_add (ptr_add in_ (length (bytes remap) - 1)) 1)
              (temp ++ chars remap)
        | None =>
            if valid_char_range this c || Ascii.eqb c NEWLINE || Ascii.eqb c TAB
               || Ascii.eqb c BACKSLASH || Ascii.eqb c DQUOTE
            then decode_loop fuel' this (ptr_add in_ 1) (temp ++ [c])
            else decode_loop fuel' this (ptr_add in_ 1) (temp ++ format_c02x c)
        end
  end.

(** The body of the second loop, [for (size_t i = 0; i < temp.length(); ++i)]. *)
Definition escape_body (temp : list ascii) (i : nat) (result : list ascii)
  : nat * list ascii :=
  let c := nth i temp NUL in
  (i + 1,
   if Ascii.eqb c NEWLINE then result ++ [BACKSLASH; "n"%char]
   else if Ascii.eqb c TAB then result ++ [BACKSLASH; "t"%char]
   else if Ascii.eqb c BACKSLASH then
     if (i <? length temp - 1) && Ascii.eqb (nth (i + 1) temp NUL) "c"
     then result ++ [c]
     else result ++ [BACKSLASH; BACKSLASH]
   else if Ascii.eqb c DQUOTE then result ++ [BACKSLASH; DQUOTE]
   else result ++ [c]).

(** [convert_game_to_utf8]: the text and the new value of [seqs].  With
    [korean] set the loops read [result.c_str()], the output of the
    pre-pass. *)
Definition convert_game_to_utf8 (this : GameTextFontBank) (in_ : list ascii)
    (korean : bool) (seqs : list Z) : list ascii * list Z :=
  let '(in1, seqs1) :=
    if korean then convert_korean_text_from_game in_ seqs else (in_, seqs) in
  let temp := decode_loop (length in1) this in1 [] in
  let temp1 := replace_to_utf8 this temp in
  let result := for_index (length temp1) (length temp1) (escape_body temp1) 0 [] in
  (replace_to_utf8 this result, seqs1).

(** ** The shipped tables

    The three banks and their tables, entry by entry in the order of the
    source.  [EI] and [RI] build an entry from the literals of an
    initialiser. *)

Definition EI (c : string) (b : list byte) : EncodeInfo := mkEncodeInfo (str c) b.
Definition RI (f t : string) : ReplaceInfo := mkReplaceInfo (str f) (str t).

Local Open Scope string_scope.

Definition s_replace_info_null : list ReplaceInfo := [].

(** *** Jak 1 (black label) *)

Definition s_passthrus_jak1 : gset ascii :=
  list_to_set (str "~ ,.-+()!:?=%*/#;<>@[_").


Definition s_encode_info_jak1 : list EncodeInfo := [
  EI "ˇ" [x10];
  EI "`" [x11];
  EI "'" [x12];
  EI "^" [x13];
  EI "<TIL>" [x14];
  EI "¨" [x15];
  EI "º" [x16];
  EI "¡" [x17];
  EI "¿" [x18];
  EI "海" [x1a];
  EI "Æ" [x1b];
  EI "界" [x1c];
  EI "Ç" [x1d];
  EI "学" [x1e];
  EI "ß" [x1f];
  EI "ワ" [x24];
  EI "ヲ" [x26];
  EI "ン" [x27];
  EI "岩" [x5c];
  EI "旧" [x5d];
  EI "空" [x5e];
  EI "ヮ" [x60];
  EI "撃" [x61];
  EI "賢" [x62];
  EI "湖" [x63];
  EI "口" [x64];
  EI "行" [x65];
  EI "合" [x66];
  EI "士" [x67];
  EI "寺" [x68];
  EI "山" [x69];
  EI "者" [x6a];
  EI "所" [x6b];
  EI "書" [x6c];
  EI "小" [x6d];
  EI "沼" [x6e];
  EI "上" [x6f];
  EI "城" [x70];
  EI "場" [x71];
  EI "出" [x72];
  EI "闇" [x73];
  EI "遺" [x74];
  EI "黄" [x75];
  EI "屋" [x76];
  EI "下" [x77];
  EI "家" [x78];
  EI "火" [x79];
  EI "花" [x7a];
  EI "レ" [x7b];
  EI "Œ" [x7c];
  EI "ロ" [x7d];
  EI "青" [x7f];
  EI "・" [x90];
  EI "゛" [x91];
  EI "゜" [x92];
  EI "ー" [x93];
  EI "『" [x94];
  EI "』" [x95];
  EI "ぁ" [x96];
  EI "あ" [x97];
  EI "ぃ" [x98];
  EI "い" [x99];
  EI "ぅ" [x9a];
  EI "う" [x9b];
  EI "ぇ" [x9c];
  EI "え" [x9d];
  EI "ぉ" [x9e];
  EI "お" [x9f];
  EI "か" [xa0];
  EI "き" [xa1];
  EI "く" [xa2];
  EI "け" [xa3];
  EI "こ" [xa4];
  EI "さ" [xa5];
  EI "し" [xa6];
  EI "す" [xa7];
  EI "せ" [xa8];
  EI "そ" [xa9];
  EI "た" [xaa];
  EI "ち" [xab];
  EI "っ" [xac];
  EI "つ" [xad];
  EI "て" [xae];
  EI "と" [xaf];
  EI "な" [xb0];
  EI "に" [xb1];
  EI "ぬ" [xb2];
  EI "ね" [xb3];
  EI "の" [xb4];
  EI "は" [xb5];
  EI "ひ" [xb6];
  EI "ふ" [xb7];
  EI "へ" [xb8];
  EI "ほ" [xb9];
  EI "ま" [xba];
  EI "み" [xbb];
  EI "む" [xbc];
  EI "め" [xbd];
  EI "も" [xbe];
  EI "ゃ" [xbf];
  EI "や" [xc0];
  EI "ゅ" [xc1];
  EI "ゆ" [xc2];
  EI "ょ" [xc3];
  EI "よ" [xc4];
  EI "ら" [xc5];
  EI "り" [xc6];
  EI "る" [xc7];
  EI "れ" [xc8];
  EI "ろ" [xc9];
  EI "ゎ" [xca];
  EI "わ" [xcb];
  EI "を" [xcc];
  EI "ん" [xcd];
  EI "ァ" [xce];
  EI "ア" [xcf];
  EI "ィ" [xd0];
  EI "イ" [xd1];
  EI "ゥ" [xd2];
  EI "ウ" [xd3];
  EI "ェ" [xd4];
  EI "エ" [xd5];
  EI "ォ" [xd6];
  EI "オ" [xd7];
  EI "カ" [xd8];
  EI "キ" [xd9];
  EI "ク" [xda];
  EI "ケ" [xdb];
  EI "コ" [xdc];
  EI "サ" [xdd];
  EI "シ" [xde];
  EI "ス" [xdf];
  EI "セ" [xe0];
  EI "ソ" [xe1];
  EI "タ" [xe2];
  EI "チ" [xe3];
  EI "ッ" [xe4];
  EI "ツ" [xe5];
  EI "テ" [xe6];
  EI "ト" [xe7];
  EI "ナ" [xe8];
  EI "ニ" [xe9];
  EI "ヌ" [xea];
  EI "ネ" [xeb];
  EI "ノ" [xec];
  EI "ハ" [xed];
  EI "ヒ" [xee];
  EI "フ" [xef];
  EI "ヘ" [xf0];
  EI "ホ" [xf1];
  EI "マ" [xf2];
  EI "ミ" [xf3];
  EI "ム" [xf4];
  EI "メ" [xf5];
  EI "モ" [xf6];
  EI "ャ" [xf7];
  EI "ヤ" [xf8];
  EI "ュ" [xf9];
  EI "ユ" [xfa];
  EI "ョ" [xfb];
  EI "ヨ" [xfc];
  EI "ラ" [xfd];
  EI "リ" [xfe];
  EI "ル" [xff];
  EI "宝" [x01; x01];
  EI "石" [x01; x10];
  EI "赤" [x01; x11];
  EI "跡" [x01; x12];
  EI "川" [x01; x13];
  EI "戦" [x01; x14];
  EI "村" [x01; x15];
  EI "隊" [x01; x16];
  EI "台" [x01; x17];
  EI "長" [x01; x18];
  EI "鳥" [x01; x19];
  EI "艇" [x01; x1a];
  EI "洞" [x01; x1b];
  EI "道" [x01; x1c];
  EI "発" [x01; x1d];
  EI "飛" [x01; x1e];
  EI "噴" [x01; x1f];
  EI "池" [x01; xa0];
  EI "中" [x01; xa1];
  EI "塔" [x01; xa2];
  EI "島" [x01; xa3];
  EI "部" [x01; xa4];
  EI "砲" [x01; xa5];
  EI "産" [x01; xa6];
  EI "眷" [x01; xa7];
  EI "力" [x01; xa8];
  EI "緑" [x01; xa9];
  EI "岸" [x01; xaa];
  EI "像" [x01; xab];
  EI "谷" [x01; xac];
  EI "心" [x01; xad];
  EI "森" [x01; xae];
  EI "水" [x01; xaf];
  EI "船" [x01; xb0];
  EI "™" [x01; xb1]
].


Definition s_replace_info_jak1 : list ReplaceInfo := [
  RI "A~Y~-21H~-5Vº~Z" "Å";
  RI "N~Y~-6Hº~Z~+10H" "Nº";
  RI "O~Y~-16H~-1V/~Z" "Ø";
  RI "A~Y~-6H~+3V,~Z" "Ą";
  RI "E~Y~-6H~+2V,~Z" "Ę";
  RI "L~Y~-16H~+0V/~Z" "Ł";
  RI "Z~Y~-21H~-5Vº~Z" "Ż";
  RI "N~Y~-22H~-4V<TIL>~Z" "Ñ";
  RI "A~Y~-21H~-5V<TIL>~Z" "Ã";
  RI "O~Y~-22H~-4V<TIL>~Z" "Õ";
  RI "A~Y~-21H~-5V'~Z" "Á";
  RI "E~Y~-22H~-5V'~Z" "É";
  RI "I~Y~-19H~-5V'~Z" "Í";
  RI "O~Y~-22H~-4V'~Z" "Ó";
  RI "U~Y~-24H~-3V'~Z" "Ú";
  RI "C~Y~-21H~-5V'~Z" "Ć";
  RI "N~Y~-21H~-5V'~Z" "Ń";
  RI "S~Y~-21H~-5V'~Z" "Ś";
  RI "Z~Y~-21H~-5V'~Z" "Ź";
  RI "O~Y~-28H~-4V'~-9H'~Z" "Ő";
  RI "U~Y~-27H~-4V'~-12H'~Z" "Ű";
  RI "A~Y~-20H~-4V^~Z" "Â";
  RI "E~Y~-20H~-5V^~Z" "Ê";
  RI "I~Y~-19H~-5V^~Z" "Î";
  RI "O~Y~-20H~-4V^~Z" "Ô";
  RI "U~Y~-24H~-3V^~Z" "Û";
  RI "A~Y~-21H~-5V`~Z" "À";
  RI "E~Y~-22H~-5V`~Z" "È";
  RI "I~Y~-19H~-5V`~Z" "Ì";
  RI "O~Y~-22H~-4V`~Z" "Ò";
  RI "U~Y~-24H~-3V`~Z" "Ù";
  RI "A~Y~-21H~-5V¨~Z" "Ä";
  RI "E~Y~-20H~-5V¨~Z" "Ë";
  RI "I~Y~-19H~-5V¨~Z" "Ï";
  RI "O~Y~-22H~-4V¨~Z" "Ö";
  RI "O~Y~-22H~-3V¨~Z" "ö";
  RI "U~Y~-22H~-3V¨~Z" "Ü";
  RI "~Yウ~Z゛" "ヴ";
  RI "~Yカ~Z゛" "ガ";
  RI "~Yキ~Z゛" "ギ";
  RI "~Yク~Z゛" "グ";
  RI "~Yケ~Z゛" "ゲ";
  RI "~Yコ~Z゛" "ゴ";
  RI "~Yサ~Z゛" "ザ";
  RI "~Yシ~Z゛" "ジ";
  RI "~Yス~Z゛" "ズ";
  RI "~Yセ~Z゛" "ゼ";
  RI "~Yソ~Z゛" "ゾ";
  RI "~Yタ~Z゛" "ダ";
  RI "~Yチ~Z゛" "ヂ";
  RI "~Yツ~Z゛" "ヅ";
  RI "~Yテ~Z゛" "デ";
  RI "~Yト~Z゛" "ド";
  RI "~Yハ~Z゛" "バ";
  RI "~Yヒ~Z゛" "ビ";
  RI "~Yフ~Z゛" "ブ";
  RI "~Yヘ~Z゛" "ベ";
  RI "~Yホ~Z゛" "ボ";
  RI "~Yハ~Z゜" "パ";
  RI "~Yヒ~Z゜" "ピ";
  RI "~Yフ~Z゜" "プ";
  RI "~Yヘ~Z゜" "ペ";
  RI "~Yホ~Z゜" "ポ";
  RI "~Yか~Z゛" "が";
  RI "~Yき~Z゛" "ぎ";
  RI "~Yく~Z゛" "ぐ";
  RI "~Yけ~Z゛" "げ";
  RI "~Yこ~Z゛" "ご";
  RI "~Yさ~Z゛" "ざ";
  RI "~Yし~Z゛" "じ";
  RI "~Yす~Z゛" "ず";
  RI "~Yせ~Z゛" "ぜ";
  RI "~Yそ~Z゛" "ぞ";
  RI "~Yた~Z゛" "だ";
  RI "~Yち~Z゛" "ぢ";
  RI "~Yつ~Z゛" "づ";
  RI "~Yて~Z゛" "で";
  RI "~Yと~Z゛" "ど";
  RI "~Yは~Z゛" "ば";
  RI "~Yひ~Z゛" "び";
  RI "~Yふ~Z゛" "ぶ";
  RI "~Yへ~Z゛" "べ";
  RI "~Yほ~Z゛" "ぼ";
  RI "~Yは~Z゜" "ぱ";
  RI "~Yひ~Z゜" "ぴ";
  RI "~Yふ~Z゜" "ぷ";
  RI "~Yへ~Z゜" "ぺ";
  RI "~Yほ~Z゜" "ぽ";
  RI ",~+8H" "、";
  RI "~+8H " "　";
  RI "~~" "世";
  RI "~Y~22L<~Z~Y~27L*~Z~Y~1L>~Z~Y~23L[~Z~+26H" "<PAD_X>";
  RI "~Y~22L<~Z~Y~26L;~Z~Y~1L>~Z~Y~23L[~Z~+26H" "<PAD_TRIANGLE>";
  RI "~Y~22L<~Z~Y~25L@~Z~Y~1L>~Z~Y~23L[~Z~+26H" "<PAD_CIRCLE>";
  RI "~Y~22L<~Z~Y~24L#~Z~Y~1L>~Z~Y~23L[~Z~+26H" "<PAD_SQUARE>"
].

(** *** Jak 1, second version: the same font with [_] no longer overlapping a kanji *)


Definition s_encode_info_jak1_v2 : list EncodeInfo := [
  EI "_" [x03];
  EI "ˇ" [x10];
  EI "`" [x11];
  EI "'" [x12];
  EI "^" [x13];
  EI "<TIL>" [x14];
  EI "¨" [x15];
  EI "º" [x16];
  EI "¡" [x17];
  EI "¿" [x18];
  EI "海" [x1a];
  EI "Æ" [x1b];
  EI "界" [x1c];
  EI "Ç" [x1d];
  EI "学" [x1e];
  EI "ß" [x1f];
  EI "ワ" [x24];
  EI "ヲ" [x26];
  EI "ン" [x27];
  EI "岩" [x5c];
  EI "旧" [x5d];
  EI "空" [x5e];
  EI "掘" [x5f];
  EI "ヮ" [x60];
  EI "撃" [x61];
  EI "賢" [x62];
  EI "湖" [x63];
  EI "口" [x64];
  EI "行" [x65];
  EI "合" [x66];
  EI "士" [x67];
  EI "寺" [x68];
  EI "山" [x69];
  EI "者" [x6a];
  EI "所" [x6b];
  EI "書" [x6c];
  EI "小" [x6d];
  EI "沼" [x6e];
  EI "上" [x6f];
  EI "城" [x70];
  EI "場" [x71];
  EI "出" [x72];
  EI "闇" [x73];
  EI "遺" [x74];
  EI "黄" [x75];
  EI "屋" [x76];
  EI "下" [x77];
  EI "家" [x78];
  EI "火" [x79];
  EI "花" [x7a];
  EI "レ" [x7b];
  EI "Œ" [x7c];
  EI "ロ" [x7d];
  EI "青" [x7f];
  EI "・" [x90];
  EI "゛" [x91];
  EI "゜" [x92];
  EI "ー" [x93];
  EI "『" [x94];
  EI "』" [x95];
  EI "ぁ" [x96];
  EI "あ" [x97];
  EI "ぃ" [x98];
  EI "い" [x99];
  EI "ぅ" [x9a];
  EI "う" [x9b];
  EI "ぇ" [x9c];
  EI "え" [x9d];
  EI "ぉ" [x9e];
  EI "お" [x9f];
  EI "か" [xa0];
  EI "き" [xa1];
  EI "く" [xa2];
  EI "け" [xa3];
  EI "こ" [xa4];
  EI "さ" [xa5];
  EI "し" [xa6];
  EI "す" [xa7];
  EI "せ" [xa8];
  EI "そ" [xa9];
  EI "た" [xaa];
  EI "ち" [xab];
  EI "っ" [xac];
  EI "つ" [xad];
  EI "て" [xae];
  EI "と" [xaf];
  EI "な" [xb0];
  EI "に" [xb1];
  EI "ぬ" [xb2];
  EI "ね" [xb3];
  EI "の" [xb4];
  EI "は" [xb5];
  EI "ひ" [xb6];
  EI "ふ" [xb7];
  EI "へ" [xb8];
  EI "ほ" [xb9];
  EI "ま" [xba];
  EI "み" [xbb];
  EI "む" [xbc];
  EI "め" [xbd];
  EI "も" [xbe];
  EI "ゃ" [xbf];
  EI "や" [xc0];
  EI "ゅ" [xc1];
  EI "ゆ" [xc2];
  EI "ょ" [xc3];
  EI "よ" [xc4];
  EI "ら" [xc5];
  EI "り" [xc6];
  EI "る" [xc7];
  EI "れ" [xc8];
  EI "ろ" [xc9];
  EI "ゎ" [xca];
  EI "わ" [xcb];
  EI "を" [xcc];
  EI "ん" [xcd];
  EI "ァ" [xce];
  EI "ア" [xcf];
  EI "ィ" [xd0];
  EI "イ" [xd1];
  EI "ゥ" [xd2];
  EI "ウ" [xd3];
  EI "ェ" [xd4];
  EI "エ" [xd5];
  EI "ォ" [xd6];
  EI "オ" [xd7];
  EI "カ" [xd8];
  EI "キ" [xd9];
  EI "ク" [xda];
  EI "ケ" [xdb];
  EI "コ" [xdc];
  EI "サ" [xdd];
  EI "シ" [xde];
  EI "ス" [xdf];
  EI "セ" [xe0];
  EI "ソ" [xe1];
  EI "タ" [xe2];
  EI "チ" [xe3];
  EI "ッ" [xe4];
  EI "ツ" [xe5];
  EI "テ" [xe6];
  EI "ト" [xe7];
  EI "ナ" [xe8];
  EI "ニ" [xe9];
  EI "ヌ" [xea];
  EI "ネ" [xeb];
  EI "ノ" [xec];
  EI "ハ" [xed];
  EI "ヒ" [xee];
  EI "フ" [xef];
  EI "ヘ" [xf0];
  EI "ホ" [xf1];
  EI "マ" [xf2];
  EI "ミ" [xf3];
  EI "ム" [xf4];
  EI "メ" [xf5];
  EI "モ" [xf6];
  EI "ャ" [xf7];
  EI "ヤ" [xf8];
  EI "ュ" [xf9];
  EI "ユ" [xfa];
  EI "ョ" [xfb];
  EI "ヨ" [xfc];
  EI "ラ" [xfd];
  EI "リ" [xfe];
  EI "ル" [xff];
  EI "宝" [x01; x01];
  EI "石" [x01; x10];
  EI "赤" [x01; x11];
  EI "跡" [x01; x12];
  EI "川" [x01; x13];
  EI "戦" [x01; x14];
  EI "村" [x01; x15];
  EI "隊" [x01; x16];
  EI "台" [x01; x17];
  EI "長" [x01; x18];
  EI "鳥" [x01; x19];
  EI "艇" [x01; x1a];
  EI "洞" [x01; x1b];
  EI "道" [x01; x1c];
  EI "発" [x01; x1d];
  EI "飛" [x01; x1e];
  EI "噴" [x01; x1f];
  EI "池" [x01; xa0];
  EI "中" [x01; xa1];
  EI "塔" [x01; xa2];
  EI "島" [x01; xa3];
  EI "部" [x01; xa4];
  EI "砲" [x01; xa5];
  EI "産" [x01; xa6];
  EI "眷" [x01; xa7];
  EI "力" [x01; xa8];
  EI "緑" [x01; xa9];
  EI "岸" [x01; xaa];
  EI "像" [x01; xab];
  EI "谷" [x01; xac];
  EI "心" [x01; xad];
  EI "森" [x01; xae];
  EI "水" [x01; xaf];
  EI "船" [x01; xb0];
  EI "™" [x01; xb1]
].

(** *** Jak 2 *)

Definition s_passthrus_jak2 : gset ascii :=
  list_to_set (str "~ ,.-+()!:?=%*/#;<>@[_]").


Definition s_replace_info_jak2 : list ReplaceInfo := [
  RI "A~Y~-21H~-5Vº~Z" "Å";
  RI "N~Y~-6Hº~Z~+10H" "Nº";
  RI "~+4Vç~-4V" ",c";
  RI "N~Y~-22H~-4V<TIL>~Z" "Ñ";
  RI "n~Y~-24H~-4V<TIL>~Z" "ñ";
  RI "A~Y~-21H~-5V<TIL>~Z" "Ã";
  RI "O~Y~-22H~-4V<TIL>~Z" "Õ";
  RI "A~Y~-21H~-5V'~Z" "Á";
  RI "A~Y~-26H~-8V'~Z" "<Á_V2>";
  RI "a~Y~-25H~-5V'~Z" "á";
  RI "E~Y~-23H~-9V'~Z" "É";
  RI "e~Y~-26H~-5V'~Z" "é";
  RI "I~Y~-19H~-5V'~Z" "Í";
  RI "i~Y~-19H~-8V'~Z" "í";
  RI "O~Y~-22H~-4V'~Z" "Ó";
  RI "o~Y~-26H~-4V'~Z" "ó";
  RI "U~Y~-24H~-3V'~Z" "Ú";
  RI "u~Y~-24H~-3V'~Z" "ú";
  RI "A~Y~-20H~-4V^~Z" "Â";
  RI "a~Y~-24H~-5V^~Z" "â";
  RI "E~Y~-20H~-5V^~Z" "Ê";
  RI "e~Y~-25H~-4V^~Zt" "ê";
  RI "I~Y~-19H~-5V^~Z" "Î";
  RI "i~Y~-19H~-8V^~Z" "î";
  RI "O~Y~-20H~-4V^~Z" "Ô";
  RI "o~Y~-25H~-4V^~Z" "ô";
  RI "U~Y~-24H~-3V^~Z" "Û";
  RI "u~Y~-23H~-3V^~Z" "û";
  RI "A~Y~-26H~-8V`~Z" "À";
  RI "a~Y~-25H~-5V`~Z" "à";
  RI "E~Y~-23H~-9V`~Z" "È";
  RI "e~Y~-26H~-5V`~Z" "è";
  RI "I~Y~-19H~-5V`~Z" "Ì";
  RI "i~Y~-19H~-8V`~Z" "ì";
  RI "O~Y~-22H~-4V`~Z" "Ò";
  RI "o~Y~-26H~-4V`~Z" "ò";
  RI "U~Y~-24H~-3V`~Z" "Ù";
  RI "u~Y~-24H~-3V`~Z" "ù";
  RI "A~Y~-26H~-8V¨~Z" "Ä";
  RI "a~Y~-25H~-5V¨~Z" "ä";
  RI "E~Y~-20H~-5V¨~Z" "Ë";
  RI "I~Y~-19H~-5V¨~Z" "Ï";
  RI "O~Y~-26H~-8V¨~Z" "Ö";
  RI "o~Y~-26H~-4V¨~Z" "ö";
  RI "U~Y~-25H~-8V¨~Z" "Ü";
  RI "u~Y~-24H~-3V¨~Z" "ü";
  RI "~Yウ~Z゛" "ヴ";
  RI "~Yカ~Z゛" "ガ";
  RI "~Yキ~Z゛" "ギ";
  RI "~Yク~Z゛" "グ";
  RI "~Yケ~Z゛" "ゲ";
  RI "~Yコ~Z゛" "ゴ";
  RI "~Yサ~Z゛" "ザ";
  RI "~Yシ~Z゛" "ジ";
  RI "~Yス~Z゛" "ズ";
  RI "~Yセ~Z゛" "ゼ";
  RI "~Yソ~Z゛" "ゾ";
  RI "~Yタ~Z゛" "ダ";
  RI "~Yチ~Z゛" "ヂ";
  RI "~Yツ~Z゛" "ヅ";
  RI "~Yテ~Z゛" "デ";
  RI "~Yト~Z゛" "ド";
  RI "~Yハ~Z゛" "バ";
  RI "~Yヒ~Z゛" "ビ";
  RI "~Yフ~Z゛" "ブ";
  RI "~Yヘ~Z゛" "ベ";
  RI "~Yホ~Z゛" "ボ";
  RI "~Yハ~Z゜" "パ";
  RI "~Yヒ~Z゜" "ピ";
  RI "~Yフ~Z゜" "プ";
  RI "~Yヘ~Z゜" "ペ";
  RI "~Yホ~Z゜" "ポ";
  RI "~Yか~Z゛" "が";
  RI "~Yき~Z゛" "ぎ";
  RI "~Yく~Z゛" "ぐ";
  RI "~Yけ~Z゛" "げ";
  RI "~Yこ~Z゛" "ご";
  RI "~Yさ~Z゛" "ざ";
  RI "~Yし~Z゛" "じ";
  RI "~Yす~Z゛" "ず";
  RI "~Yせ~Z゛" "ぜ";
  RI "~Yそ~Z゛" "ぞ";
  RI "~Yた~Z゛" "だ";
  RI "~Yち~Z゛" "ぢ";
  RI "~Yつ~Z゛" "づ";
  RI "~Yて~Z゛" "で";
  RI "~Yと~Z゛" "ど";
  RI "~Yは~Z゛" "ば";
  RI "~Yひ~Z゛" "び";
  RI "~Yふ~Z゛" "ぶ";
  RI "~Yへ~Z゛" "べ";
  RI "~Yほ~Z゛" "ぼ";
  RI "~Yは~Z゜" "ぱ";
  RI "~Yひ~Z゜" "ぴ";
  RI "~Yふ~Z゜" "ぷ";
  RI "~Yへ~Z゜" "ぺ";
  RI "~Yほ~Z゜" "ぽ";
  RI ",~+8H" "、";
  RI "~+8H " "　";
  RI "~Y~22L<~Z~Y~27L*~Z~Y~1L>~Z~Y~23L[~Z~+26H" "<PAD_X>";
  RI "~Y~22L<~Z~Y~26L;~Z~Y~1L>~Z~Y~23L[~Z~+26H" "<PAD_TRIANGLE>";
  RI "~Y~22L<~Z~Y~25L@~Z~Y~1L>~Z~Y~23L[~Z~+26H" "<PAD_CIRCLE>";
  RI "~Y~22L<~Z~Y~24L#~Z~Y~1L>~Z~Y~23L[~Z~+26H" "<PAD_SQUARE>";
  RI "~Y~22L<PAD_PART_DPAD_L>~Z~3L~+17H~-13V<PAD_PART_DPAD_U>~Z~22L~+17H~+14V<PAD_PART_DPAD_D>~Z~22L~+32H<PAD_PART_DPAD_R>~Z~+56H" "<PAD_DPAD_UP>";
  RI "~Y~22L<PAD_PART_DPAD_L>~Z~3L~+17H~-13V<PAD_PART_DPAD_U>~Z~3L~+17H~+14V<PAD_PART_DPAD_D>~Z~22L~+32H<PAD_PART_DPAD_R>~Z~+56H" "<PAD_DPAD_DOWN>";
  RI "~Y~22L<PAD_PART_DPAD_L>~Z~22L~+17H~-13V<PAD_PART_DPAD_U>~Z~22L~+17H~+14V<PAD_PART_DPAD_D>~Z~22L~+32H<PAD_PART_DPAD_R>~Z~+56H" "<PAD_DPAD_ANY>";
  RI "~Y~22L~-2H~-12V<PAD_PART_SHOULDER_TOP_LEFT><PAD_PART_SHOULDER_TOP_RIGHT>~Z~22L~-2H~+17V<PAD_PART_SHOULDER_BOTTOM_LEFT><PAD_PART_SHOULDER_BOTTOM_RIGHT>~Z~1L~+4H~+3V<PAD_PART_L1_NAME>~Z~+38H" "<PAD_L1>";
  RI "~Y~22L~-2H~-12V<PAD_PART_SHOULDER_TOP_LEFT><PAD_PART_SHOULDER_TOP_RIGHT>~Z~22L~-2H~+17V<PAD_PART_SHOULDER_BOTTOM_LEFT><PAD_PART_SHOULDER_BOTTOM_RIGHT>~Z~1L~+6H~+3V<PAD_PART_R1_NAME>~Z~+38H" "<PAD_R1>";
  RI "~Y~22L~-2H~-6V<PAD_PART_TRIGGER_TOP_LEFT><PAD_PART_TRIGGER_TOP_RIGHT>~Z~22L~-2H~+16V<PAD_PART_TRIGGER_BOTTOM_LEFT><PAD_PART_TRIGGER_BOTTOM_RIGHT>~Z~1L~+5H~-2V<PAD_PART_R2_NAME>~Z~+38H" "<PAD_R2>";
  RI "~Y~22L~-2H~-6V<PAD_PART_TRIGGER_TOP_LEFT><PAD_PART_TRIGGER_TOP_RIGHT>~Z~22L~-2H~+16V<PAD_PART_TRIGGER_BOTTOM_LEFT><PAD_PART_TRIGGER_BOTTOM_RIGHT>~Z~1L~+5H~-2V<PAD_PART_L2_NAME>~Z~+38H" "<PAD_L2>";
  RI "~1L~+8H~Y<PAD_PART_STICK>~Z~6L~-16H<PAD_PART_STICK_LEFT>~Z~+16h~6L<PAD_PART_STICK_RIGHT>~Z~6L~-15V<PAD_PART_STICK_DOWN>~Z~+13V~6L<PAD_PART_STICK_UP>~Z~-10H~+9V~6L<PAD_PART_STICK_UP_LEFT>~Z~+10H~+9V~6L<PAD_PART_STICK_UP_RIGHT>~Z~-10H~-11V~6L<PAD_PART_STICK_DOWN_LEFT>~Z~+10H~-11V~6L<PAD_PART_STICK_DOWN_RIGHT>~Z~+32H" "<PAD_ANALOG_ANY>";
  RI "~Y~1L~+8H<PAD_PART_STICK>~Z~6L~-8H<PAD_PART_STICK_LEFT>~Z~+24H~6L<PAD_PART_STICK_RIGHT>~Z~+40H" "<PAD_ANALOG_LEFT_RIGHT>";
  RI "~Y~1L<PAD_PART_STICK>~Z~6L~-15V<PAD_PART_STICK_DOWN>~Z~+13V~6L<PAD_PART_STICK_UP>~Z~+26H" "<PAD_ANALOG_UP_DOWN>";
  RI "~Y~6L<~Z~Y~1L>~Z~Y~23L[~Z~+26H" "<ICON_MISSION_COMPLETE>";
  RI "~Y~3L<~Z~Y~1L>~Z~Y~23L[~Z~+26H" "<ICON_MISSION_TODO>";
  RI "~Y~6L<FLAG_PART_VERT_STRIPE_LARGE>~Z~+15H~1L<FLAG_PART_VERT_STRIPE_LARGE>~Z~+30H~3L<FLAG_PART_VERT_STRIPE_LARGE>~Z~+45H" "<FLAG_ITALIAN>";
  RI "~Y~5L<FLAG_PART_FILL>~Z~3L<FLAG_PART_TOP_BOTTOM_STRIPE>~]~-1H~Y~5L<FLAG_PART_FILL>~Z~3L<FLAG_PART_TOP_BOTTOM_STRIPE>~Z~+26H" "<FLAG_SPAIN>";
  RI "~Y~39L~~~Z~3L<FLAG_PART_HORZ_STRIPE_MIDDLE>~Z~5L<FLAG_PART_HORZ_STRIPE_BOTTOM>~]~-1H~Y~39L~~~Z~3L<FLAG_PART_HORZ_STRIPE_MIDDLE>~Z~5L<FLAG_PART_HORZ_STRIPE_BOTTOM>~Z~+26H" "<FLAG_GERMAN>";
  RI "~Y~7L<FLAG_PART_VERT_STRIPE_LARGE>~Z~+15H~1L<FLAG_PART_VERT_STRIPE_LARGE>~Z~+30H~3L<FLAG_PART_VERT_STRIPE_LARGE>~Z~+47H" "<FLAG_FRANCE>";
  RI "~Y~1L<FLAG_PART_FILL>~Z~3L<FLAG_PART_UK_CROSS_LEFT>~Z~7L<FLAG_PART_UK_FILL_LEFT>~]~-1H~Y~1L<FLAG_PART_FILL>~Z~3L<FLAG_PART_UK_CROSS_RIGHT>~Z~7L<FLAG_PART_UK_FILL_RIGHT>~Z~+26H" "<FLAG_UK>";
  RI "~Y~1L<FLAG_PART_FILL>~Z~3L<FLAG_PART_USA_STRIPES_LEFT>~Z~7L<FLAG_PART_USA_STARS>~]~-1H~Y~1L<FLAG_PART_FILL>~Z~3L<FLAG_PART_USA_STRIPES_RIGHT>~Z~+26H" "<FLAG_USA>";
  RI "~Y~1L<FLAG_PART_FILL>~Z~39L<FLAG_PART_KOREA_TRIGRAMS_LEFT>~]~-1H~Y~1L<FLAG_PART_FILL>~Z~39L<FLAG_PART_KOREA_TRIGRAMS_RIGHT>~Z~-11H~7L<FLAG_PART_KOREA_CIRCLE_FILL>~Z~-11H~3L<FLAG_PART_KOREA_CIRCLE_TOP>~Z~+26H" "<FLAG_KOREA>";
  RI "~Y~1L<FLAG_PART_FILL>~]~-1H~Y~1L<FLAG_PART_FILL>~Z~-11H~3L<FLAG_PART_JAPAN_SUN>~Z~+26H" "<FLAG_JAPAN>";
  RI "~+7Vp~-7V" "p";
  RI "~+7Vy~-7V" "y";
  RI "~+7Vg~-7V" "g";
  RI "~+7Vq~-7V" "q";
  RI "~+1Vj~-1V" "j";
  RI "\\" "~%";
  RI "~-4H~-3V<SOMETHING>~+3V~-4H" "<SUPERSCRIPT_QUOTE>";
  RI "~Y~-6Hº~Z~+10H" "°";
  RI "~[~1L" "<COLOR_WHITE>";
  RI "~[~32L" "<COLOR_DEFAULT>"
].


Definition s_encode_info_jak2 : list EncodeInfo := [
  EI "ˇ" [x10];
  EI "`" [x11];
  EI "'" [x12];
  EI "^" [x13];
  EI "<TIL>" [x14];
  EI "¨" [x15];
  EI "º" [x16];
  EI "¡" [x17];
  EI "¿" [x18];
  EI "<SOMETHING>" [x19];
  EI "ç" [x1d];
  EI "Ç" [x1e];
  EI "ß" [x1f];
  EI "œ" [x5e];
  EI "<FLAG_PART_HORZ_STRIPE_MIDDLE>" [x7f];
  EI "<FLAG_PART_HORZ_STRIPE_BOTTOM>" [x80];
  EI "<FLAG_PART_VERT_STRIPE_LARGE>" [x81];
  EI "<FLAG_PART_VERT_STRIPE_RIGHT>" [x82];
  EI "<FLAG_PART_VERT_STRIPE_LEFT>" [x83];
  EI "<FLAG_PART_VERT_STRIPE_MIDDLE>" [x84];
  EI "<FLAG_PART_FILL>" [x85];
  EI "<FLAG_PART_JAPAN_SUN>" [x86];
  EI "<FLAG_PART_KOREA_TRIGRAMS_LEFT>" [x87];
  EI "<FLAG_PART_KOREA_TRIGRAMS_RIGHT>" [x88];
  EI "<FLAG_PART_KOREA_CIRCLE_TOP>" [x89];
  EI "<FLAG_PART_KOREA_CIRCLE_FILL>" [x8a];
  EI "<FLAG_PART_TOP_BOTTOM_STRIPE>" [x8b];
  EI "<FLAG_PART_UK_CROSS_LEFT>" [x8c];
  EI "<FLAG_PART_UK_CROSS_RIGHT>" [x8d];
  EI "<FLAG_PART_UK_FILL_LEFT>" [x8e];
  EI "<FLAG_PART_UK_FILL_RIGHT>" [x8f];
  EI "<FLAG_PART_USA_STRIPES_RIGHT>" [x90];
  EI "<PAD_PART_STICK>" [x91];
  EI "<PAD_PART_SELECT>" [x92];
  EI "<PAD_PART_TRIGGER_BACK>" [x93];
  EI "<PAD_PART_R1_NAME>" [x94];
  EI "<PAD_PART_L1_NAME>" [x95];
  EI "<PAD_PART_R2_NAME>" [x96];
  EI "<PAD_PART_L2_NAME>" [x97];
  EI "<PAD_PART_STICK_UP>" [x98];
  EI "<PAD_PART_STICK_UP_RIGHT>" [x99];
  EI "<FLAG_PART_USA_STRIPES_LEFT>" [x9a];
  EI "<FLAG_PART_USA_STARS>" [x9b];
  EI "<PAD_PART_STICK_DOWN>" [x9c];
  EI "<PAD_PART_STICK_DOWN_LEFT>" [x9d];
  EI "<PAD_PART_STICK_LEFT>" [x9e];
  EI "<PAD_PART_STICK_UP_LEFT>" [x9f];
  EI "<PAD_PART_DPAD_D>" [xa0];
  EI "<PAD_PART_DPAD_L>" [xa1];
  EI "<PAD_PART_DPAD_U>" [xa2];
  EI "<PAD_PART_DPAD_R>" [xa3];
  EI "<PAD_PART_STICK_RIGHT>" [xa4];
  EI "<PAD_PART_STICK_DOWN_RIGHT>" [xa5];
  EI "<PAD_PART_SHOULDER_TOP_LEFT>" [xa6];
  EI "<PAD_PART_SHOULDER_TOP_RIGHT>" [xa7];
  EI "<PAD_PART_TRIGGER_TOP_LEFT>" [xa8];
  EI "<PAD_PART_TRIGGER_TOP_RIGHT>" [xa9];
  EI "<PAD_PART_TRIGGER_SHIM1>" [xaa];
  EI "<PAD_PART_TRIGGER_SHIM2>" [xab];
  EI "<PAD_PART_SHOULDER_SHIM2>" [xac];
  EI "<PAD_PART_SHOULDER_BOTTOM_LEFT>" [xb0];
  EI "<PAD_PART_SHOULDER_BOTTOM_RIGHT>" [xb1];
  EI "<PAD_PART_TRIGGER_BOTTOM_LEFT>" [xb2];
  EI "<PAD_PART_TRIGGER_BOTTOM_RIGHT>" [xb3];
  EI "・" [x01; x10];
  EI "゛" [x01; x11];
  EI "゜" [x01; x12];
  EI "ー" [x01; x13];
  EI "『" [x01; x14];
  EI "』" [x01; x15];
  EI "ぁ" [x01; x16];
  EI "あ" [x01; x17];
  EI "ぃ" [x01; x18];
  EI "い" [x01; x19];
  EI "ぅ" [x01; x1a];
  EI "う" [x01; x1b];
  EI "ぇ" [x01; x1c];
  EI "え" [x01; x1d];
  EI "ぉ" [x01; x1e];
  EI "お" [x01; x1f];
  EI "か" [x01; x20];
  EI "き" [x01; x21];
  EI "く" [x01; x22];
  EI "け" [x01; x23];
  EI "こ" [x01; x24];
  EI "さ" [x01; x25];
  EI "し" [x01; x26];
  EI "す" [x01; x27];
  EI "せ" [x01; x28];
  EI "そ" [x01; x29];
  EI "た" [x01; x2a];
  EI "ち" [x01; x2b];
  EI "っ" [x01; x2c];
  EI "つ" [x01; x2d];
  EI "て" [x01; x2e];
  EI "と" [x01; x2f];
  EI "な" [x01; x30];
  EI "に" [x01; x31];
  EI "ぬ" [x01; x32];
  EI "ね" [x01; x33];
  EI "の" [x01; x34];
  EI "は" [x01; x35];
  EI "ひ" [x01; x36];
  EI "ふ" [x01; x37];
  EI "へ" [x01; x38];
  EI "ほ" [x01; x39];
  EI "ま" [x01; x3a];
  EI "み" [x01; x3b];
  EI "む" [x01; x3c];
  EI "め" [x01; x3d];
  EI "も" [x01; x3e];
  EI "ゃ" [x01; x3f];
  EI "や" [x01; x40];
  EI "ゅ" [x01; x41];
  EI "ゆ" [x01; x42];
  EI "ょ" [x01; x43];
  EI "よ" [x01; x44];
  EI "ら" [x01; x45];
  EI "り" [x01; x46];
  EI "る" [x01; x47];
  EI "れ" [x01; x48];
  EI "ろ" [x01; x49];
  EI "ゎ" [x01; x4a];
  EI "わ" [x01; x4b];
  EI "を" [x01; x4c];
  EI "ん" [x01; x4d];
  EI "ァ" [x01; x4e];
  EI "ア" [x01; x4f];
  EI "ィ" [x01; x50];
  EI "イ" [x01; x51];
  EI "ゥ" [x01; x52];
  EI "ウ" [x01; x53];
  EI "ェ" [x01; x54];
  EI "エ" [x01; x55];
  EI "ォ" [x01; x56];
  EI "オ" [x01; x57];
  EI "カ" [x01; x58];
  EI "キ" [x01; x59];
  EI "ク" [x01; x5a];
  EI "ケ" [x01; x5b];
  EI "コ" [x01; x5c];
  EI "サ" [x01; x5d];
  EI "シ" [x01; x5e];
  EI "ス" [x01; x5f];
  EI "セ" [x01; x60];
  EI "ソ" [x01; x61];
  EI "タ" [x01; x62];
  EI "チ" [x01; x63];
  EI "ッ" [x01; x64];
  EI "ツ" [x01; x65];
  EI "テ" [x01; x66];
  EI "ト" [x01; x67];
  EI "ナ" [x01; x68];
  EI "ニ" [x01; x69];
  EI "ヌ" [x01; x6a];
  EI "ネ" [x01; x6b];
  EI "ノ" [x01; x6c];
  EI "ハ" [x01; x6d];
  EI "ヒ" [x01; x6e];
  EI "フ" [x01; x6f];
  EI "ヘ" [x01; x70];
  EI "ホ" [x01; x71];
  EI "マ" [x01; x72];
  EI "ミ" [x01; x73];
  EI "ム" [x01; x74];
  EI "メ" [x01; x75];
  EI "モ" [x01; x76];
  EI "ャ" [x01; x77];
  EI "ヤ" [x01; x78];
  EI "ュ" [x01; x79];
  EI "ユ" [x01; x7a];
  EI "ョ" [x01; x7b];
  EI "ヨ" [x01; x7c];
  EI "ラ" [x01; x7d];
  EI "リ" [x01; x7e];
  EI "ル" [x01; x7f];
  EI "レ" [x01; x80];
  EI "ロ" [x01; x81];
  EI "ヮ" [x01; x82];
  EI "ワ" [x01; x83];
  EI "ヲ" [x01; x84];
  EI "ン" [x01; x85];
  EI "位" [x01; x8c];
  EI "遺" [x01; x8d];
  EI "院" [x01; x8e];
  EI "映" [x01; x8f];
  EI "衛" [x01; x90];
  EI "応" [x01; x91];
  EI "下" [x01; x92];
  EI "画" [x01; x93];
  EI "解" [x01; x94];
  EI "開" [x01; x95];
  EI "外" [x01; x96];
  EI "害" [x01; x97];
  EI "蓋" [x01; x98];
  EI "完" [x01; x99];
  EI "換" [x01; x9a];
  EI "監" [x01; x9b];
  EI "間" [x01; x9c];
  EI "器" [x01; x9d];
  EI "記" [x01; x9e];
  EI "逆" [x01; x9f];
  EI "救" [x01; xa0];
  EI "金" [x01; xa1];
  EI "空" [x01; xa2];
  EI "掘" [x01; xa3];
  EI "警" [x01; xa4];
  EI "迎" [x01; xa5];
  EI "撃" [x01; xa6];
  EI "建" [x01; xa7];
  EI "源" [x01; xa8];
  EI "現" [x01; xa9];
  EI "言" [x01; xaa];
  EI "限" [x01; xab];
  EI "個" [x01; xac];
  EI "庫" [x01; xad];
  EI "後" [x01; xae];
  EI "語" [x01; xaf];
  EI "護" [x01; xb0];
  EI "交" [x01; xb1];
  EI "功" [x01; xb2];
  EI "向" [x01; xb3];
  EI "工" [x01; xb4];
  EI "攻" [x01; xb5];
  EI "溝" [x01; xb6];
  EI "行" [x01; xb7];
  EI "鉱" [x01; xb8];
  EI "降" [x01; xb9];
  EI "合" [x01; xba];
  EI "告" [x01; xbb];
  EI "獄" [x01; xbc];
  EI "彩" [x01; xbd];
  EI "作" [x01; xbe];
  EI "山" [x01; xbf];
  EI "使" [x01; xc0];
  EI "始" [x01; xc1];
  EI "試" [x01; xc2];
  EI "字" [x01; xc3];
  EI "寺" [x01; xc4];
  EI "時" [x01; xc5];
  EI "示" [x01; xc6];
  EI "自" [x01; xc7];
  EI "式" [x01; xc8];
  EI "矢" [x01; xc9];
  EI "射" [x01; xca];
  EI "者" [x01; xcb];
  EI "守" [x01; xcc];
  EI "手" [x01; xcd];
  EI "終" [x01; xce];
  EI "週" [x01; xcf];
  EI "出" [x01; xd0];
  EI "所" [x01; xd1];
  EI "書" [x01; xd2];
  EI "勝" [x01; xd3];
  EI "章" [x01; xd4];
  EI "上" [x01; xd5];
  EI "乗" [x01; xd6];
  EI "場" [x01; xd7];
  EI "森" [x01; xd8];
  EI "進" [x01; xd9];
  EI "人" [x01; xda];
  EI "水" [x01; xdb];
  EI "数" [x01; xdc];
  EI "制" [x01; xdd];
  EI "性" [x01; xde];
  EI "成" [x01; xdf];
  EI "聖" [x01; xe0];
  EI "石" [x01; xe1];
  EI "跡" [x01; xe2];
  EI "先" [x01; xe3];
  EI "戦" [x01; xe4];
  EI "船" [x01; xe5];
  EI "選" [x01; xe6];
  EI "走" [x01; xe7];
  EI "送" [x01; xe8];
  EI "像" [x01; xe9];
  EI "造" [x01; xea];
  EI "続" [x01; xeb];
  EI "対" [x01; xec];
  EI "袋" [x01; xed];
  EI "台" [x01; xee];
  EI "弾" [x01; xef];
  EI "地" [x01; xf0];
  EI "中" [x01; xf1];
  EI "敵" [x01; xf2];
  EI "転" [x01; xf3];
  EI "電" [x01; xf4];
  EI "塔" [x01; xf5];
  EI "頭" [x01; xf6];
  EI "動" [x01; xf7];
  EI "内" [x01; xf8];
  EI "日" [x01; xf9];
  EI "入" [x01; xfa];
  EI "年" [x01; xfb];
  EI "能" [x01; xfc];
  EI "廃" [x01; xfd];
  EI "排" [x01; xfe];
  EI "敗" [x01; xff];
  EI "発" [x02; x10];
  EI "反" [x02; x11];
  EI "必" [x02; x12];
  EI "表" [x02; x13];
  EI "武" [x02; x14];
  EI "壁" [x02; x15];
  EI "墓" [x02; x16];
  EI "放" [x02; x17];
  EI "方" [x02; x18];
  EI "砲" [x02; x19];
  EI "妨" [x02; x1a];
  EI "北" [x02; x1b];
  EI "本" [x02; x1c];
  EI "幕" [x02; x1d];
  EI "無" [x02; x1e];
  EI "迷" [x02; x1f];
  EI "面" [x02; x20];
  EI "戻" [x02; x21];
  EI "紋" [x02; x22];
  EI "薬" [x02; x23];
  EI "輸" [x02; x24];
  EI "勇" [x02; x25];
  EI "友" [x02; x26];
  EI "遊" [x02; x27];
  EI "容" [x02; x28];
  EI "要" [x02; x29];
  EI "利" [x02; x2a];
  EI "了" [x02; x2b];
  EI "量" [x02; x2c];
  EI "力" [x02; x2d];
  EI "練" [x02; x2e];
  EI "連" [x02; x2f];
  EI "録" [x02; x30];
  EI "話" [x02; x31];
  EI "墟" [x02; x32];
  EI "脱" [x02; x33];
  EI "旗" [x02; x35];
  EI "破" [x02; x36];
  EI "壊" [x02; x37];
  EI "全" [x02; x38];
  EI "滅" [x02; x39];
  EI "機" [x02; x3a];
  EI "仲" [x02; x3b];
  EI "渓" [x02; x3c];
  EI "谷" [x02; x3d];
  EI "優" [x02; x3e];
  EI "探" [x02; x3f];
  EI "部" [x02; x40];
  EI "索" [x02; x41];
  EI "前" [x02; x43];
  EI "右" [x02; x44];
  EI "左" [x02; x45];
  EI "会" [x02; x46];
  EI "高" [x02; x47];
  EI "低" [x02; x48];
  EI "押" [x02; x49];
  EI "切" [x02; x4a];
  EI "替" [x02; x4b];
  EI "秒" [x02; x4d];
  EI "箱" [x02; x4e];
  EI "泳" [x02; x4f];
  EI "～" [x02; x50];
  EI "闇" [x02; x56];
  EI "以" [x02; x57];
  EI "屋" [x02; x58];
  EI "俺" [x02; x59];
  EI "化" [x02; x5a];
  EI "界" [x02; x5b];
  EI "感" [x02; x5c];
  EI "気" [x02; x5d];
  EI "却" [x02; x5e];
  EI "曲" [x02; x5f];
  EI "継" [x02; x60];
  EI "権" [x02; x61];
  EI "見" [x02; x62];
  EI "古" [x02; x63];
  EI "好" [x02; x64];
  EI "才" [x02; x66];
  EI "士" [x02; x67];
  EI "子" [x02; x68];
  EI "次" [x02; x69];
  EI "主" [x02; x6a];
  EI "種" [x02; x6b];
  EI "讐" [x02; x6c];
  EI "女" [x02; x6d];
  EI "小" [x02; x6e];
  EI "焼" [x02; x6f];
  EI "証" [x02; x70];
  EI "神" [x02; x71];
  EI "身" [x02; x72];
  EI "寸" [x02; x73];
  EI "世" [x02; x74];
  EI "想" [x02; x75];
  EI "退" [x02; x76];
  EI "第" [x02; x77];
  EI "着" [x02; x78];
  EI "天" [x02; x79];
  EI "倒" [x02; x7a];
  EI "到" [x02; x7b];
  EI "突" [x02; x7c];
  EI "爆" [x02; x7d];
  EI "番" [x02; x7e];
  EI "負" [x02; x7f];
  EI "復" [x02; x80];
  EI "物" [x02; x81];
  EI "眠" [x02; x82];
  EI "予" [x02; x83];
  EI "用" [x02; x84];
  EI "落" [x02; x85];
  EI "緑" [x02; x86];
  EI "封" [x02; x88];
  EI "印" [x02; x89];
  EI "扉" [x02; x8a];
  EI "最" [x02; x8b];
  EI "刻" [x02; x8c];
  EI "足" [x02; x8d];
  EI "<H186>" [x01; x86];
  EI "<H187>" [x01; x87];
  EI "<H188>" [x01; x88];
  EI "<H189>" [x01; x89];
  EI "<H18a>" [x01; x8a];
  EI "<H306>" [x03; x06];
  EI "<H307>" [x03; x07];
  EI "<H308>" [x03; x08];
  EI "<H309>" [x03; x09];
  EI "<H30a>" [x03; x0a];
  EI "<H30b>" [x03; x0b];
  EI "<H30c>" [x03; x0c];
  EI "<H30d>" [x03; x0d];
  EI "<H30e>" [x03; x0e];
  EI "<H30f>" [x03; x0f];
  EI "<H310>" [x03; x10];
  EI "<H311>" [x03; x11];
  EI "<H312>" [x03; x12];
  EI "<H313>" [x03; x13];
  EI "<H314>" [x03; x14];
  EI "<H315>" [x03; x15];
  EI "<H316>" [x03; x16];
  EI "<H317>" [x03; x17];
  EI "<H318>" [x03; x18];
  EI "<H319>" [x03; x19];
  EI "<H31a>" [x03; x1a];
  EI "<H31b>" [x03; x1b];
  EI "<H31c>" [x03; x1c];
  EI "<H31d>" [x03; x1d];
  EI "<H31e>" [x03; x1e];
  EI "<H31f>" [x03; x1f];
  EI "<H320>" [x03; x20];
  EI "<H321>" [x03; x21];
  EI "<H322>" [x03; x22];
  EI "<H323>" [x03; x23];
  EI "<H324>" [x03; x24];
  EI "<H325>" [x03; x25];
  EI "<H326>" [x03; x26];
  EI "<H327>" [x03; x27];
  EI "<H328>" [x03; x28];
  EI "<H329>" [x03; x29];
  EI "<H32a>" [x03; x2a];
  EI "<H32b>" [x03; x2b];
  EI "<H32c>" [x03; x2c];
  EI "<H32d>" [x03; x2d];
  EI "<H32e>" [x03; x2e];
  EI "<H32f>" [x03; x2f];
  EI "<H330>" [x03; x30];
  EI "<H331>" [x03; x31];
  EI "<H332>" [x03; x32];
  EI "<H333>" [x03; x33];
  EI "<H334>" [x03; x34];
  EI "<H335>" [x03; x35];
  EI "<H336>" [x03; x36];
  EI "<H337>" [x03; x37];
  EI "<H338>" [x03; x38];
  EI "<H339>" [x03; x39];
  EI "<H33a>" [x03; x3a];
  EI "<H33b>" [x03; x3b];
  EI "<H33c>" [x03; x3c];
  EI "<H33d>" [x03; x3d];
  EI "<H33e>" [x03; x3e];
  EI "<H33f>" [x03; x3f];
  EI "<H340>" [x03; x40];
  EI "<H341>" [x03; x41];
  EI "<H342>" [x03; x42];
  EI "<H343>" [x03; x43];
  EI "<H344>" [x03; x44];
  EI "<H345>" [x03; x45];
  EI "<H346>" [x03; x46];
  EI "<H347>" [x03; x47];
  EI "<H348>" [x03; x48];
  EI "<H349>" [x03; x49];
  EI "<H34a>" [x03; x4a];
  EI "<H34b>" [x03; x4b];
  EI "<H34c>" [x03; x4c];
  EI "<H34d>" [x03; x4d];
  EI "<H34e>" [x03; x4e];
  EI "<H34f>" [x03; x4f];
  EI "<H350>" [x03; x50];
  EI "<H351>" [x03; x51];
  EI "<H352>" [x03; x52];
  EI "<H353>" [x03; x53];
  EI "<H354>" [x03; x54];
  EI "<H355>" [x03; x55];
  EI "<H356>" [x03; x56];
  EI "<H357>" [x03; x57];
  EI "<H358>" [x03; x58];
  EI "<H359>" [x03; x59];
  EI "<H35a>" [x03; x5a];
  EI "<H35b>" [x03; x5b];
  EI "<H35c>" [x03; x5c];
  EI "<H35d>" [x03; x5d];
  EI "<H35e>" [x03; x5e];
  EI "<H35f>" [x03; x5f];
  EI "<H360>" [x03; x60];
  EI "<H361>" [x03; x61];
  EI "<H362>" [x03; x62];
  EI "<H363>" [x03; x63];
  EI "<H364>" [x03; x64];
  EI "<H365>" [x03; x65];
  EI "<H366>" [x03; x66];
  EI "<H367>" [x03; x67];
  EI "<H368>" [x03; x68];
  EI "<H369>" [x03; x69];
  EI "<H36a>" [x03; x6a];
  EI "<H36b>" [x03; x6b];
  EI "<H36c>" [x03; x6c];
  EI "<H36d>" [x03; x6d];
  EI "<H36e>" [x03; x6e];
  EI "<H36f>" [x03; x6f];
  EI "<H370>" [x03; x70];
  EI "<H371>" [x03; x71];
  EI "<H372>" [x03; x72];
  EI "<H373>" [x03; x73];
  EI "<H374>" [x03; x74];
  EI "<H375>" [x03; x75];
  EI "<H376>" [x03; x76];
  EI "<H377>" [x03; x77];
  EI "<H378>" [x03; x78];
  EI "<H379>" [x03; x79];
  EI "<H37a>" [x03; x7a];
  EI "<H37b>" [x03; x7b];
  EI "<H37c>" [x03; x7c];
  EI "<H37d>" [x03; x7d];
  EI "<H37e>" [x03; x7e];
  EI "<H37f>" [x03; x7f];
  EI "<H380>" [x03; x80];
  EI "<H381>" [x03; x81];
  EI "<H382>" [x03; x82];
  EI "<H383>" [x03; x83];
  EI "<H384>" [x03; x84];
  EI "<H385>" [x03; x85];
  EI "<H386>" [x03; x86];
  EI "<H387>" [x03; x87];
  EI "<H388>" [x03; x88];
  EI "<H389>" [x03; x89];
  EI "<H38a>" [x03; x8a];
  EI "<H38b>" [x03; x8b];
  EI "<H38c>" [x03; x8c];
  EI "<H38d>" [x03; x8d];
  EI "<H38e>" [x03; x8e];
  EI "<H38f>" [x03; x8f];
  EI "<H390>" [x03; x90];
  EI "<H391>" [x03; x91];
  EI "<H392>" [x03; x92];
  EI "<H393>" [x03; x93];
  EI "<H394>" [x03; x94];
  EI "<H395>" [x03; x95];
  EI "<H396>" [x03; x96];
  EI "<H397>" [x03; x97];
  EI "<H398>" [x03; x98];
  EI "<H399>" [x03; x99];
  EI "<H39a>" [x03; x9a];
  EI "<H39b>" [x03; x9b];
  EI "<H39c>" [x03; x9c];
  EI "<H39d>" [x03; x9d];
  EI "<H39e>" [x03; x9e];
  EI "<H39f>" [x03; x9f];
  EI "<H3a0>" [x03; xa0];
  EI "<H3a1>" [x03; xa1];
  EI "<H3a2>" [x03; xa2];
  EI "<H3a3>" [x03; xa3];
  EI "<H3a4>" [x03; xa4];
  EI "<H3a5>" [x03; xa5];
  EI "<H3a6>" [x03; xa6];
  EI "<H3a7>" [x03; xa7];
  EI "<H3a8>" [x03; xa8];
  EI "<H3a9>" [x03; xa9];
  EI "<H3aa>" [x03; xaa];
  EI "<H3ab>" [x03; xab];
  EI "<H3ac>" [x03; xac];
  EI "<H3ad>" [x03; xad];
  EI "<H3ae>" [x03; xae];
  EI "<H3af>" [x03; xaf];
  EI "<H3b0>" [x03; xb0];
  EI "<H3b1>" [x03; xb1];
  EI "<H3b2>" [x03; xb2];
  EI "<H3b3>" [x03; xb3];
  EI "<H3b4>" [x03; xb4];
  EI "<H3b5>" [x03; xb5];
  EI "<H3b6>" [x03; xb6];
  EI "<H3b7>" [x03; xb7];
  EI "<H3b8>" [x03; xb8];
  EI "<H3b9>" [x03; xb9];
  EI "<H3ba>" [x03; xba];
  EI "<H3bb>" [x03; xbb];
  EI "<H3bc>" [x03; xbc];
  EI "<H3bd>" [x03; xbd];
  EI "<H3be>" [x03; xbe];
  EI "<H3bf>" [x03; xbf];
  EI "<H3c0>" [x03; xc0];
  EI "<H3c1>" [x03; xc1];
  EI "<H3c2>" [x03; xc2];
  EI "<H3c3>" [x03; xc3];
  EI "<H3c4>" [x03; xc4];
  EI "<H3c5>" [x03; xc5];
  EI "<H3c6>" [x03; xc6];
  EI "<H3c7>" [x03; xc7];
  EI "<H3c8>" [x03; xc8];
  EI "<H3c9>" [x03; xc9];
  EI "<H3ca>" [x03; xca];
  EI "<H3cb>" [x03; xcb];
  EI "<H3cc>" [x03; xcc];
  EI "<H3cd>" [x03; xcd];
  EI "<H3ce>" [x03; xce];
  EI "<H3cf>" [x03; xcf];
  EI "<H3d0>" [x03; xd0];
  EI "<H3d1>" [x03; xd1];
  EI "<H3d2>" [x03; xd2];
  EI "<H3d3>" [x03; xd3];
  EI "<H3d4>" [x03; xd4];
  EI "<H3d5>" [x03; xd5];
  EI "<H3d6>" [x03; xd6];
  EI "<H3d7>" [x03; xd7];
  EI "<H3d8>" [x03; xd8];
  EI "<H3d9>" [x03; xd9];
  EI "<H3da>" [x03; xda];
  EI "<H3db>" [x03; xdb];
  EI "<H3dc>" [x03; xdc];
  EI "<H3dd>" [x03; xdd];
  EI "<H3de>" [x03; xde];
  EI "<H3df>" [x03; xdf];
  EI "<H3e0>" [x03; xe0];
  EI "<H3e1>" [x03; xe1];
  EI "<H3e2>" [x03; xe2];
  EI "<H3e3>" [x03; xe3];
  EI "<H3e4>" [x03; xe4];
  EI "<H3e5>" [x03; xe5];
  EI "<H3e6>" [x03; xe6];
  EI "<H3e7>" [x03; xe7];
  EI "<H3e8>" [x03; xe8];
  EI "<H3e9>" [x03; xe9];
  EI "<H3ea>" [x03; xea];
  EI "<H3eb>" [x03; xeb];
  EI "<H3ec>" [x03; xec];
  EI "<H3ed>" [x03; xed];
  EI "<H3ee>" [x03; xee];
  EI "<H3ef>" [x03; xef];
  EI "<H3f0>" [x03; xf0];
  EI "<H3f1>" [x03; xf1];
  EI "<H3f2>" [x03; xf2];
  EI "<H3f3>" [x03; xf3];
  EI "<H3f4>" [x03; xf4];
  EI "<H3f5>" [x03; xf5];
  EI "<H3f6>" [x03; xf6];
  EI "<H3f7>" [x03; xf7];
  EI "<H3f8>" [x03; xf8];
  EI "<H3f9>" [x03; xf9];
  EI "<H3fa>" [x03; xfa];
  EI "<H3fb>" [x03; xfb];
  EI "<H3fc>" [x03; xfc];
  EI "<H3fd>" [x03; xfd];
  EI "<H3fe>" [x03; xfe];
  EI "<H3ff>" [x03; xff]
].

Local Close Scope string_scope.

(** ** The banks and the registry *)

Definition g_font_bank_jak1_v1 : GameTextFontBank :=
  GameTextFontBank_new JAK1_V1 s_encode_info_jak1 s_replace_info_jak1 s_passthrus_jak1.

(** The second bank is given the replace table and the passthrough set of
    the first by address, so its constructor sorts that table a second time
    ([std_sort_idem] below: the model's sort leaves a sorted table as it
    is). *)
Definition g_font_bank_jak1_v2 : GameTextFontBank :=
  GameTextFontBank_new JAK1_V2 s_encode_info_jak1_v2 s_replace_info_jak1 s_passthrus_jak1.

Definition g_font_bank_jak2 : GameTextFontBank :=
  GameTextFontBank_new JAK2 s_encode_info_jak2 s_replace_info_jak2 s_passthrus_jak2.

(** The mutable globals of the file: the accumulator of the Korean pre-pass
    and the map of the banks (the source's map holds their addresses). *)
Record Globals : Type := mkGlobals {
  seqs : list Z;
  g_font_banks : gmap GameTextVersion GameTextFontBank
}.

Definition initial_globals : Globals :=
  {| seqs := [];
     g_font_banks :=
       <[JAK1_V1 := g_font_bank_jak1_v1]>
         (<[JAK1_V2 := g_font_bank_jak1_v2]>
            (<[JAK2 := g_font_bank_jak2]> ∅)) |}.

(** Code that reads and writes the globals and may throw. *)
Definition M (A : Type) : Type := Globals -> Result A * Globals.

Definition ret {A} (a : A) : M A := fun g => (Ok a, g).
Definition throw {A} (e : exception) : M A := fun g => (Err e, g).
Definition bind {A B} (m : M A) (k : A -> M B) : M B :=
  fun g =>
    match m g with
    | (Ok a, g') => k a g'
    | (Err e, g') => (Err e, g')
    end.
Definition lift {A} (r : Result A) : M A := fun g => (r, g).

(** [get_font_bank(GameTextVersion)]: [g_font_banks.at(version)] *)
Definition get_font_bank_version (version : GameTextVersion) : M GameTextFontBank :=
  fun g =>
    match g_font_banks g !! version with
    | Some bank => (Ok bank, g)
    | None => (Err out_of_range, g)
    end.

(** [get_font_bank(const std::string&)] *)
Definition get_font_bank (name : string) : M GameTextFontBank :=
  match sTextVerEnumMap !! name with
  | None => throw (unknown_text_version name)
  | Some version => get_font_bank_version version
  end.

(** [font_bank_exists]: [g_font_banks.find(version) != g_font_banks.cend()] *)
Definition font_bank_exists (version : GameTextVersion) : M bool :=
  fun g => (Ok (bool_decide (is_Some (g_font_banks g !! version))), g).

(** The transcoding operations of a bank as code over the globals. *)
Definition do_convert_utf8_to_game (this : GameTextFontBank) (str_ : list ascii)
    (escape : bool) : M (list ascii) :=
  lift (convert_utf8_to_game this str_ escape).

Definition do_convert_game_to_utf8 (this : GameTextFontBank) (in_ : list ascii)
    (korean : bool) : M (list ascii) :=
  fun g =>
    let '(out, seqs') := convert_game_to_utf8 this in_ korean (seqs g) in
    (Ok out, {| seqs := seqs'; g_font_banks := g_font_banks g |}).

(** * Notions used in the statements *)

(** Longest first: no element is shorter than a later one. *)
Definition longest_first {A} (key : A -> nat) (l : list A) : Prop :=
  StronglySorted (fun a b => key b <= key a) l.

(** The two tables of a bank are ordered longest pattern first. *)
Definition tables_sorted (bank : GameTextFontBank) : Prop :=
  longest_first (fun info => length (bytes info)) (m_encode_info bank)
  /\ longest_first (fun info => length (from info)) (m_replace_info bank).

(** The escape stage of [convert_utf8_to_game] on its own. *)
Definition unescape (str_ : list ascii) : Result (list ascii) :=
  unescape_loop (length str_) str_ 0 [].

(** The bytes of a buffer strictly before its first zero byte. *)
Fixpoint before_nul (in_ : list ascii) : list ascii :=
  match in_ with
  | [] => []
  | c :: rest => if Ascii.eqb c NUL then [] else c :: before_nul rest
  end.

(** No encode rule of the bank has a zero byte in its byte pattern. *)
Definition rules_without_nul (this : GameTextFontBank) : Prop :=
  Forall (fun info => ~ In x00 (bytes info)) (m_encode_info this).

(** A bank built from two rules whose byte patterns overlap, the shorter
    pattern carrying the longer text. *)
Definition overlap_encode_info : list EncodeInfo :=
  [EI "xyz" [x01]; EI "q" [x01; x02]].

Definition overlap_bank : GameTextFontBank :=
  GameTextFontBank_new JAK2 overlap_encode_info s_replace_info_null ∅.


(** Forward, then reverse without the Korean pre-pass. *)
Definition round_trip (this : GameTextFontBank) (s : list ascii) (escape : bool)
  : Result (list ascii) :=
  Result_bind (convert_utf8_to_game this s escape)
    (fun game => Ok (fst (convert_game_to_utf8 this game false []))).

(** *** Escapes in a text

    [escape_error s] is the error of the escape that starts [s], if it is
    one the escape stage rejects; [s] is the text from a backslash on. *)
Definition escape_error (s : list ascii) : option exception :=
  match s with
  | b :: rest =>
      if Ascii.eqb b BACKSLASH then
        match rest with
        | [] => Some incomplete_string_escape_code
        | p :: rest' =>
            if Ascii.eqb p "c" then
              match rest' with
              | first :: second :: _ =>
                  if hex_char first && hex_char second then None
                  else Some invalid_character_escape_hex_number
              | _ => Some incomplete_string_escape_code
              end
            else if Ascii.eqb p DQUOTE || Ascii.eqb p BACKSLASH then None
            else Some (unknown_string_escape_code p)
        end
      else None
  | [] => None
  end.

(** [well_escaped s]: [s] is a sequence of characters other than the double
    quote and the backslash and of complete escapes [\cXX], backslash-quote
    and backslash-backslash. *)
Fixpoint well_escaped (s : list ascii) : bool :=
  match s with
  | [] => true
  | c :: rest =>
      if Ascii.eqb c DQUOTE then false
      else if Ascii.eqb c BACKSLASH then
        match rest with
        | [] => false
        | p :: rest' =>
            if Ascii.eqb p "c" then
              match rest' with
              | first :: second :: rest'' =>
                  hex_char first && hex_char second && well_escaped rest''
              | _ => false
              end
            else if Ascii.eqb p DQUOTE || Ascii.eqb p BACKSLASH
            then well_escaped rest'
            else false
        end
      else well_escaped rest
  end.

(** *** The operations of a bank

    The transcoding operations and the resolvers, run on the bank that the
    registry holds for a version. *)
Inductive Operation : Type :=
| op_convert_utf8_to_game (str_ : list ascii) (escape : bool)
| op_convert_game_to_utf8 (in_ : list ascii) (korean : bool)
| op_find_encode_to_utf8 (in_ : list ascii)
| op_find_encode_to_game (in_ : list ascii) (off : nat)
| op_find_replace_to_utf8 (in_ : list ascii) (off : nat)
| op_find_replace_to_game (in_ : list ascii) (off : nat)
| op_replace_to_utf8 (str_ : list ascii)
| op_replace_to_game (str_ : list ascii)
| op_encode_utf8_to_game (str_ : list ascii)
| op_valid_char_range (in_ : ascii).

Inductive Value : Type :=
| v_string (s : list ascii)
| v_encode_info (info : option EncodeInfo)
| v_replace_info (info : option ReplaceInfo)
| v_bool (b : bool).

Definition run_on (this : GameTextFontBank) (op : Operation) : M Value :=
  match op with
  | op_convert_utf8_to_game str_ escape =>
      bind (do_convert_utf8_to_game this str_ escape) (fun s => ret (v_string s))
  | op_convert_game_to_utf8 in_ korean =>
      bind (do_convert_game_to_utf8 this in_ korean) (fun s => ret (v_string s))
  | op_find_encode_to_utf8 in_ => ret (v_encode_info (find_encode_to_utf8 this in_))
  | op_find_encode_to_game in_ off =>
      ret (v_encode_info (find_encode_to_game this in_ off))
  | op_find_replace_to_utf8 in_ off =>
      ret (v_replace_info (find_replace_to_utf8 this in_ off))
  | op_find_replace_to_game in_ off =>
      ret (v_replace_info (find_replace_to_game this in_ off))
  | op_replace_to_utf8 str_ => ret (v_string (replace_to_utf8 this str_))
  | op_replace_to_game str_ => ret (v_string (replace_to_game this str_))
  | op_encode_utf8_to_game str_ => ret (v_string (encode_utf8_to_game this str_))
  | op_valid_char_range in_ => ret (v_bool (valid_char_range this in_))
  end.

Definition run (version : GameTextVersion) (op : Operation) : M Value :=
  bind (get_font_bank_version version) (fun this => run_on this op).

(** The globals after a sequence of operations. *)
Fixpoint run_all (ops : list (GameTextVersion * Operation)) (g : Globals) : Globals :=
  match ops with
  | [] => g
  | (version, op) :: ops' => run_all ops' (snd (run version op g))
  end.

(** Every bank of the registry has its tables in order. *)
Definition banks_sorted (g : Globals) : Prop :=
  forall version bank, g_font_banks g !! version = Some bank -> tables_sorted bank.

(** The escape loop seen from the text that is left: [rest] is the string
    from the index on.  [unescape_loop_from] below shows that the loop
    computes this function. *)
Fixpoint unescape_from (rest : list ascii) (newstr : list ascii) : Result (list ascii) :=
  match rest with
  | [] => Ok newstr
  | c :: rest1 =>
      if Ascii.eqb c DQUOTE then
        match rest1 with
        | [] => Ok (newstr ++ [DQUOTE])
        | _ :: rest2 => unescape_from rest2 (newstr ++ [DQUOTE])
        end
      else if Ascii.eqb c BACKSLASH then
        match rest1 with
        | [] => Err incomplete_string_escape_code
        | p :: rest2 =>
            if Ascii.eqb p "c" then
              match rest2 with
              | first :: second :: rest4 =>
                  if negb (hex_char first) || negb (hex_char second)
                  then Err invalid_character_escape_hex_number
                  else
                    match stoul16 [first; second] with
                    | Err e => Err e
                    | Ok (value, end_) =>
                        if negb (end_ =? 2) then Err invalid_character_escape
                        else if negb (value <? 256)%Z then Err assertion_failed
                        else unescape_from rest4 (newstr ++ [char_of_value value])
                    end
              | _ => Err incomplete_string_escape_code
              end
            else if Ascii.eqb p DQUOTE || Ascii.eqb p BACKSLASH then
              unescape_from rest2 (newstr ++ [p])
            else Err (unknown_string_escape_code p)
        end
      else unescape_from rest1 (newstr ++ [c])
  end.

(** The text holds a backslash with [p] right after it. *)
Definition backslash_then (p : ascii) (s : list ascii) : Prop :=
  exists pre rest, s = pre ++ BACKSLASH :: p :: rest.

(** *** Rules in another order

    [std::sort] settles the order of rules of equal length in a way the
    model cannot know.  [same_rules a b] relates two banks that differ in
    the order of their rules at most: the bank that the constructor builds
    and the bank of the model are so related. *)
Definition same_rules (a b : GameTextFontBank) : Prop :=
  m_version a = m_version b
  /\ m_passthrus a = m_passthrus b
  /\ Permutation (m_encode_info a) (m_encode_info b)
  /\ Permutation (m_replace_info a) (m_replace_info b).

#[global] Instance byte_eq_decision : EqDecision byte.
Proof.
  intros x y. destruct (Byte.eqb x y) eqn:E.
  - left. now apply byte_dec_bl.
  - right. now apply eqb_false.
Defined.

#[global] Instance EncodeInfo_eq_dec : EqDecision EncodeInfo.
Proof. solve_decision. Defined.

#[global] Instance ReplaceInfo_eq_dec : EqDecision ReplaceInfo.
Proof. solve_decision. Defined.

(** The common shape of the four resolvers: the first of the longest rules
    that match. *)
Definition select_step {A} (matches : A -> bool) (len : A -> nat)
    (best : option A) (x : A) : option A :=
  if matches x then
    match best with
    | None => Some x
    | Some b => if len b <? len x then Some x else best
    end
  else best.

Definition select {A} (matches : A -> bool) (len : A -> nat) (l : list A) : option A :=
  fold_left (select_step matches len) l None.

Definition matches_encode_to_utf8 (in_ : list ascii) (info : EncodeInfo) : bool :=
  negb (length (bytes info) =? 0) && bytes_found in_ (bytes info) 0.

Definition matches_encode_to_game (in_ : list ascii) (off : nat) (info : EncodeInfo)
  : bool :=
  negb (length (chars info) =? 0) && chars_found (ptr_add in_ off) (chars info).

Definition matches_replace_to_utf8 (in_ : list ascii) (off : nat) (info : ReplaceInfo)
  : bool :=
  negb (empty (from info))
  && negb (size_t_sub_lt (length in_) off (length (from info)))
  && memcmp_eq (ptr_add in_ off) (from info) (length (from info)).

Definition matches_replace_to_game (in_ : list ascii) (off : nat) (info : ReplaceInfo)
  : bool :=
  negb (empty (to info))
  && negb (size_t_sub_lt (length in_) off (length (to info)))
  && memcmp_eq (ptr_add in_ off) (to info) (length (to info)).

(** Among the rules that match, one only is as long as the one selected. *)
Definition unambiguous {A} `{EqDecision A} (matches : A -> bool) (len : A -> nat)
    (l : list A) : bool :=
  match select matches len l with
  | None => true
  | Some r =>
      forallb (fun x =>
                 if matches x
                 then if len x <? len r then true else bool_decide (x = r)
                 else true) l
  end.

(** [find_encode_to_game] is unambiguous at every offset of [s]. *)
Definition encode_unambiguous (this : GameTextFontBank) (s : list ascii) : bool :=
  forallb
    (fun off =>
       unambiguous (matches_encode_to_game s off) (fun info => length (chars info))
         (m_encode_info this))
    (List.seq 0 (length s)).

(** The forward transcoder meets no ambiguous choice on [s]. *)
Definition forward_unambiguous (this : GameTextFontBank) (s : list ascii)
    (escape : bool) : bool :=
  match (if escape then unescape s else Ok s) with
  | Ok newstr => encode_unambiguous this (replace_to_game this newstr)
  | Err _ => true
  end.

Fixpoint is_prefix {A} `{EqDecision A} (p l : list A) : bool :=
  match p, l with
  | [], _ => true
  | _ :: _, [] => false
  | x :: p', y :: l' => if bool_decide (x = y) then is_prefix p' l' else false
  end.

(** The rules of a bank are distinct: no byte pattern is the start of the
    pattern of another rule, and no two replace rules have the same game
    side or the same display side. *)
Definition rules_distinct (this : GameTextFontBank) : bool :=
  forallb
    (fun x =>
       forallb (fun r => if is_prefix (bytes x) (bytes r) then bool_decide (x = r) else true)
         (m_encode_info this))
    (m_encode_info this)
  && forallb
       (fun x =>
          forallb
            (fun r =>
               (if bool_decide (from x = from r) then bool_decide (x = r) else true)
               && (if bool_decide (to x = to r) then bool_decide (x = r) else true))
            (m_replace_info this))
       (m_replace_info this).

(** *** The texts that come back from the round trip *)

(** The rounds of the string loops.

    [rounds find adv str_] lists the rounds of a loop
    [for (int i = 0; i < n;) { remap = find(str, i); ...; i += ...; }]:
    for each round the text from the index on and the rule found there.
    It is the loop of the source with the same steps of the index, keeping
    a record of the rounds in place of the string built. *)
Definition rounds_body {R} (find : list ascii -> nat -> option R) (adv : R -> nat)
    (str_ : list ascii) (i : nat) (acc : list (list ascii * option R))
  : nat * list (list ascii * option R) :=
  match find str_ i with
  | None => (i + 1, acc ++ [(ptr_add str_ i, None)])
  | Some remap => (i + adv remap, acc ++ [(ptr_add str_ i, Some remap)])
  end.

Definition rounds {R} (find : list ascii -> nat -> option R) (adv : R -> nat)
    (str_ : list ascii) : list (list ascii * option R) :=
  for_index (length str_) (length str_) (rounds_body find adv str_) 0 [].

Definition replace_to_game_rounds (this : GameTextFontBank) (str_ : list ascii)
  : list (list ascii * option ReplaceInfo) :=
  rounds (find_replace_to_game this) (fun remap => length (to remap)) str_.

Definition encode_utf8_to_game_rounds (this : GameTextFontBank) (str_ : list ascii)
  : list (list ascii * option EncodeInfo) :=
  rounds (find_encode_to_game this) (fun remap => length (chars remap)) str_.

(** No double quote, backslash, tab or newline. *)
Definition plain_text (s : list ascii) : bool :=
  forallb (fun c => negb (Ascii.eqb c DQUOTE) && negb (Ascii.eqb c BACKSLASH)
                    && negb (Ascii.eqb c TAB) && negb (Ascii.eqb c NEWLINE)) s.

(** The game side of a replace rule that is longer than [n] stands at the
    start of [t]. *)
Definition longer_game_side (this : GameTextFontBank) (n : nat) (t : list ascii) : bool :=
  existsb (fun x => (n <? length (from x)) && is_prefix (from x) t) (m_replace_info this).

(** No game side of a replace rule occurs in [s]. *)
Fixpoint no_game_side (this : GameTextFontBank) (s : list ascii) : bool :=
  match s with
  | [] => true
  | _ :: s' => negb (longer_game_side this 0 s) && no_game_side this s'
  end.

(** What a round of [replace_to_game] writes. *)
Definition game_piece (round : list ascii * option ReplaceInfo) : list ascii :=
  match snd round with
  | None => [deref (fst round)]
  | Some remap => from remap
  end.

(** Reading the game text that the rounds write from the left, round by
    round: where a rule was applied its game side is not empty and no
    longer game side stands there, and where a character was copied no game
    side stands there. *)
Fixpoint rounds_invertible (this : GameTextFontBank)
    (rs : list (list ascii * option ReplaceInfo)) : bool :=
  match rs with
  | [] => true
  | round :: rs' =>
      match snd round with
      | None => negb (longer_game_side this 0 (flat_map game_piece rs))
      | Some remap =>
          negb (empty (from remap))
          && negb (longer_game_side this (length (from remap)) (flat_map game_piece rs))
      end
      && rounds_invertible this rs'
  end.

Definition replace_invertible (this : GameTextFontBank) (s : list ascii) : bool :=
  rounds_invertible this (replace_to_game_rounds this s).

(** The reverse transcoder copies the byte [c]: it is not the terminator,
    no byte pattern starts with it, and it is a valid literal or one of
    newline, tab, backslash and double quote. *)
Definition copied_back (this : GameTextFontBank) (c : ascii) : bool :=
  negb (Ascii.eqb c NUL)
  && forallb (fun x => match bytes x with
                       | [] => true
                       | b :: _ => negb (Byte.eqb (byte_of_ascii c) b)
                       end) (m_encode_info this)
  && (valid_char_range this c || Ascii.eqb c NEWLINE || Ascii.eqb c TAB
      || Ascii.eqb c BACKSLASH || Ascii.eqb c DQUOTE).

(** What a round of [replace_to_game] reads. *)
Definition display_piece (round : list ascii * option ReplaceInfo) : list ascii :=
  match snd round with
  | None => [deref (fst round)]
  | Some remap => to remap
  end.

(** What a round of [encode_utf8_to_game] writes, and what it reads when
    the rule applied stands in the text in full. *)
Definition byte_piece (round : list ascii * option EncodeInfo) : list ascii :=
  match snd round with
  | None => [deref (fst round)]
  | Some remap => map ascii_of_byte (bytes remap)
  end.

Definition chars_piece (round : list ascii * option EncodeInfo) : list ascii :=
  match snd round with
  | None => [deref (fst round)]
  | Some remap => chars remap
  end.

(** A round of [encode_utf8_to_game] that can be read back. *)
Definition round_read_back (this : GameTextFontBank)
    (round : list ascii * option EncodeInfo) : bool :=
  match snd round with
  | None => copied_back this (deref (fst round))
  | Some remap =>
      is_prefix (chars remap) (fst round)
      && match bytes remap with
         | [] => false
         | b :: _ => negb (Byte.eqb b x00)
         end
  end.

(** Every round of [encode_utf8_to_game] on [g] can be read back: a rule
    applied stands in [g] in full (it does not run past the end) and its
    byte pattern starts with a byte other than the terminator; a character
    copied is one the reverse transcoder copies. *)
Definition encode_invertible (this : GameTextFontBank) (g : list ascii) : bool :=
  forallb (round_read_back this) (encode_utf8_to_game_rounds this g).

(** The conditions of the round trip on [s] taken together. *)
Definition round_trip_domain (this : GameTextFontBank) (s : list ascii) : bool :=
  plain_text s
  && no_game_side this s
  && replace_invertible this s
  && encode_invertible this (replace_to_game this s).



(** What a text is made of: a valid literal character, the text of an
    encode rule or the display text of a replace rule. *)
Definition display_unit (this : GameTextFontBank) (u : list ascii) : bool :=
  match u with
  | [c] => valid_char_range this c
  | _ => false
  end
  || negb (empty u)
     && (existsb (fun info => bool_decide (chars info = u)) (m_encode_info this)
         || existsb (fun info => bool_decide (to info = u)) (m_replace_info this)).

(** *** What the rule of a resolver has to do with the input *)

(** The buffer at [in_] starts with the bytes [bs]. *)
Definition starts_with_bytes (in_ : list ascii) (bs : list byte) : Prop :=
  forall i, i < length bs -> byte_of_ascii (ptr_index in_ i) = nth i bs x00.

(** [pat] stands in [in_] at index [off]. *)
Definition occurs_at (pat in_ : list ascii) (off : nat) : Prop :=
  exists pre post, in_ = pre ++ pat ++ post /\ length pre = off.

(** [pat] and [in_] from index [off] on agree as far as both go. *)
Definition agrees_at (pat in_ : list ascii) (off : nat) : Prop :=
  forall i, i < length pat -> off + i < length in_ ->
            nth (off + i) in_ NUL = nth i pat NUL.

(** [r] is the first of the longest elements of [l] that satisfy [P]. *)
Definition first_longest {A} (P : A -> Prop) (len : A -> nat) (l : list A) (r : A)
  : Prop :=
  exists before after,
    l = before ++ r :: after /\ P r
    /\ (forall x, In x before -> P x -> len x < len r)
    /\ (forall x, In x after -> P x -> len x <= len r).
(** ** First evaluations *)

(** A letter, a rule with a five-character text and a rule with a two-byte
    text. *)
Example convert_utf8_to_game_rules :
  convert_utf8_to_game g_font_bank_jak1_v1 (str "A<TIL>ß") false
  = Ok ["A"; "020"; "031"]%char.
Proof. vm_compute. reflexivity. Qed.

(** An accented letter is written as its base letter and the commands that
    draw the accent over it, next to other text, and read back. *)
Example convert_utf8_to_game_accent :
  convert_utf8_to_game g_font_bank_jak1_v1 (str "CAFÉS") false
  = Ok (str "CAFE~Y~-22H~-5V" ++ ["018"%char] ++ str "~ZS")
  /\ round_trip g_font_bank_jak1_v1 (str "CAFÉS") false = Ok (str "CAFÉS").
Proof. vm_compute. split; reflexivity. Qed.

(** Bytes that are neither rules nor valid literals, a line break and a
    double quote. *)
Example convert_game_to_utf8_escapes :
  fst (convert_game_to_utf8 g_font_bank_jak2 ["A"; "004"; "010"; "034"; "b"]%char false [])
  = str "A\c04\n\" ++ [DQUOTE; "b"%char].
Proof. vm_compute. reflexivity. Qed.

(** The empty input gives the empty output in both directions. *)
Example convert_empty :
  convert_utf8_to_game g_font_bank_jak2 [] true = Ok []
  /\ convert_utf8_to_game g_font_bank_jak2 [] false = Ok []
  /\ convert_game_to_utf8 g_font_bank_jak2 [] false [] = ([], [])
  /\ convert_game_to_utf8 g_font_bank_jak2 [] true [] = ([], []).
Proof. vm_compute. split_and!; reflexivity. Qed.

(** ** Sorting *)

Section Sorting.
Context {A : Type} (key : A -> nat).

(** [comp] is the comparator of both sorts of the constructor,
    [a.size() > b.size()]. *)
Context (comp : A -> A -> bool).
Hypothesis comp_key : forall a b, comp a b = (key b <? key a).

Lemma sort_insert_perm (x : A) (l : list A) :
  Permutation (sort_insert comp x l) (x :: l).
Proof.
  induction l as [|y l IH]; simpl; [reflexivity|].
  destruct (comp y x); [|reflexivity].
  rewrite IH. apply perm_swap.
Qed.

Lemma std_sort_perm (l : list A) : Permutation (std_sort comp l) l.
Proof.
  induction l as [|x l IH]; simpl; [reflexivity|].
  rewrite sort_insert_perm. now apply perm_skip.
Qed.

Lemma sort_insert_sorted (x : A) (l : list A) :
  longest_first key l -> longest_first key (sort_insert comp x l).
Proof.
  unfold longest_first.
  induction l as [|y l IH]; intros Hs; simpl.
  - repeat constructor.
  - apply StronglySorted_inv in Hs as [Hs Hy].
    rewrite comp_key. destruct (Nat.ltb_spec (key x) (key y)) as [Hlt|Hge].
    + constructor; [now apply IH|].
      eapply Permutation_Forall; [symmetry; apply sort_insert_perm|].
      constructor; [lia|exact Hy].
    + constructor; [now constructor|].
      constructor; [exact Hge|].
      eapply List.Forall_impl; [|exact Hy]. simpl. intros z Hz. lia.
Qed.

Lemma std_sort_sorted (l : list A) : longest_first key (std_sort comp l).
Proof.
  induction l as [|x l IH]; simpl; [constructor|].
  now apply sort_insert_sorted.
Qed.

(** Sorting a sorted table leaves it as it is. *)
Lemma std_sort_idem (l : list A) : longest_first key l -> std_sort comp l = l.
Proof.
  unfold longest_first.
  induction l as [|x l IH]; intros Hs; simpl; [reflexivity|].
  apply StronglySorted_inv in Hs as [Hs Hx].
  rewrite (IH Hs).
  destruct l as [|y l]; simpl; [reflexivity|].
  rewrite comp_key. apply Forall_inv in Hx.
  destruct (Nat.ltb_spec (key x) (key y)); [lia|reflexivity].
Qed.
End Sorting.

Lemma GameTextFontBank_new_sorted version encode_info replace_info passthrus :
  tables_sorted (GameTextFontBank_new version encode_info replace_info passthrus).
Proof.
  split; simpl.
  - apply std_sort_sorted. reflexivity.
  - apply std_sort_sorted. reflexivity.
Qed.

Lemma GameTextFontBank_new_perm version encode_info replace_info passthrus :
  let bank := GameTextFontBank_new version encode_info replace_info passthrus in
  Permutation (m_encode_info bank) encode_info
  /\ Permutation (m_replace_info bank) replace_info
  /\ m_passthrus bank = passthrus.
Proof.
  simpl. split; [|split; [|reflexivity]].
  - apply std_sort_perm.
  - apply std_sort_perm.
Qed.

(** ** Fuel *)

Lemma for_index_fuel {A} (n : nat) (body : nat -> A -> nat * A) :
  (forall i a, i < n -> i < fst (body i a)) ->
  forall fuel1 fuel2 i a,
    n - i <= fuel1 -> n - i <= fuel2 ->
    for_index fuel1 n body i a = for_index fuel2 n body i a.
Proof.
  intros Hprog. induction fuel1 as [|fuel1 IH]; intros fuel2 i a H1 H2.
  - destruct fuel2 as [|fuel2]; simpl; [reflexivity|].
    destruct (Nat.ltb_spec i n); [lia|reflexivity].
  - destruct fuel2 as [|fuel2]; simpl.
    + destruct (Nat.ltb_spec i n); [lia|reflexivity].
    + destruct (Nat.ltb_spec i n) as [Hlt|]; [|reflexivity].
      specialize (Hprog i a Hlt).
      destruct (body i a) as [i' a']. simpl in Hprog.
      apply IH; lia.
Qed.

(** ** The resolvers select the first of the longest matching rules *)


Section Select.
Context {A : Type} (matches : A -> bool) (len : A -> nat).

Lemma select_acc_Some (l : list A) :
  forall best r,
    fold_left (select_step matches len) l best = Some r ->
    ((In r l /\ matches r = true) \/ best = Some r)
    /\ (forall b, best = Some b -> len b <= len r)
    /\ (forall x, In x l -> matches x = true -> len x <= len r).
Proof.
  induction l as [|y l IH]; simpl; intros best r H.
  - split; [now right|]. split; [|intros ? []].
    intros b Hb. rewrite Hb in H. injection H as ->. lia.
  - destruct (IH _ _ H) as (Hin & Hbest & Hall). clear IH H.
    unfold select_step in Hin, Hbest.
    destruct (matches y) eqn:Hy.
    + destruct best as [b|].
      * destruct (Nat.ltb_spec (len b) (len y)) as [Hlt|Hge].
        -- split; [|split].
           ++ left. destruct Hin as [[Hin Hm]|[= <-]]; auto.
           ++ intros b' [= <-]. specialize (Hbest y eq_refl). lia.
           ++ intros x [<-|Hx] Hm; [now apply Hbest|now apply Hall].
        -- split; [|split].
           ++ destruct Hin as [[Hin Hm]|Heq]; [left|right]; auto.
           ++ exact Hbest.
           ++ intros x [<-|Hx] Hm; [|now apply Hall].
              specialize (Hbest b eq_refl). lia.
      * split; [|split].
        -- left. destruct Hin as [[Hin Hm]|[= <-]]; auto.
        -- discriminate.
        -- intros x [<-|Hx] Hm; [now apply Hbest|now apply Hall].
    + split; [|split].
      * destruct Hin as [[Hin Hm]|Heq]; [left|right]; auto.
      * exact Hbest.
      * intros x [<-|Hx] Hm; [congruence|now apply Hall].
Qed.

Lemma select_acc_None (l : list A) :
  forall best,
    fold_left (select_step matches len) l best = None ->
    best = None /\ forall x, In x l -> matches x = false.
Proof.
  induction l as [|y l IH]; simpl; intros best H.
  - split; [exact H|intros ? []].
  - destruct (IH _ H) as [Hbest Hall]. clear IH H.
    unfold select_step in Hbest.
    destruct (matches y) eqn:Hy.
    + destruct best as [b|]; [|discriminate].
      destruct (len b <? len y); discriminate.
    + split; [exact Hbest|]. intros x [<-|Hx]; [exact Hy|now apply Hall].
Qed.

(** The rule selected matches and no matching rule is longer. *)
Lemma select_Some (l : list A) (r : A) :
  select matches len l = Some r ->
  In r l /\ matches r = true
  /\ forall x, In x l -> matches x = true -> len x <= len r.
Proof.
  intros H. destruct (select_acc_Some l None r H) as ([[Hin Hm]|Hn] & _ & Hall);
    [|discriminate].
  auto.
Qed.

Lemma select_None (l : list A) :
  select matches len l = None -> forall x, In x l -> matches x = false.
Proof. intros H. now destruct (select_acc_None l None H). Qed.

(** When the longest matching rule is the only one of its length, it is
    selected from the rules in any order. *)
Lemma select_perm (l l' : list A) :
  Permutation l l' ->
  (forall r x,
      select matches len l = Some r ->
      In x l -> matches x = true -> len r <= len x -> x = r) ->
  select matches len l' = select matches len l.
Proof.
  intros Hperm Huniq.
  destruct (select matches len l) as [r|] eqn:El.
  - destruct (select_Some l r El) as (Hin & Hm & Hmax).
    destruct (select matches len l') as [r'|] eqn:El'.
    + destruct (select_Some l' r' El') as (Hin' & Hm' & Hmax').
      f_equal. apply (Huniq r r' eq_refl).
      * eapply Permutation_in; [symmetry; exact Hperm|exact Hin'].
      * exact Hm'.
      * apply Hmax'; [|exact Hm]. eapply Permutation_in; eassumption.
    + pose proof (select_None l' El' r) as Hn.
      rewrite Hn in Hm; [discriminate|]. eapply Permutation_in; eassumption.
  - destruct (select matches len l') as [r'|] eqn:El'; [|reflexivity].
    destruct (select_Some l' r' El') as (Hin' & Hm' & _).
    pose proof (select_None l El r') as Hn.
    rewrite Hn in Hm'; [discriminate|].
    eapply Permutation_in; [symmetry; exact Hperm|exact Hin'].
Qed.

Lemma unambiguous_spec `{EqDecision A} (l : list A) :
  unambiguous matches len l = true ->
  forall r x,
    select matches len l = Some r ->
    In x l -> matches x = true -> len r <= len x -> x = r.
Proof.
  unfold unambiguous. intros H r x Hr Hx Hm Hlen. rewrite Hr in H.
  rewrite forallb_forall in H. specialize (H x Hx). rewrite Hm in H.
  destruct (Nat.ltb_spec (len x) (len r)); [lia|].
  now apply bool_decide_eq_true in H.
Qed.
End Select.

Lemma fold_left_ext {A B} (f g : A -> B -> A) (l : list B) :
  (forall a x, f a x = g a x) ->
  forall init, fold_left f l init = fold_left g l init.
Proof.
  intros H. induction l as [|x l IH]; intros init; simpl; [reflexivity|].
  now rewrite H, IH.
Qed.

Lemma find_encode_to_utf8_select this in_ :
  find_encode_to_utf8 this in_
  = select (matches_encode_to_utf8 in_) (fun info => length (chars info))
      (m_encode_info this).
Proof.
  apply fold_left_ext. intros best info. unfold select_step, matches_encode_to_utf8.
  destruct (length (bytes info) =? 0); [reflexivity|].
  destruct (bytes_found in_ (bytes info) 0); [|reflexivity].
  destruct best as [b|]; simpl; [|reflexivity].
  destruct (_ <? _); reflexivity.
Qed.

Lemma find_encode_to_game_select this in_ off :
  find_encode_to_game this in_ off
  = select (matches_encode_to_game in_ off) (fun info => length (chars info))
      (m_encode_info this).
Proof.
  apply fold_left_ext. intros best info. unfold select_step, matches_encode_to_game.
  destruct (length (chars info) =? 0); [reflexivity|].
  destruct (chars_found (ptr_add in_ off) (chars info)); [|reflexivity].
  destruct best as [b|]; simpl; [|reflexivity].
  destruct (_ <? _); reflexivity.
Qed.

Lemma find_replace_to_utf8_select this in_ off :
  find_replace_to_utf8 this in_ off
  = select (matches_replace_to_utf8 in_ off) (fun info => length (from info))
      (m_replace_info this).
Proof.
  apply fold_left_ext. intros best info. unfold select_step, matches_replace_to_utf8.
  destruct (empty (from info)); [reflexivity|].
  destruct (size_t_sub_lt _ _ _); [reflexivity|].
  destruct (memcmp_eq _ _ _); reflexivity.
Qed.

Lemma find_replace_to_game_select this in_ off :
  find_replace_to_game this in_ off
  = select (matches_replace_to_game in_ off) (fun info => length (to info))
      (m_replace_info this).
Proof.
  apply fold_left_ext. intros best info. unfold select_step, matches_replace_to_game.
  destruct (empty (to info)); [reflexivity|].
  destruct (size_t_sub_lt _ _ _); [reflexivity|].
  destruct (memcmp_eq _ _ _); reflexivity.
Qed.

(** A resolver returns a rule of its table, with a pattern that is not
    empty and that the comparison has found. *)
Lemma find_encode_to_utf8_Some this in_ r :
  find_encode_to_utf8 this in_ = Some r ->
  In r (m_encode_info this) /\ 0 < length (bytes r) /\ bytes_found in_ (bytes r) 0 = true.
Proof.
  rewrite find_encode_to_utf8_select. intros H.
  apply select_Some in H as (Hin & Hm & _). unfold matches_encode_to_utf8 in Hm.
  apply andb_prop in Hm as [Hlen Hfound].
  destruct (Nat.eqb_spec (length (bytes r)) 0); [discriminate|].
  split_and!; [exact Hin|lia|exact Hfound].
Qed.

Lemma find_encode_to_game_Some this in_ off r :
  find_encode_to_game this in_ off = Some r ->
  In r (m_encode_info this) /\ 0 < length (chars r)
  /\ chars_found (ptr_add in_ off) (chars r) = true.
Proof.
  rewrite find_encode_to_game_select. intros H.
  apply select_Some in H as (Hin & Hm & _). unfold matches_encode_to_game in Hm.
  apply andb_prop in Hm as [Hlen Hfound].
  destruct (Nat.eqb_spec (length (chars r)) 0); [discriminate|].
  split_and!; [exact Hin|lia|exact Hfound].
Qed.

Lemma find_replace_to_utf8_Some this in_ off r :
  find_replace_to_utf8 this in_ off = Some r ->
  In r (m_replace_info this) /\ 0 < length (from r)
  /\ memcmp_eq (ptr_add in_ off) (from r) (length (from r)) = true.
Proof.
  rewrite find_replace_to_utf8_select. intros H.
  apply select_Some in H as (Hin & Hm & _). unfold matches_replace_to_utf8 in Hm.
  apply andb_prop in Hm as [Hm Hfound]. apply andb_prop in Hm as [Hne _].
  destruct (from r); [discriminate|].
  split_and!; [exact Hin|simpl; lia|exact Hfound].
Qed.

Lemma find_replace_to_game_Some this in_ off r :
  find_replace_to_game this in_ off = Some r ->
  In r (m_replace_info this) /\ 0 < length (to r)
  /\ memcmp_eq (ptr_add in_ off) (to r) (length (to r)) = true.
Proof.
  rewrite find_replace_to_game_select. intros H.
  apply select_Some in H as (Hin & Hm & _). unfold matches_replace_to_game in Hm.
  apply andb_prop in Hm as [Hm Hfound]. apply andb_prop in Hm as [Hne _].
  destruct (to r); [discriminate|].
  split_and!; [exact Hin|simpl; lia|exact Hfound].
Qed.

(** Of the rules whose byte pattern matches, [find_encode_to_utf8] returns
    one with the longest text. *)
Lemma find_encode_to_utf8_longest_chars this in_ r :
  find_encode_to_utf8 this in_ = Some r ->
  forall info,
    In info (m_encode_info this) -> 0 < length (bytes info) ->
    bytes_found in_ (bytes info) 0 = true ->
    length (chars info) <= length (chars r).
Proof.
  rewrite find_encode_to_utf8_select. intros H info Hin Hlen Hfound.
  apply select_Some in H as (_ & _ & Hmax). apply Hmax; [exact Hin|].
  unfold matches_encode_to_utf8. rewrite Hfound.
  destruct (Nat.eqb_spec (length (bytes info)) 0); [lia|reflexivity].
Qed.

(** ** The string loops end within their fuel

    Every step of the three appliers and of the escape emitter moves the
    index forward, a matched rule by the length of its pattern, which is
    not empty.  So the fuel the definitions give (the length of the
    string) is never used up before the index reaches the end. *)

Lemma replace_to_utf8_fuel this str_ fuel :
  length str_ <= fuel ->
  for_index fuel (length str_) (replace_to_utf8_body this str_) 0 []
  = replace_to_utf8 this str_.
Proof.
  intros Hf. unfold replace_to_utf8. apply for_index_fuel; [|lia|lia].
  intros i a _. unfold replace_to_utf8_body.
  destruct (find_replace_to_utf8 this str_ i) eqn:E; simpl; [|lia].
  apply find_replace_to_utf8_Some in E. lia.
Qed.

Lemma replace_to_game_fuel this str_ fuel :
  length str_ <= fuel ->
  for_index fuel (length str_) (replace_to_game_body this str_) 0 []
  = replace_to_game this str_.
Proof.
  intros Hf. unfold replace_to_game. apply for_index_fuel; [|lia|lia].
  intros i a _. unfold replace_to_game_body.
  destruct (find_replace_to_game this str_ i) eqn:E; simpl; [|lia].
  apply find_replace_to_game_Some in E. lia.
Qed.

Lemma encode_utf8_to_game_fuel this str_ fuel :
  length str_ <= fuel ->
  for_index fuel (length str_) (encode_utf8_to_game_body this str_) 0 []
  = encode_utf8_to_game this str_.
Proof.
  intros Hf. unfold encode_utf8_to_game. apply for_index_fuel; [|lia|lia].
  intros i a _. unfold encode_utf8_to_game_body.
  destruct (find_encode_to_game this str_ i) eqn:E; simpl; [|lia].
  apply find_encode_to_game_Some in E. lia.
Qed.

Lemma escape_emit_fuel temp fuel :
  length temp <= fuel ->
  for_index fuel (length temp) (escape_body temp) 0 []
  = for_index (length temp) (length temp) (escape_body temp) 0 [].
Proof.
  intros Hf. apply for_index_fuel; [|lia|lia].
  intros i a _. simpl. lia.
Qed.

(** ** The pointer loops end within their fuel *)

Lemma decode_loop_fuel this (fuel1 : nat) :
  forall fuel2 in_ temp,
    length in_ <= fuel1 -> length in_ <= fuel2 ->
    decode_loop fuel1 this in_ temp = decode_loop fuel2 this in_ temp.
Proof.
  induction fuel1 as [|fuel1 IH]; intros fuel2 in_ temp H1 H2.
  - destruct in_; [|simpl in H1; lia]. destruct fuel2; reflexivity.
  - destruct in_ as [|c rest]; [destruct fuel2; reflexivity|].
    destruct fuel2 as [|fuel2]; [simpl in H2; lia|].
    cbn [decode_loop]. destruct (Ascii.eqb (deref (c :: rest)) NUL); [reflexivity|].
    assert (Hstep : forall k temp', 0 < k ->
               decode_loop fuel1 this (ptr_add (c :: rest) k) temp'
               = decode_loop fuel2 this (ptr_add (c :: rest) k) temp').
    { intros k temp' Hk. unfold ptr_add.
      apply IH; rewrite length_skipn; simpl in *; lia. }
    destruct (find_encode_to_utf8 this (c :: rest)) as [remap|].
    + unfold ptr_add. rewrite !skipn_skipn. apply Hstep. lia.
    + destruct (_ || _); apply Hstep; lia.
Qed.

Lemma korean_ascii_run_length (in_ out : list ascii) :
  length (fst (korean_ascii_run in_ out)) <= length in_.
Proof.
  revert out. induction in_ as [|c rest IH]; intros out; simpl; [lia|].
  destruct (_ && _); simpl; [|lia]. specialize (IH (out ++ [c])). lia.
Qed.

Lemma korean_jamo_run_length (n : nat) :
  forall in_ i seq out,
    length in_ <= n ->
    length (fst (fst (korean_jamo_run in_ i seq out))) <= length in_.
Proof.
  induction n as [|n IH]; intros in_ i seq out Hn.
  - destruct in_; [simpl; lia|simpl in Hn; lia].
  - destruct in_ as [|c rest]; [simpl; lia|]. cbn [korean_jamo_run].
    destruct (_ && _); [|simpl; lia].
    destruct (Ascii.eqb c "005").
    + destruct rest as [|d rest']; [simpl; lia|].
      etransitivity; [apply IH; simpl in *; lia|simpl; lia].
    + etransitivity; [apply IH; simpl in *; lia|simpl; lia].
Qed.

Lemma korean_loop_fuel (fuel1 : nat) :
  forall fuel2 in_ out seqs,
    length in_ <= fuel1 -> length in_ <= fuel2 ->
    korean_loop fuel1 in_ out seqs = korean_loop fuel2 in_ out seqs.
Proof.
  induction fuel1 as [|fuel1 IH]; intros fuel2 in_ out seqs H1 H2.
  - destruct in_; [|simpl in H1; lia]. destruct fuel2; reflexivity.
  - destruct in_ as [|c rest]; [destruct fuel2; reflexivity|].
    destruct fuel2 as [|fuel2]; [simpl in H2; lia|].
    cbn [korean_loop]. destruct (Ascii.eqb (deref (c :: rest)) NUL); [reflexivity|].
    destruct (Ascii.eqb (deref (c :: rest)) "003").
    + pose proof (korean_ascii_run_length (ptr_add (c :: rest) 1) out) as Hlen.
      destruct (korean_ascii_run (ptr_add (c :: rest) 1) out) as [in1 out1].
      unfold ptr_add in Hlen. rewrite length_skipn in Hlen.
      simpl in Hlen, H1, H2. apply IH; lia.
    + pose proof (korean_jamo_run_length _ (ptr_add (ptr_add (c :: rest) 1) 1)
                    0%Z 0%Z out (le_n _)) as Hlen.
      destruct (korean_jamo_run (ptr_add (ptr_add (c :: rest) 1) 1) 0%Z 0%Z out)
        as [[in3 seq] out1].
      assert (length (ptr_add (ptr_add (c :: rest) 1) 1) <= length rest) as Hle.
      { unfold ptr_add. rewrite !length_skipn. simpl. lia. }
      cbn [fst] in Hlen. pose proof (Nat.le_trans _ _ _ Hlen Hle) as Hin3.
      simpl in H1, H2. apply IH; lia.
Qed.

(** ** The resolvers on tables in another order *)

(** Two patterns found at one place: the shorter is the start of the
    longer, and patterns of one length are the same. *)
Lemma bytes_found_is_prefix (in_ : list ascii) (b1 : list byte) :
  forall b2 i,
    bytes_found in_ b1 i = true -> bytes_found in_ b2 i = true ->
    length b1 <= length b2 -> is_prefix b1 b2 = true.
Proof.
  induction b1 as [|x b1 IH]; intros b2 i H1 H2 Hlen; [reflexivity|].
  destruct b2 as [|y b2]; [simpl in Hlen; lia|].
  simpl in H1, H2 |- *.
  destruct (Byte.eqb _ x) eqn:Ex; [|discriminate].
  destruct (Byte.eqb _ y) eqn:Ey; [|discriminate].
  apply byte_dec_bl in Ex, Ey. subst x y.
  rewrite bool_decide_eq_true_2 by reflexivity.
  apply (IH b2 (S i)); [assumption|assumption|simpl in Hlen; lia].
Qed.

Lemma memcmp_eq_same (q1 : list ascii) :
  forall p q2,
    memcmp_eq p q1 (length q1) = true -> memcmp_eq p q2 (length q2) = true ->
    length q1 = length q2 -> q1 = q2.
Proof.
  induction q1 as [|c1 q1 IH]; intros p q2 H1 H2 Hlen.
  - destruct q2; [reflexivity|discriminate].
  - destruct q2 as [|c2 q2]; [discriminate|].
    simpl in H1, H2.
    destruct (Ascii.eqb_spec (deref p) c1) as [E1|]; [|discriminate].
    destruct (Ascii.eqb_spec (deref p) c2) as [E2|]; [|discriminate].
    f_equal; [congruence|].
    apply (IH (ptr_add p 1)); [exact H1|exact H2|simpl in Hlen; lia].
Qed.

Lemma rules_distinct_spec this :
  rules_distinct this = true ->
  (forall x r, In x (m_encode_info this) -> In r (m_encode_info this) ->
               is_prefix (bytes x) (bytes r) = true -> x = r)
  /\ (forall x r, In x (m_replace_info this) -> In r (m_replace_info this) ->
                  from x = from r -> x = r)
  /\ (forall x r, In x (m_replace_info this) -> In r (m_replace_info this) ->
                  to x = to r -> x = r).
Proof.
  unfold rules_distinct. intros H. apply andb_prop in H as [He Hr].
  rewrite forallb_forall in He, Hr.
  split; [|split].
  - intros x r Hx Hin Hp. specialize (He x Hx). rewrite forallb_forall in He.
    specialize (He r Hin). rewrite Hp in He. now apply bool_decide_eq_true in He.
  - intros x r Hx Hin Heq. specialize (Hr x Hx). rewrite forallb_forall in Hr.
    specialize (Hr r Hin). apply andb_prop in Hr as [Hr _].
    rewrite bool_decide_eq_true_2 in Hr by exact Heq.
    now apply bool_decide_eq_true in Hr.
  - intros x r Hx Hin Heq. specialize (Hr x Hx). rewrite forallb_forall in Hr.
    specialize (Hr r Hin). apply andb_prop in Hr as [_ Hr].
    rewrite bool_decide_eq_true_2 in Hr by exact Heq.
    now apply bool_decide_eq_true in Hr.
Qed.

Section SameRules.
Variables a b : GameTextFontBank.
Hypothesis Hdistinct : rules_distinct a = true.
Hypothesis Hsame : same_rules a b.

Lemma find_encode_to_utf8_perm (in_ : list ascii) :
  find_encode_to_utf8 b in_ = find_encode_to_utf8 a in_.
Proof.
  destruct Hsame as (_ & _ & Hperm & _).
  destruct (rules_distinct_spec a Hdistinct) as (Hpre & _ & _).
  rewrite !find_encode_to_utf8_select. apply select_perm; [exact Hperm|].
  intros r x Hr Hx Hm Hlen.
  destruct (select_Some _ _ _ _ Hr) as (Hin & Hmr & _).
  unfold matches_encode_to_utf8 in Hm, Hmr.
  apply andb_prop in Hm as [_ Hm]. apply andb_prop in Hmr as [_ Hmr].
  destruct (Nat.le_ge_cases (length (bytes x)) (length (bytes r))) as [Hle|Hge].
  - apply (Hpre x r Hx Hin). now apply (bytes_found_is_prefix in_ _ _ 0).
  - symmetry. apply (Hpre r x Hin Hx). now apply (bytes_found_is_prefix in_ _ _ 0).
Qed.

Lemma find_replace_to_utf8_perm (in_ : list ascii) (off : nat) :
  find_replace_to_utf8 b in_ off = find_replace_to_utf8 a in_ off.
Proof.
  destruct Hsame as (_ & _ & _ & Hperm).
  destruct (rules_distinct_spec a Hdistinct) as (_ & Hfrom & _).
  rewrite !find_replace_to_utf8_select. apply select_perm; [exact Hperm|].
  intros r x Hr Hx Hm Hlen.
  destruct (select_Some _ _ _ _ Hr) as (Hin & Hmr & Hmax).
  specialize (Hmax x Hx Hm). simpl in Hmax.
  unfold matches_replace_to_utf8 in Hm, Hmr.
  apply andb_prop in Hm as [_ Hm]. apply andb_prop in Hmr as [_ Hmr].
  apply (Hfrom x r Hx Hin).
  apply (memcmp_eq_same _ (ptr_add in_ off)); [exact Hm|exact Hmr|lia].
Qed.

Lemma find_replace_to_game_perm (in_ : list ascii) (off : nat) :
  find_replace_to_game b in_ off = find_replace_to_game a in_ off.
Proof.
  destruct Hsame as (_ & _ & _ & Hperm).
  destruct (rules_distinct_spec a Hdistinct) as (_ & _ & Hto).
  rewrite !find_replace_to_game_select. apply select_perm; [exact Hperm|].
  intros r x Hr Hx Hm Hlen.
  destruct (select_Some _ _ _ _ Hr) as (Hin & Hmr & Hmax).
  specialize (Hmax x Hx Hm). simpl in Hmax.
  unfold matches_replace_to_game in Hm, Hmr.
  apply andb_prop in Hm as [_ Hm]. apply andb_prop in Hmr as [_ Hmr].
  apply (Hto x r Hx Hin).
  apply (memcmp_eq_same _ (ptr_add in_ off)); [exact Hm|exact Hmr|lia].
Qed.

Lemma find_encode_to_game_perm (in_ : list ascii) (off : nat) :
  unambiguous (matches_encode_to_game in_ off) (fun info => length (chars info))
    (m_encode_info a) = true ->
  find_encode_to_game b in_ off = find_encode_to_game a in_ off.
Proof.
  intros Hu. destruct Hsame as (_ & _ & Hperm & _).
  rewrite !find_encode_to_game_select. apply select_perm; [exact Hperm|].
  exact (unambiguous_spec _ _ _ Hu).
Qed.

Lemma valid_char_range_perm (c : ascii) : valid_char_range b c = valid_char_range a c.
Proof.
  destruct Hsame as (Hv & Hp & _). unfold valid_char_range. now rewrite Hv, Hp.
Qed.

Lemma for_index_ext {A} (n : nat) (body body' : nat -> A -> nat * A) :
  (forall i acc, i < n -> body i acc = body' i acc) ->
  forall fuel i acc, for_index fuel n body i acc = for_index fuel n body' i acc.
Proof.
  intros H. induction fuel as [|fuel IH]; intros i acc; simpl; [reflexivity|].
  destruct (Nat.ltb_spec i n) as [Hlt|]; [|reflexivity].
  rewrite (H i acc Hlt). destruct (body' i acc). apply IH.
Qed.

Lemma replace_to_utf8_perm (s : list ascii) : replace_to_utf8 b s = replace_to_utf8 a s.
Proof.
  unfold replace_to_utf8. apply for_index_ext. intros i acc _.
  unfold replace_to_utf8_body. now rewrite find_replace_to_utf8_perm.
Qed.

Lemma replace_to_game_perm (s : list ascii) : replace_to_game b s = replace_to_game a s.
Proof.
  unfold replace_to_game. apply for_index_ext. intros i acc _.
  unfold replace_to_game_body. now rewrite find_replace_to_game_perm.
Qed.

Lemma encode_utf8_to_game_perm (s : list ascii) :
  encode_unambiguous a s = true ->
  encode_utf8_to_game b s = encode_utf8_to_game a s.
Proof.
  intros Hu. unfold encode_utf8_to_game. apply for_index_ext. intros i acc Hi.
  unfold encode_utf8_to_game_body. rewrite find_encode_to_game_perm; [reflexivity|].
  unfold encode_unambiguous in Hu. rewrite forallb_forall in Hu.
  apply Hu. apply in_seq. lia.
Qed.

Lemma decode_loop_perm (fuel : nat) :
  forall in_ temp, decode_loop fuel b in_ temp = decode_loop fuel a in_ temp.
Proof.
  induction fuel as [|fuel IH]; intros in_ temp; [reflexivity|].
  cbn [decode_loop]. rewrite find_encode_to_utf8_perm, valid_char_range_perm.
  destruct (Ascii.eqb (deref in_) NUL); [reflexivity|].
  destruct (find_encode_to_utf8 a in_); [apply IH|].
  destruct (_ || _); apply IH.
Qed.

(** The reverse transcoder gives the same text for the rules in any
    order. *)
Lemma convert_game_to_utf8_perm (in_ : list ascii) (korean : bool) (seqs : list Z) :
  convert_game_to_utf8 b in_ korean seqs = convert_game_to_utf8 a in_ korean seqs.
Proof.
  unfold convert_game_to_utf8.
  destruct (if korean then _ else _) as [in1 seqs1].
  now rewrite decode_loop_perm, !replace_to_utf8_perm.
Qed.

(** So does the forward transcoder on a text on which it meets no
    ambiguous choice. *)
Lemma convert_utf8_to_game_perm (s : list ascii) (escape : bool) :
  forward_unambiguous a s escape = true ->
  convert_utf8_to_game b s escape = convert_utf8_to_game a s escape.
Proof.
  unfold forward_unambiguous, convert_utf8_to_game, unescape.
  destruct (if escape then _ else _) as [newstr|e]; [|reflexivity].
  intros Hu. cbn [Result_bind].
  now rewrite replace_to_game_perm, encode_utf8_to_game_perm.
Qed.

Lemma round_trip_perm (s : list ascii) (escape : bool) :
  forward_unambiguous a s escape = true ->
  round_trip b s escape = round_trip a s escape.
Proof.
  intros Hu. unfold round_trip. rewrite (convert_utf8_to_game_perm s escape Hu).
  destruct (convert_utf8_to_game a s escape) as [game|e]; [|reflexivity].
  cbn [Result_bind]. now rewrite convert_game_to_utf8_perm.
Qed.
End SameRules.

Lemma same_rules_refl (a : GameTextFontBank) : same_rules a a.
Proof. repeat split; reflexivity. Qed.

(** The bank that the constructor builds from given tables holds the rules
    of the model's bank, whatever the order of its tables. *)
Lemma same_rules_GameTextFontBank_new version encode_info replace_info passthrus
    (bank : GameTextFontBank) :
  m_version bank = version -> m_passthrus bank = passthrus ->
  Permutation (m_encode_info bank) encode_info ->
  Permutation (m_replace_info bank) replace_info ->
  same_rules (GameTextFontBank_new version encode_info replace_info passthrus) bank.
Proof.
  intros Hv Hp He Hr.
  destruct (GameTextFontBank_new_perm version encode_info replace_info passthrus)
    as (He' & Hr' & Hp').
  repeat split; simpl; try congruence.
  - now rewrite He', He.
  - now rewrite Hr', Hr.
Qed.

Lemma shipped_rules_distinct :
  rules_distinct g_font_bank_jak1_v1 = true
  /\ rules_distinct g_font_bank_jak1_v2 = true
  /\ rules_distinct g_font_bank_jak2 = true.
Proof. split_and!; vm_compute; reflexivity. Qed.

(** ** The forward transcoder: escapes *)

Lemma convert_utf8_to_game_escape this str_ :
  convert_utf8_to_game this str_ true
  = Result_bind (unescape str_)
      (fun newstr => convert_utf8_to_game this newstr false).
Proof.
  unfold convert_utf8_to_game, unescape. simpl.
  destruct (unescape_loop _ _ _ _); reflexivity.
Qed.

(** After a double quote the loop goes on two characters further: the
    character after the quote is left out, whatever it is. *)
Lemma unescape_from_quote (c : ascii) (rest newstr : list ascii) :
  unescape_from (DQUOTE :: c :: rest) newstr = unescape_from rest (newstr ++ [DQUOTE]).
Proof. reflexivity. Qed.

(** In whatever order the tables of the first bank are, the text quote, A,
    B gives the two bytes of quote and B with escaping, and all three
    characters without. *)
Lemma convert_utf8_to_game_quote_any_order (bank : GameTextFontBank) :
  same_rules g_font_bank_jak1_v1 bank ->
  convert_utf8_to_game bank (DQUOTE :: str "AB") true = Ok (DQUOTE :: str "B")
  /\ convert_utf8_to_game bank (DQUOTE :: str "AB") false = Ok (DQUOTE :: str "AB").
Proof.
  intros Hs. destruct shipped_rules_distinct as (Hd & _ & _).
  rewrite (convert_utf8_to_game_perm _ _ Hd Hs _ true) by (vm_compute; reflexivity).
  rewrite (convert_utf8_to_game_perm _ _ Hd Hs _ false) by (vm_compute; reflexivity).
  vm_compute. split; reflexivity.
Qed.

(** C1 (defect).  Claim: with escaping enabled a double quote is copied and
    every character is consumed by exactly one action, so the character
    after a double quote is never dropped.  The code copies the quote and
    then adds one to the index before the loop's own increment: the
    character after the quote is skipped.  For every bank and every
    character [c], the text quote, [c], B is converted as the text quote, B
    is without escaping; in the first bank the text quote, A, B gives the
    two bytes of quote and B. *)
Theorem convert_utf8_to_game_quote_skips_next :
  (forall (this : GameTextFontBank) (c : ascii),
      convert_utf8_to_game this (DQUOTE :: c :: str "B") true
      = convert_utf8_to_game this (DQUOTE :: str "B") false)
  /\ convert_utf8_to_game g_font_bank_jak1_v1 (DQUOTE :: str "AB") true
     = Ok (DQUOTE :: str "B")
  /\ convert_utf8_to_game g_font_bank_jak1_v1 (DQUOTE :: str "AB") false
     = Ok (DQUOTE :: str "AB").
Proof.
  split.
  - intros this c. rewrite convert_utf8_to_game_escape. reflexivity.
  - apply convert_utf8_to_game_quote_any_order, same_rules_refl.
Qed.

(** C7.  The text [a\c41b] converted with escaping gives the bytes of the
    three characters a, 0x41, b converted without, whatever the bank. *)
Theorem convert_utf8_to_game_hex_escape (this : GameTextFontBank) :
  convert_utf8_to_game this (str "a\c41b") true
  = convert_utf8_to_game this ["a"%char; ascii_of_nat 65; "b"%char] false.
Proof.
  rewrite convert_utf8_to_game_escape. reflexivity.
Qed.

Example hex_escape_on_jak2 :
  convert_utf8_to_game g_font_bank_jak2 (str "a\c41b") true = Ok (str "aAb").
Proof. vm_compute. reflexivity. Qed.

(** ** The escape loop in terms of the text that is left *)

Lemma string_at_app (front rest : list ascii) (k : nat) :
  string_at (front ++ rest) (length front + k) = string_at rest k.
Proof.
  unfold string_at. rewrite nth_error_app2 by lia.
  replace (length front + k - length front) with k by lia. reflexivity.
Qed.

Lemma unescape_loop_end fuel str_ i newstr :
  length str_ <= i -> unescape_loop fuel str_ i newstr = Ok newstr.
Proof.
  intros H. destruct fuel; simpl; [reflexivity|].
  destruct (Nat.ltb_spec i (length str_)); [lia|reflexivity].
Qed.

Lemma unescape_loop_from fuel front rest newstr :
  length rest <= fuel ->
  unescape_loop fuel (front ++ rest) (length front) newstr = unescape_from rest newstr.
Proof.
  revert front rest newstr.
  induction fuel as [|fuel IH]; intros front rest newstr Hfuel.
  - destruct rest; simpl in *; [reflexivity|lia].
  - cbn [unescape_loop]. rewrite length_app.
    destruct rest as [|c rest1].
    + simpl. destruct (Nat.ltb_spec (length front) (length front + 0)); [lia|reflexivity].
    + destruct (Nat.ltb_spec (length front) (length front + length (c :: rest1)))
        as [_|]; [|simpl in *; lia].
      pose proof (string_at_app front (c :: rest1) 0) as E0.
      rewrite Nat.add_0_r in E0. rewrite E0. cbn [string_at nth_error Result_bind].
      cbn [unescape_from].
      destruct (Ascii.eqb c DQUOTE).
      { destruct rest1 as [|x rest2].
        - apply unescape_loop_end. rewrite length_app. simpl. lia.
        - replace (front ++ c :: x :: rest2) with ((front ++ [c; x]) ++ rest2)
            by (rewrite <- app_assoc; reflexivity).
          replace (length front + 1 + 1) with (length (front ++ [c; x]))
            by (rewrite length_app; simpl; lia).
          apply IH. simpl in Hfuel. lia. }
      destruct (Ascii.eqb c BACKSLASH).
      { destruct rest1 as [|p rest2].
        - simpl. destruct (Nat.leb_spec (length front + 1) (length front + 1)); [reflexivity|lia].
        - destruct (Nat.leb_spec (length front + length (c :: p :: rest2)) (length front + 1));
            [simpl in *; lia|].
          rewrite (string_at_app front (c :: p :: rest2) 1).
          cbn [string_at nth_error Result_bind].
          destruct (Ascii.eqb p "c").
          + destruct rest2 as [|first [|second rest4]].
            * destruct (Nat.leb_spec (length front + length [c; p]) (length front + 3));
                [reflexivity|simpl in *; lia].
            * destruct (Nat.leb_spec (length front + length [c; p; first]) (length front + 3));
                [reflexivity|simpl in *; lia].
            * destruct (Nat.leb_spec (length front + length (c :: p :: first :: second :: rest4))
                          (length front + 3)); [simpl in *; lia|].
              rewrite (string_at_app front (c :: p :: first :: second :: rest4) 2).
              rewrite (string_at_app front (c :: p :: first :: second :: rest4) 3).
              cbn [string_at nth_error Result_bind].
              destruct (negb (hex_char first) || negb (hex_char second)); [reflexivity|].
              destruct (stoul16 [first; second]) as [[value end_]|e];
                cbn [Result_bind]; [|reflexivity].
              destruct (negb (end_ =? 2)); [reflexivity|].
              destruct (negb (value <? 256)%Z); [reflexivity|].
              replace (front ++ c :: p :: first :: second :: rest4)
                with ((front ++ [c; p; first; second]) ++ rest4)
                by (rewrite <- app_assoc; reflexivity).
              replace (length front + 3 + 1) with (length (front ++ [c; p; first; second]))
                by (rewrite length_app; simpl; lia).
              apply IH. simpl in Hfuel. lia.
          + destruct (Ascii.eqb p DQUOTE || Ascii.eqb p BACKSLASH); [|reflexivity].
            replace (front ++ c :: p :: rest2) with ((front ++ [c; p]) ++ rest2)
              by (rewrite <- app_assoc; reflexivity).
            replace (length front + 1 + 1) with (length (front ++ [c; p]))
              by (rewrite length_app; simpl; lia).
            apply IH. simpl in Hfuel. lia. }
      replace (front ++ c :: rest1) with ((front ++ [c]) ++ rest1)
        by (rewrite <- app_assoc; reflexivity).
      replace (length front + 1) with (length (front ++ [c]))
        by (rewrite length_app; simpl; lia).
      apply IH. simpl in Hfuel. lia.
Qed.

(** The escape stage is [unescape_from], and it does not depend on the fuel
    once that covers the string. *)
Lemma unescape_unescape_from str_ : unescape str_ = unescape_from str_ [].
Proof. apply (unescape_loop_from (length str_) [] str_ []). lia. Qed.

Lemma unescape_loop_fuel fuel str_ :
  length str_ <= fuel -> unescape_loop fuel str_ 0 [] = unescape str_.
Proof.
  intros H. rewrite unescape_unescape_from.
  now apply (unescape_loop_from fuel [] str_ []).
Qed.

(** ** Errors of the escape stage *)

Lemma hex_char_value (a : ascii) :
  hex_char a = true ->
  exists d, hex_digit_value a = Some d /\ (0 <= d < 16)%Z.
Proof.
  destruct a as [[] [] [] [] [] [] [] []]; intros H; vm_compute in H;
    try discriminate H; eexists; (split; [vm_compute; reflexivity|lia]).
Qed.

Lemma stoul16_two_digits (first second : ascii) :
  hex_char first = true -> hex_char second = true ->
  exists value, stoul16 [first; second] = Ok (value, 2) /\ (0 <= value < 256)%Z.
Proof.
  intros H1 H2.
  destruct (hex_char_value first H1) as (d1 & E1 & B1).
  destruct (hex_char_value second H2) as (d2 & E2 & B2).
  exists (d1 * 16 + d2)%Z. split; [|lia].
  unfold stoul16. simpl. rewrite E1, E2. reflexivity.
Qed.

(** A well-escaped text is consumed whole, whatever follows it. *)
Lemma unescape_from_well_escaped (n : nat) :
  forall pre, length pre <= n -> well_escaped pre = true ->
  forall tail newstr,
  exists newstr', unescape_from (pre ++ tail) newstr = unescape_from tail newstr'.
Proof.
  induction n as [|n IH]; intros pre Hlen Hwe tail newstr.
  - destruct pre; [|simpl in Hlen; lia]. now exists newstr.
  - destruct pre as [|c rest]; [now exists newstr|].
    cbn [well_escaped] in Hwe. cbn [app unescape_from].
    destruct (Ascii.eqb c DQUOTE); [discriminate|].
    destruct (Ascii.eqb c BACKSLASH).
    + destruct rest as [|p rest']; [discriminate|]. cbn [app].
      destruct (Ascii.eqb p "c").
      * destruct rest' as [|first [|second rest'']]; try discriminate. cbn [app].
        apply andb_prop in Hwe as [Hhex Hwe]. apply andb_prop in Hhex as [H1 H2].
        rewrite H1, H2. cbn [negb orb].
        destruct (stoul16_two_digits first second H1 H2) as (value & -> & Hv).
        cbn [Nat.eqb negb].
        destruct (Z.ltb_spec value 256); [|lia]. cbn [negb].
        apply IH; [simpl in Hlen; lia|exact Hwe].
      * destruct (Ascii.eqb p DQUOTE || Ascii.eqb p BACKSLASH); [|discriminate].
        apply IH; [simpl in Hlen; lia|exact Hwe].
    + apply IH; [simpl in Hlen; lia|exact Hwe].
Qed.

(** At a rejected escape the stage stops with its error, whatever it has
    built and whatever follows. *)
Lemma unescape_from_escape_error (bad : list ascii) (e : exception) :
  escape_error bad = Some e ->
  forall newstr, unescape_from bad newstr = Err e.
Proof.
  intros H newstr. destruct bad as [|b rest]; [discriminate|].
  cbn [escape_error] in H. cbn [unescape_from].
  destruct (Ascii.eqb_spec b BACKSLASH) as [->|]; [|discriminate].
  change (Ascii.eqb BACKSLASH DQUOTE) with false. cbn iota.
  destruct rest as [|p rest']; [now injection H as <-|].
  destruct (Ascii.eqb p "c").
  - destruct rest' as [|first [|second rest'']]; try (now injection H as <-).
    destruct (hex_char first), (hex_char second); simpl in *;
      try discriminate; now injection H as <-.
  - destruct (Ascii.eqb p DQUOTE || Ascii.eqb p BACKSLASH); [discriminate|].
    now injection H as <-.
Qed.

(** X6: with escaping enabled [convert_utf8_to_game] throws, and
    returns nothing, when the scan comes to a backslash that starts a
    rejected escape: followed by a character other than c, double quote and
    backslash ([unknown_string_escape_code]), last in the string or starting
    a [\c] with fewer than two characters after it
    ([incomplete_string_escape_code]), or starting a [\c] whose next two
    characters are not both hexadecimal digits
    ([invalid_character_escape_hex_number]).  The scan comes to it when the
    text before is well escaped; what follows the escape is not looked at. *)
Theorem convert_utf8_to_game_escape_error
    (this : GameTextFontBank) (pre bad : list ascii) (e : exception) :
  well_escaped pre = true ->
  escape_error bad = Some e ->
  convert_utf8_to_game this (pre ++ bad) true = Err e.
Proof.
  intros Hpre Hbad.
  rewrite convert_utf8_to_game_escape, unescape_unescape_from.
  destruct (unescape_from_well_escaped (length pre) pre (le_n _) Hpre bad [])
    as [newstr' ->].
  rewrite (unescape_from_escape_error bad e Hbad). reflexivity.
Qed.

Lemma convert_utf8_to_game_escape_error_witness :
  convert_utf8_to_game g_font_bank_jak2 (str "A\\B\c41" ++ str "\q and more") true
  = Err (unknown_string_escape_code "q")
  /\ convert_utf8_to_game g_font_bank_jak2 (str "A" ++ str "\c4") true
     = Err incomplete_string_escape_code
  /\ convert_utf8_to_game g_font_bank_jak2 (str "A" ++ str "\c4g.") true
     = Err invalid_character_escape_hex_number.
Proof.
  split; [|split].
  - apply (convert_utf8_to_game_escape_error g_font_bank_jak2
             (str "A\\B\c41") (str "\q and more")); reflexivity.
  - apply (convert_utf8_to_game_escape_error g_font_bank_jak2
             (str "A") (str "\c4")); reflexivity.
  - apply (convert_utf8_to_game_escape_error g_font_bank_jak2
             (str "A") (str "\c4g.")); reflexivity.
Defined.

Lemma convert_utf8_to_game_escaped_backslash_any_order (bank : GameTextFontBank) :
  same_rules g_font_bank_jak1_v1 bank ->
  convert_utf8_to_game bank [BACKSLASH; BACKSLASH; "n"%char] true
  = Ok [BACKSLASH; "n"%char].
Proof.
  intros Hs. destruct shipped_rules_distinct as (Hd & _ & _).
  rewrite (convert_utf8_to_game_perm _ _ Hd Hs) by (vm_compute; reflexivity).
  vm_compute. reflexivity.
Qed.

(** A backslash that is itself escaped starts no escape: the text
    backslash, backslash, n holds a backslash followed by the letter n and
    is converted without error. *)
Lemma convert_utf8_to_game_escaped_backslash_no_error :
  backslash_then "n" [BACKSLASH; BACKSLASH; "n"%char]
  /\ convert_utf8_to_game g_font_bank_jak1_v1 [BACKSLASH; BACKSLASH; "n"%char] true
     = Ok [BACKSLASH; "n"%char].
Proof.
  split.
  - exists [BACKSLASH], []. reflexivity.
  - apply convert_utf8_to_game_escaped_backslash_any_order, same_rules_refl.
Qed.

(** In whatever order the tables of the first bank are, an escape that
    stands right after a double quote is not looked at: the backslash is
    the character that the quote skips. *)
Lemma quote_hides_escape_any_order (bank : GameTextFontBank) :
  same_rules g_font_bank_jak1_v1 bank ->
  convert_utf8_to_game bank (DQUOTE :: BACKSLASH :: str "qB") true
  = Ok (DQUOTE :: str "qB")
  /\ convert_utf8_to_game bank [DQUOTE; BACKSLASH] true = Ok [DQUOTE]
  /\ convert_utf8_to_game bank (DQUOTE :: BACKSLASH :: str "cZZ") true
     = Ok (DQUOTE :: str "cZZ").
Proof.
  intros Hs. destruct shipped_rules_distinct as (Hd & _ & _).
  rewrite !(convert_utf8_to_game_perm _ _ Hd Hs _ true) by (vm_compute; reflexivity).
  vm_compute. split_and!; reflexivity.
Qed.

(** C6 (defect).  Claim: with escaping enabled the conversion raises an
    error whenever the input holds a backslash followed by a letter other
    than c, double quote and backslash, a backslash or [\c] cut off by the
    end of the string, or a [\c] followed by two characters that are not
    hexadecimal digits.  The code raises these errors for an escape that
    the loop arrives at, but after a double quote the loop adds one to the
    index before its own increment (the defect of C1), so a backslash right
    after a double quote is never examined: for every bank the text quote,
    backslash, q, B is converted as the text quote, q, B without escaping,
    with no error, and so are a backslash and a [\cZZ] after a quote; the
    same three escapes without the quote in front are rejected.  In the
    first bank the results are quote, q, B, then quote, then quote, c, Z,
    Z. *)
Theorem convert_utf8_to_game_escape_after_quote :
  backslash_then "q" (DQUOTE :: BACKSLASH :: str "qB")
  /\ (forall this : GameTextFontBank,
        convert_utf8_to_game this (DQUOTE :: BACKSLASH :: str "qB") true
        = Ok (encode_utf8_to_game this (replace_to_game this (DQUOTE :: str "qB")))
        /\ convert_utf8_to_game this [DQUOTE; BACKSLASH] true
           = Ok (encode_utf8_to_game this (replace_to_game this [DQUOTE]))
        /\ convert_utf8_to_game this (DQUOTE :: BACKSLASH :: str "cZZ") true
           = Ok (encode_utf8_to_game this (replace_to_game this (DQUOTE :: str "cZZ")))
        /\ convert_utf8_to_game this (BACKSLASH :: str "qB") true
           = Err (unknown_string_escape_code "q")
        /\ convert_utf8_to_game this [BACKSLASH] true = Err incomplete_string_escape_code
        /\ convert_utf8_to_game this (BACKSLASH :: str "cZZ") true
           = Err invalid_character_escape_hex_number)
  /\ convert_utf8_to_game g_font_bank_jak1_v1 (DQUOTE :: BACKSLASH :: str "qB") true
     = Ok (DQUOTE :: str "qB")
  /\ convert_utf8_to_game g_font_bank_jak1_v1 [DQUOTE; BACKSLASH] true = Ok [DQUOTE]
  /\ convert_utf8_to_game g_font_bank_jak1_v1 (DQUOTE :: BACKSLASH :: str "cZZ") true
     = Ok (DQUOTE :: str "cZZ").
Proof.
  split; [exists [DQUOTE], (str "B"); reflexivity|].
  split.
  - intros this. rewrite !convert_utf8_to_game_escape. split_and!; reflexivity.
  - apply quote_hides_escape_any_order, same_rules_refl.
Qed.

(** ** The resolvers on overlapping rules *)

(** The order of the two rules of [overlap_bank] is settled by their
    lengths. *)
Lemma overlap_bank_order (bank : GameTextFontBank) :
  same_rules overlap_bank bank -> tables_sorted bank ->
  m_encode_info bank = [EI "q" [x01; x02]; EI "xyz" [x01]].
Proof.
  intros (_ & _ & Hperm & _) [Hsorted _].
  change (m_encode_info overlap_bank)
    with [EI "q" [x01; x02]; EI "xyz" [x01]] in Hperm.
  apply Permutation_length_2_inv in Hperm as [E|E]; [exact E|].
  rewrite E in Hsorted. unfold longest_first in Hsorted.
  apply StronglySorted_inv in Hsorted as [_ H]. apply Forall_inv in H.
  simpl in H. lia.
Qed.

Lemma find_encode_to_utf8_overlap_any_order (bank : GameTextFontBank) :
  same_rules overlap_bank bank -> tables_sorted bank ->
  find_encode_to_utf8 bank ["001"; "002"]%char = Some (EI "xyz" [x01]).
Proof.
  intros Hs Hsorted. unfold find_encode_to_utf8.
  rewrite (overlap_bank_order bank Hs Hsorted). reflexivity.
Qed.

(** C3 (defect).  Claim: [find_encode_to_utf8] returns a matching rule whose
    byte pattern is the longest among the matching rules.  The code keeps a
    later match when its text is longer ([info.chars.length()]), not its
    byte pattern.  In [overlap_bank] both rules match the bytes 1, 2; the
    rule returned has the one-byte pattern and the rule with the two-byte
    pattern is passed over. *)
Theorem find_encode_to_utf8_prefers_longer_chars :
  let in_ := ["001"; "002"]%char in
  let short := EI "xyz" [x01] in
  let long := EI "q" [x01; x02] in
  m_encode_info overlap_bank = [long; short]
  /\ bytes_found in_ (bytes long) 0 = true
  /\ bytes_found in_ (bytes short) 0 = true
  /\ find_encode_to_utf8 overlap_bank in_ = Some short
  /\ length (bytes short) < length (bytes long).
Proof. vm_compute. repeat split; lia. Qed.

Lemma find_encode_to_game_short_input_any_order (bank : GameTextFontBank) :
  same_rules g_font_bank_jak1_v1 bank ->
  find_encode_to_game bank (str "<") 0 = Some (EI "<TIL>" [x14])
  /\ convert_utf8_to_game bank (str "<") false = Ok ["020"%char]
  /\ find_replace_to_game bank (str "<PAD_") 0 = None.
Proof.
  intros Hs. destruct shipped_rules_distinct as (Hd & _ & _).
  rewrite (find_encode_to_game_perm _ _ Hs) by (vm_compute; reflexivity).
  rewrite (convert_utf8_to_game_perm _ _ Hd Hs) by (vm_compute; reflexivity).
  rewrite (find_replace_to_game_perm _ _ Hd Hs).
  vm_compute. repeat split.
Qed.

(** C4 (defect).  Claim: [find_encode_to_game] returns no rule whose text
    runs past the end of the input.  The comparison loop stops at the end of
    the input with [found] still set, so a rule matches as soon as the input
    ends inside its text.  For the one-character input [<] the first bank
    returns the rule of the five characters [<TIL>], and the forward
    transcoder writes its byte 0x14.  The replace resolver, which checks
    the length left beforehand, finds nothing for the start of a longer
    display text. *)
Theorem find_encode_to_game_past_end :
  find_encode_to_game g_font_bank_jak1_v1 (str "<") 0 = Some (EI "<TIL>" [x14])
  /\ length (str "<") < 0 + length (chars (EI "<TIL>" [x14]))
  /\ convert_utf8_to_game g_font_bank_jak1_v1 (str "<") false = Ok ["020"%char]
  /\ find_replace_to_game g_font_bank_jak1_v1 (str "<PAD_") 0 = None.
Proof.
  destruct (find_encode_to_game_short_input_any_order _ (same_rules_refl _))
    as (H1 & H2 & H3).
  split; [exact H1|]. split; [vm_compute; lia|]. split; [exact H2|exact H3].
Qed.

(** ** The validity boundary *)




(** ** The end of the input of the reverse transcoder *)

Lemma before_nul_idem (in_ : list ascii) : before_nul (before_nul in_) = before_nul in_.
Proof.
  induction in_ as [|c rest IH]; simpl; [reflexivity|].
  destruct (Ascii.eqb c NUL) eqn:E; simpl; [reflexivity|].
  now rewrite E, IH.
Qed.

Lemma deref_before_nul (in_ : list ascii) : deref (before_nul in_) = deref in_.
Proof.
  destruct in_ as [|c rest]; simpl; [reflexivity|].
  destruct (Ascii.eqb_spec c NUL) as [->|]; reflexivity.
Qed.

Lemma before_nul_nil (in_ : list ascii) :
  Ascii.eqb (deref in_) NUL = true <-> before_nul in_ = [].
Proof.
  destruct in_ as [|c rest]; simpl; [now split|].
  destruct (Ascii.eqb c NUL); split; intros; congruence.
Qed.

(** Below the first zero byte a buffer and its text agree; at the first zero
    byte both read 0. *)
Lemma ptr_index_before_nul (in_ : list ascii) (i : nat) :
  i <= length (before_nul in_) ->
  ptr_index (before_nul in_) i = ptr_index in_ i
  /\ (i = length (before_nul in_) -> ptr_index in_ i = NUL).
Proof.
  revert i. induction in_ as [|c rest IH]; intros i Hi.
  - destruct i; simpl; auto.
  - simpl in *. destruct (Ascii.eqb_spec c NUL) as [->|Hc].
    + simpl in Hi. assert (i = 0) as -> by lia. auto.
    + destruct i as [|i]; simpl; [split; [reflexivity|discriminate]|].
      simpl in Hi. destruct (IH i) as [E1 E2]; [lia|].
      split; [exact E1|]. intros [= E]. now apply E2.
Qed.

Lemma skipn_before_nul (in_ : list ascii) (k : nat) :
  k <= length (before_nul in_) ->
  before_nul (skipn k in_) = skipn k (before_nul in_).
Proof.
  revert k. induction in_ as [|c rest IH]; intros k Hk.
  - now destruct k.
  - destruct k as [|k]; [reflexivity|].
    simpl in *. destruct (Ascii.eqb c NUL); simpl in *; [lia|].
    apply IH. lia.
Qed.

Section WithoutNul.
Variable this : GameTextFontBank.
Hypothesis Hrules : rules_without_nul this.

(** A pattern without a zero byte is compared with bytes of the text
    only, and fits in it when it matches. *)
Lemma bytes_found_before_nul (in_ : list ascii) (bs : list byte) (i : nat) :
  ~ In x00 bs -> i <= length (before_nul in_) ->
  bytes_found (before_nul in_) bs i = bytes_found in_ bs i
  /\ (bytes_found in_ bs i = true -> i + length bs <= length (before_nul in_)).
Proof.
  revert i. induction bs as [|b bs IH]; intros i Hnz Hi; simpl.
  - split; [reflexivity|lia].
  - destruct (ptr_index_before_nul in_ i Hi) as [E1 E2]. rewrite E1.
    destruct (Byte.eqb (byte_of_ascii (ptr_index in_ i)) b) eqn:Eb;
      [|split; [reflexivity|discriminate]].
    assert (i < length (before_nul in_)) as Hlt.
    { destruct (Nat.eq_dec i (length (before_nul in_))) as [Heq|]; [|lia].
      rewrite (E2 Heq) in Eb. apply Byte.byte_dec_bl in Eb.
      exfalso. apply Hnz. left. now rewrite <- Eb. }
    destruct (IH (S i)) as [E3 E4]; [intros H; apply Hnz; now right|lia|].
    split; [exact E3|]. intros H. specialize (E4 H). lia.
Qed.

Lemma fold_left_ext_in {A B} (f g : A -> B -> A) (l : list B) :
  (forall a x, In x l -> f a x = g a x) ->
  forall init, fold_left f l init = fold_left g l init.
Proof.
  induction l as [|x l IH]; intros H init; simpl; [reflexivity|].
  rewrite H by now left. apply IH. intros a y Hy. apply H. now right.
Qed.

Lemma find_encode_to_utf8_before_nul (in_ : list ascii) :
  find_encode_to_utf8 this (before_nul in_) = find_encode_to_utf8 this in_.
Proof.
  unfold find_encode_to_utf8. apply fold_left_ext_in.
  intros best info Hin.
  destruct (length (bytes info) =? 0); [reflexivity|].
  unfold rules_without_nul in Hrules. rewrite List.Forall_forall in Hrules.
  destruct (bytes_found_before_nul in_ (bytes info) 0 (Hrules info Hin)) as [-> _];
    [lia|reflexivity].
Qed.

(** The first loop reads the text only, and its fuel covers it. *)
Lemma decode_loop_before_nul (fuel1 : nat) :
  forall fuel2 in1 in2 temp,
    before_nul in1 = before_nul in2 ->
    length (before_nul in1) <= fuel1 -> length (before_nul in1) <= fuel2 ->
    decode_loop fuel1 this in1 temp = decode_loop fuel2 this in2 temp.
Proof.
  induction fuel1 as [|fuel1 IH]; intros fuel2 in1 in2 temp Heq H1 H2.
  - assert (before_nul in1 = []) as E1 by (destruct (before_nul in1); simpl in *; [easy|lia]).
    assert (before_nul in2 = []) as E2 by congruence.
    apply before_nul_nil in E2. simpl.
    destruct fuel2; simpl; [reflexivity|]. now rewrite E2.
  - cbn [decode_loop].
    destruct (Ascii.eqb (deref in1) NUL) eqn:E1.
    + assert (Ascii.eqb (deref in2) NUL = true) as E2.
      { apply before_nul_nil. rewrite <- Heq. now apply before_nul_nil. }
      destruct fuel2; simpl; [reflexivity|]. now rewrite E2.
    + assert (Ascii.eqb (deref in2) NUL = false) as E2.
      { rewrite <- deref_before_nul, <- Heq, deref_before_nul. exact E1. }
      assert (0 < length (before_nul in1)) as Hpos.
      { destruct (before_nul in1) eqn:E; simpl; [|lia].
        apply before_nul_nil in E. congruence. }
      destruct fuel2 as [|fuel2]; [lia|]. cbn [decode_loop]. rewrite E2.
      assert (deref in2 = deref in1) as ->
          by (rewrite <- deref_before_nul, <- Heq, deref_before_nul; reflexivity).
      assert (find_encode_to_utf8 this in2 = find_encode_to_utf8 this in1) as ->
          by (rewrite <- find_encode_to_utf8_before_nul, <- Heq;
              apply find_encode_to_utf8_before_nul).
      assert (Hstep : forall k temp', 0 < k -> k <= length (before_nul in1) ->
                 decode_loop fuel1 this (ptr_add in1 k) temp'
                 = decode_loop fuel2 this (ptr_add in2 k) temp').
      { intros k temp' Hk Hle. unfold ptr_add. apply IH.
        - rewrite !skipn_before_nul by (rewrite <- ?Heq; lia). now rewrite Heq.
        - rewrite skipn_before_nul, length_skipn by lia. lia.
        - rewrite skipn_before_nul, length_skipn by lia. lia. }
      destruct (find_encode_to_utf8 this in1) as [remap|] eqn:Efind.
      * apply find_encode_to_utf8_Some in Efind as (Hin & Hlen & Hfound).
        unfold rules_without_nul in Hrules. rewrite List.Forall_forall in Hrules.
        destruct (bytes_found_before_nul in1 (bytes remap) 0 (Hrules remap Hin))
          as [_ Hfit]; [lia|]. specialize (Hfit Hfound).
        unfold ptr_add. rewrite !skipn_skipn.
        apply (Hstep (1 + (length (bytes remap) - 1))); lia.
      * destruct (_ || _); apply Hstep; lia.
Qed.
End WithoutNul.

(** Without the Korean pre-pass the reverse transcoder reads the bytes
    before the first zero byte and nothing else, for a bank whose rules hold
    no zero byte. *)
Lemma convert_game_to_utf8_before_nul this in_ seqs :
  rules_without_nul this ->
  convert_game_to_utf8 this in_ false seqs
  = convert_game_to_utf8 this (before_nul in_) false seqs.
Proof.
  intros Hrules. unfold convert_game_to_utf8.
  assert (length (before_nul in_) <= length in_) as Hle.
  { clear. induction in_ as [|c rest IH]; simpl; [lia|].
    destruct (Ascii.eqb c NUL); simpl; lia. }
  rewrite (decode_loop_before_nul this Hrules (length in_) (length (before_nul in_))
             in_ (before_nul in_) []); [reflexivity| |exact Hle|lia].
  now rewrite before_nul_idem.
Qed.

(** X11: without the Korean pre-pass, for a bank whose rules hold no zero
    byte, which the three shipped banks are, [convert_game_to_utf8] gives
    the same result on two buffers that hold the same bytes before their
    first zero byte: what lies behind the terminator is not read. *)
Lemma convert_game_to_utf8_same_text this in1 in2 seqs :
  rules_without_nul this ->
  before_nul in1 = before_nul in2 ->
  convert_game_to_utf8 this in1 false seqs = convert_game_to_utf8 this in2 false seqs.
Proof.
  intros Hrules Heq.
  rewrite (convert_game_to_utf8_before_nul this in1), (convert_game_to_utf8_before_nul this in2)
    by assumption.
  now rewrite Heq.
Qed.

(** An input that starts with a zero byte gives the empty string, with or
    without the pre-pass, and leaves [seqs] as it is. *)
Lemma convert_game_to_utf8_empty this in_ korean seqs :
  Ascii.eqb (deref in_) NUL = true ->
  convert_game_to_utf8 this in_ korean seqs = ([], seqs).
Proof.
  intros H. unfold convert_game_to_utf8, convert_korean_text_from_game.
  destruct korean.
  - destruct in_ as [|c rest]; simpl in *; [reflexivity|]. rewrite H. reflexivity.
  - destruct in_ as [|c rest]; simpl in *; [reflexivity|]. rewrite H. reflexivity.
Qed.

(** The rules of the shipped banks hold no zero byte. *)
Lemma shipped_rules_without_nul :
  rules_without_nul g_font_bank_jak1_v1
  /\ rules_without_nul g_font_bank_jak1_v2
  /\ rules_without_nul g_font_bank_jak2.
Proof.
  assert (H : forall bank,
             forallb (fun info => negb (existsb (Byte.eqb x00) (bytes info)))
               (m_encode_info bank) = true ->
             rules_without_nul bank).
  { intros bank Hb. unfold rules_without_nul. apply List.Forall_forall.
    intros info Hin Hz. rewrite forallb_forall in Hb. specialize (Hb info Hin).
    apply negb_true_iff in Hb.
    assert (existsb (Byte.eqb x00) (bytes info) = true); [|congruence].
    apply existsb_exists. exists x00. split; [exact Hz|reflexivity]. }
  split_and!; apply H; vm_compute; reflexivity.
Qed.

Lemma convert_game_to_utf8_korean_any_order (bank : GameTextFontBank) :
  same_rules g_font_bank_jak2 bank ->
  fst (convert_game_to_utf8 bank ["001"; "000"; "A"; "000"]%char true []) = str "<H341>"
  /\ fst (convert_game_to_utf8 bank ["001"; "000"; "B"; "000"]%char true []) = str "<H342>".
Proof.
  intros Hs. destruct shipped_rules_distinct as (_ & _ & Hd).
  rewrite !(convert_game_to_utf8_perm _ _ Hd Hs).
  vm_compute. split; reflexivity.
Qed.

(** C10 (defect).  Claim: with or without the Korean pre-pass the output of
    [convert_game_to_utf8] depends on the bytes before the first zero byte
    only.  Without the pre-pass it does ([convert_game_to_utf8_same_text]).
    The pre-pass steps over the byte after a group marker, and over the
    byte after a marker 5, without looking at it: when that byte is the
    terminator the scan goes on behind it.  The two buffers below hold the
    same text, the byte 1, and differ behind the terminator; with the
    pre-pass the outputs differ. *)
Theorem convert_game_to_utf8_korean_reads_past_nul :
  let in1 := ["001"; "000"; "A"; "000"]%char in
  let in2 := ["001"; "000"; "B"; "000"]%char in
  before_nul in1 = before_nul in2
  /\ fst (convert_game_to_utf8 g_font_bank_jak2 in1 true []) = str "<H341>"
  /\ fst (convert_game_to_utf8 g_font_bank_jak2 in2 true []) = str "<H342>"
  /\ fst (convert_game_to_utf8 g_font_bank_jak2 in1 false []) = str "\c01"
  /\ fst (convert_game_to_utf8 g_font_bank_jak2 in2 false []) = str "\c01".
Proof.
  destruct (convert_game_to_utf8_korean_any_order _ (same_rules_refl _)) as (H1 & H2).
  split; [reflexivity|]. split; [exact H1|]. split; [exact H2|].
  split; vm_compute; reflexivity.
Qed.

(** ** Round trips *)

(** A text without double quote and backslash passes the escape stage
    unchanged, so the flag makes no difference for it. *)
Lemma unescape_from_plain (s newstr : list ascii) :
  forallb (fun c => negb (Ascii.eqb c DQUOTE) && negb (Ascii.eqb c BACKSLASH)) s = true ->
  unescape_from s newstr = Ok (newstr ++ s).
Proof.
  revert newstr. induction s as [|c s IH]; intros newstr H; simpl in *.
  - now rewrite app_nil_r.
  - apply andb_prop in H as [Hc Hs]. apply andb_prop in Hc as [Hq Hb].
    apply negb_true_iff in Hq, Hb. rewrite Hq, Hb, (IH _ Hs), <- app_assoc.
    reflexivity.
Qed.

Lemma round_trip_plain this (s : list ascii) :
  forallb (fun c => negb (Ascii.eqb c DQUOTE) && negb (Ascii.eqb c BACKSLASH)) s = true ->
  round_trip this s true = round_trip this s false.
Proof.
  intros H. unfold round_trip.
  rewrite convert_utf8_to_game_escape, unescape_unescape_from, (unescape_from_plain s [] H).
  reflexivity.
Qed.

Lemma existsb_perm {A} (f : A -> bool) (l l' : list A) :
  Permutation l l' -> existsb f l = existsb f l'.
Proof.
  induction 1 as [|x l l' _ IH|x y l|l l' l'' _ IH1 _ IH2]; simpl.
  - reflexivity.
  - now rewrite IH.
  - destruct (f x), (f y); reflexivity.
  - now rewrite IH1.
Qed.

Lemma display_unit_perm (a b : GameTextFontBank) (u : list ascii) :
  same_rules a b -> display_unit b u = display_unit a u.
Proof.
  intros Hs. pose proof Hs as (_ & _ & He & Hr). unfold display_unit.
  rewrite (existsb_perm _ _ _ He), (existsb_perm _ _ _ Hr).
  destruct u as [|c [|]]; try reflexivity.
  now rewrite (valid_char_range_perm a b Hs).
Qed.

Lemma round_trip_dakuten_any_order (bank : GameTextFontBank) :
  same_rules g_font_bank_jak2 bank ->
  let units := [str "~"; str "Y"; str "ウ"; str "~"; str "Z"; str "゛"] in
  forallb (display_unit bank) units = true
  /\ Forall (fun u => round_trip bank u false = Ok u) units
  /\ round_trip bank (str "~Yウ~Z゛") false = Ok (str "ヴ")
  /\ round_trip bank (str "~Yウ~Z゛") true = Ok (str "ヴ").
Proof.
  intros Hs units. destruct shipped_rules_distinct as (_ & _ & Hd).
  assert (Hrt : forall s r, forward_unambiguous g_font_bank_jak2 s false = true ->
                            round_trip g_font_bank_jak2 s false = Ok r ->
                            round_trip bank s false = Ok r).
  { intros s r Hu Hr. now rewrite (round_trip_perm _ _ Hd Hs _ false Hu). }
  split_and!.
  - rewrite forallb_forall. intros u Hu. rewrite (display_unit_perm _ _ u Hs).
    revert u Hu. rewrite <- forallb_forall. vm_compute. reflexivity.
  - unfold units.
    apply List.Forall_cons; [apply Hrt; vm_compute; reflexivity|].
    apply List.Forall_cons; [apply Hrt; vm_compute; reflexivity|].
    apply List.Forall_cons; [apply Hrt; vm_compute; reflexivity|].
    apply List.Forall_cons; [apply Hrt; vm_compute; reflexivity|].
    apply List.Forall_cons; [apply Hrt; vm_compute; reflexivity|].
    apply List.Forall_cons; [apply Hrt; vm_compute; reflexivity|].
    apply List.Forall_nil.
  - apply Hrt; vm_compute; reflexivity.
  - rewrite (round_trip_perm _ _ Hd Hs _ true) by (vm_compute; reflexivity).
    vm_compute. reflexivity.
Qed.

(** C2, the claim as stated, fails.  The text ~Yウ~Z゛ is made of six units
    of the third bank, four valid literal characters and the texts of two
    encode rules, and each of them comes back from the round trip on its
    own.  The text is the game side of the replace rule for ヴ: the forward
    transcoder writes it as it is, and the reverse transcoder folds the
    result into ヴ. *)
Lemma round_trip_folds_replacement :
  let units := [str "~"; str "Y"; str "ウ"; str "~"; str "Z"; str "゛"] in
  let s := str "~Yウ~Z゛" in
  concat units = s
  /\ forallb (display_unit g_font_bank_jak2) units = true
  /\ Forall (fun u => round_trip g_font_bank_jak2 u false = Ok u) units
  /\ round_trip g_font_bank_jak2 s false = Ok (str "ヴ")
  /\ round_trip g_font_bank_jak2 s true = Ok (str "ヴ")
  /\ str "ヴ" <> s.
Proof.
  destruct (round_trip_dakuten_any_order _ (same_rules_refl _))
    as (H1 & H2 & H3 & H4).
  split; [reflexivity|]. split; [exact H1|]. split; [exact H2|].
  split; [exact H3|]. split; [exact H4|].
  vm_compute. discriminate.
Qed.

(** The check that the proof of the round trip evaluates on each text of a
    table: the text holds no double quote and no backslash, the forward
    transcoder meets no ambiguous choice on it, and it comes back. *)
Lemma round_trip_check_all {A} (model bank : GameTextFontBank)
    (text : A -> list ascii) (l l' : list A) :
  rules_distinct model = true ->
  same_rules model bank ->
  Permutation l l' ->
  forallb
    (fun x =>
       if forallb (fun c => negb (Ascii.eqb c DQUOTE) && negb (Ascii.eqb c BACKSLASH))
            (text x)
       then if forward_unambiguous model (text x) false
            then match round_trip model (text x) false with
                 | Ok back => bool_decide (back = text x)
                 | Err _ => false
                 end
            else false
       else false) l = true ->
  forall escape : bool,
    Forall (fun x => round_trip bank (text x) escape = Ok (text x)) l'.
Proof.
  intros Hd Hs Hperm H escape. apply List.Forall_forall. intros x Hx.
  rewrite forallb_forall in H.
  assert (In x l) as Hxl by (eapply Permutation_in; [symmetry|]; eassumption).
  specialize (H x Hxl).
  destruct (forallb _ (text x)) eqn:Hplain; [|discriminate].
  destruct (forward_unambiguous model (text x) false) eqn:Hu; [|discriminate].
  assert (round_trip bank (text x) false = Ok (text x)) as Hrt.
  { rewrite (round_trip_perm _ _ Hd Hs _ _ Hu).
    destruct (round_trip model (text x) false) as [back|e]; [|discriminate].
    apply bool_decide_eq_true in H. now subst. }
  destruct escape; [rewrite round_trip_plain by exact Hplain|]; exact Hrt.
Qed.

(** X10: in each of the three banks, with its rules in any
    order, the display text of every table entry, the text of an encode
    rule and the display text of a replace rule, comes back unchanged from
    the forward transcoder followed by the reverse one (without the Korean
    pre-pass), with escaping on or off. *)
Theorem round_trip_table_entries (model bank : GameTextFontBank) (escape : bool) :
  In model [g_font_bank_jak1_v1; g_font_bank_jak1_v2; g_font_bank_jak2] ->
  same_rules model bank ->
  Forall (fun info => round_trip bank (chars info) escape = Ok (chars info))
    (m_encode_info bank)
  /\ Forall (fun info => round_trip bank (to info) escape = Ok (to info))
       (m_replace_info bank).
Proof.
  intros Hmodel Hs.
  assert (Hd : rules_distinct model = true).
  { destruct shipped_rules_distinct as (H1 & H2 & H3).
    destruct Hmodel as [<-|[<-|[<-|[]]]]; assumption. }
  pose proof Hs as (_ & _ & He & Hr).
  split.
  - apply (round_trip_check_all model bank chars _ _ Hd Hs He).
    destruct Hmodel as [<-|[<-|[<-|[]]]]; vm_cast_no_check (eq_refl true).
  - apply (round_trip_check_all model bank to _ _ Hd Hs Hr).
    destruct Hmodel as [<-|[<-|[<-|[]]]]; vm_cast_no_check (eq_refl true).
Qed.

Lemma round_trip_table_entries_witness :
  Forall (fun info => round_trip g_font_bank_jak1_v1 (chars info) true = Ok (chars info))
    (m_encode_info g_font_bank_jak1_v1)
  /\ Forall (fun info => round_trip g_font_bank_jak1_v1 (to info) true = Ok (to info))
       (m_replace_info g_font_bank_jak1_v1).
Proof.
  apply (round_trip_table_entries g_font_bank_jak1_v1 g_font_bank_jak1_v1 true).
  - left. reflexivity.
  - unfold same_rules. split_and!; reflexivity.
Defined.

(** ** The round trip of a text *)

Lemma for_index_done {A} (fuel n : nat) (body : nat -> A -> nat * A) (i : nat) (acc : A) :
  n <= i -> for_index fuel n body i acc = acc.
Proof.
  intros Hi. destruct fuel as [|fuel]; [reflexivity|]. simpl.
  destruct (Nat.ltb_spec i n); [lia|reflexivity].
Qed.

(** Two loops that step the index alike keep their accumulators related. *)
Lemma for_index_rel {A B} (Rel : A -> B -> Prop) (n : nat)
    (body1 : nat -> A -> nat * A) (body2 : nat -> B -> nat * B) :
  (forall i a b, Rel a b ->
                 fst (body1 i a) = fst (body2 i b)
                 /\ Rel (snd (body1 i a)) (snd (body2 i b))) ->
  forall fuel i a b,
    Rel a b -> Rel (for_index fuel n body1 i a) (for_index fuel n body2 i b).
Proof.
  intros Hstep. induction fuel as [|fuel IH]; intros i a b Hab; [exact Hab|].
  simpl. destruct (i <? n); [|exact Hab].
  destruct (Hstep i a b Hab) as [Hi Hr].
  destruct (body1 i a) as [i1 a1], (body2 i b) as [i2 b2]. simpl in Hi, Hr.
  subst i2. now apply IH.
Qed.

Lemma deref_ptr_add (s : list ascii) (i : nat) : deref (ptr_add s i) = nth i s NUL.
Proof.
  unfold deref, ptr_add. revert i. induction s as [|c s IH]; intros [|i]; simpl; auto.
Qed.

Section Rounds.
Context {R : Type} (find : list ascii -> nat -> option R) (adv : R -> nat).
Hypothesis find_rest : forall s i, i < length s -> find s i = find (ptr_add s i) 0.
Hypothesis adv_pos : forall s i r, find s i = Some r -> 0 < adv r.

Lemma rounds_nil : rounds find adv [] = [].
Proof. reflexivity. Qed.

Lemma rounds_loop (m : nat) :
  forall s i acc fuel,
    length s - i <= m -> length s - i <= fuel ->
    for_index fuel (length s) (rounds_body find adv s) i acc
    = acc ++ rounds find adv (ptr_add s i).
Proof.
  induction m as [|m IH]; intros s i acc fuel Hm Hfuel.
  - rewrite for_index_done by lia.
    unfold ptr_add. rewrite skipn_all2 by lia. now rewrite rounds_nil, app_nil_r.
  - destruct (Nat.le_gt_cases (length s) i) as [Hge|Hlt].
    + rewrite for_index_done by lia.
      unfold ptr_add. rewrite skipn_all2 by lia. now rewrite rounds_nil, app_nil_r.
    + destruct fuel as [|fuel]; [lia|].
      assert (Hlen : length (ptr_add s i) = length s - i)
        by (unfold ptr_add; apply length_skipn).
      assert (Hskip : forall k, ptr_add (ptr_add s i) k = ptr_add s (i + k)).
      { intros k. unfold ptr_add. rewrite skipn_skipn. f_equal. lia. }
      remember (ptr_add s i) as t eqn:Et.
      destruct t as [|c t']; [simpl in Hlen; lia|].
      cbn [for_index].
      destruct (Nat.ltb_spec i (length s)); [|lia].
      unfold rounds_body at 1.
      rewrite (find_rest s i Hlt), <- Et.
      unfold rounds at 1. cbn [length for_index]. cbn [Nat.ltb Nat.leb].
      unfold rounds_body at 2.
      change (ptr_add (c :: t') 0) with (c :: t').
      change (S (length t')) with (length (c :: t')).
      simpl in Hlen.
      destruct (find (c :: t') 0) as [r|] eqn:Ef.
      * pose proof (adv_pos _ _ _ Ef) as Hpos.
        rewrite (IH s (i + adv r)) by lia.
        rewrite (IH (c :: t') (0 + adv r)) by (simpl; lia).
        rewrite Hskip. simpl. now rewrite <- app_assoc.
      * rewrite (IH s (i + 1)) by lia.
        rewrite (IH (c :: t') (0 + 1)) by (simpl; lia).
        rewrite Hskip. simpl. now rewrite <- app_assoc.
Qed.

Lemma rounds_cons (c : ascii) (t : list ascii) :
  rounds find adv (c :: t)
  = (c :: t, find (c :: t) 0)
      :: rounds find adv
           (ptr_add (c :: t) (match find (c :: t) 0 with Some r => adv r | None => 1 end)).
Proof.
  unfold rounds at 1. cbn [length for_index]. cbn [Nat.ltb Nat.leb].
  unfold rounds_body at 1.
  change (ptr_add (c :: t) 0) with (c :: t).
  destruct (find (c :: t) 0) as [r|] eqn:Ef.
  - pose proof (adv_pos _ _ _ Ef) as Hpos.
    change (S (length t)) with (length (c :: t)).
    rewrite (rounds_loop (length (c :: t))) by (simpl; lia). reflexivity.
  - change (S (length t)) with (length (c :: t)).
    rewrite (rounds_loop (length (c :: t))) by (simpl; lia). reflexivity.
Qed.

(** Induction over the rounds of a loop. *)
Lemma rounds_ind (P : list ascii -> list (list ascii * option R) -> Prop) :
  P [] [] ->
  (forall c t,
      find (c :: t) 0 = None ->
      P t (rounds find adv t) ->
      P (c :: t) ((c :: t, None) :: rounds find adv t)) ->
  (forall c t r,
      find (c :: t) 0 = Some r ->
      P (ptr_add (c :: t) (adv r)) (rounds find adv (ptr_add (c :: t) (adv r))) ->
      P (c :: t) ((c :: t, Some r) :: rounds find adv (ptr_add (c :: t) (adv r)))) ->
  forall s, P s (rounds find adv s).
Proof.
  intros Hnil Hnone Hsome s.
  remember (length s) as n eqn:Hn. revert s Hn.
  induction n as [n IH] using lt_wf_ind. intros [|c t] Hn; [exact Hnil|].
  rewrite rounds_cons. destruct (find (c :: t) 0) as [r|] eqn:Ef.
  - apply Hsome; [exact Ef|].
    pose proof (adv_pos _ _ _ Ef) as Hpos.
    apply (IH (length (ptr_add (c :: t) (adv r)))); [|reflexivity].
    unfold ptr_add. rewrite length_skipn. simpl in *. lia.
  - apply Hnone; [exact Ef|]. apply (IH (length t)); [simpl in Hn; lia|reflexivity].
Qed.
End Rounds.

Lemma size_t_sub_lt_rest (size off n : nat) :
  off <= size -> size_t_sub_lt size off n = size_t_sub_lt (size - off) 0 n.
Proof.
  intros H. unfold size_t_sub_lt.
  destruct (Nat.leb_spec off size); [|lia]. simpl. now rewrite Nat.sub_0_r.
Qed.

Lemma find_encode_to_game_rest this (s : list ascii) (i : nat) :
  find_encode_to_game this s i = find_encode_to_game this (ptr_add s i) 0.
Proof. reflexivity. Qed.

Lemma find_replace_to_game_rest this (s : list ascii) (i : nat) :
  i < length s ->
  find_replace_to_game this s i = find_replace_to_game this (ptr_add s i) 0.
Proof.
  intros Hi. unfold find_replace_to_game.
  change (ptr_add (ptr_add s i) 0) with (ptr_add s i).
  apply fold_left_ext. intros best info.
  unfold ptr_add at 2. rewrite length_skipn, <- size_t_sub_lt_rest by lia. reflexivity.
Qed.

Lemma find_replace_to_utf8_rest this (s : list ascii) (i : nat) :
  i < length s ->
  find_replace_to_utf8 this s i = find_replace_to_utf8 this (ptr_add s i) 0.
Proof.
  intros Hi. unfold find_replace_to_utf8.
  change (ptr_add (ptr_add s i) 0) with (ptr_add s i).
  apply fold_left_ext. intros best info.
  unfold ptr_add at 2. rewrite length_skipn, <- size_t_sub_lt_rest by lia. reflexivity.
Qed.

(** What a round of each loop writes. *)
Lemma replace_to_game_rounds_text this (s : list ascii) :
  replace_to_game this s = flat_map game_piece (replace_to_game_rounds this s).
Proof.
  unfold replace_to_game, replace_to_game_rounds, rounds.
  apply (for_index_rel (fun acc rs => acc = flat_map game_piece rs)); [|reflexivity].
  intros i a b ->. unfold replace_to_game_body, rounds_body.
  destruct (find_replace_to_game this s i); cbn [fst snd]; (split; [reflexivity|]);
    rewrite flat_map_app; cbn [flat_map]; rewrite app_nil_r; unfold game_piece;
    cbn [fst snd]; [reflexivity|].
  now rewrite deref_ptr_add.
Qed.

Lemma encode_utf8_to_game_rounds_text this (s : list ascii) :
  encode_utf8_to_game this s = flat_map byte_piece (encode_utf8_to_game_rounds this s).
Proof.
  unfold encode_utf8_to_game, encode_utf8_to_game_rounds, rounds.
  apply (for_index_rel (fun acc rs => acc = flat_map byte_piece rs)); [|reflexivity].
  intros i a b ->. unfold encode_utf8_to_game_body, rounds_body.
  destruct (find_encode_to_game this s i); cbn [fst snd]; (split; [reflexivity|]);
    rewrite flat_map_app; cbn [flat_map]; rewrite app_nil_r; unfold byte_piece;
    cbn [fst snd]; [reflexivity|].
  now rewrite deref_ptr_add.
Qed.

Lemma replace_to_utf8_rounds_text this (s : list ascii) :
  replace_to_utf8 this s
  = flat_map display_piece
      (rounds (find_replace_to_utf8 this) (fun remap => length (from remap)) s).
Proof.
  unfold replace_to_utf8, rounds.
  apply (for_index_rel (fun acc rs => acc = flat_map display_piece rs)); [|reflexivity].
  intros i a b ->. unfold replace_to_utf8_body, rounds_body.
  destruct (find_replace_to_utf8 this s i); cbn [fst snd]; (split; [reflexivity|]);
    rewrite flat_map_app; cbn [flat_map]; rewrite app_nil_r; unfold display_piece;
    cbn [fst snd]; [reflexivity|].
  now rewrite deref_ptr_add.
Qed.

(** [replace_to_utf8] seen from the text that is left. *)
Lemma replace_to_utf8_nil this : replace_to_utf8 this [] = [].
Proof. reflexivity. Qed.

Lemma replace_to_utf8_cons this (c : ascii) (t : list ascii) :
  replace_to_utf8 this (c :: t)
  = match find_replace_to_utf8 this (c :: t) 0 with
    | None => c :: replace_to_utf8 this t
    | Some remap =>
        to remap ++ replace_to_utf8 this (ptr_add (c :: t) (length (from remap)))
    end.
Proof.
  rewrite (replace_to_utf8_rounds_text this (c :: t)).
  rewrite rounds_cons.
  - destruct (find_replace_to_utf8 this (c :: t) 0) as [r|] eqn:E;
      unfold display_piece at 1; cbn [flat_map fst snd deref hd];
      now rewrite <- replace_to_utf8_rounds_text.
  - intros s i Hi. now apply find_replace_to_utf8_rest.
  - intros s i r Hr. now destruct (find_replace_to_utf8_Some _ _ _ _ Hr) as (_ & ? & _).
Qed.

Section SelectOne.
Context {A : Type} (matches : A -> bool) (len : A -> nat).

Lemma select_none_all (l : list A) :
  (forall x, In x l -> matches x = false) -> select matches len l = None.
Proof.
  intros H. destruct (select matches len l) as [r|] eqn:E; [|reflexivity].
  destruct (select_Some _ _ _ _ E) as (Hin & Hm & _).
  rewrite (H r Hin) in Hm. discriminate.
Qed.

Lemma select_exists (l : list A) (r : A) :
  In r l -> matches r = true ->
  exists r', select matches len l = Some r' /\ In r' l /\ matches r' = true
             /\ len r <= len r'.
Proof.
  intros Hin Hm. destruct (select matches len l) as [r'|] eqn:E.
  - destruct (select_Some _ _ _ _ E) as (Hin' & Hm' & Hmax).
    exists r'. repeat split; auto.
  - rewrite (select_None _ _ _ E r Hin) in Hm. discriminate.
Qed.
End SelectOne.

Lemma is_prefix_spec (p l : list ascii) :
  is_prefix p l = true <-> exists rest, l = p ++ rest.
Proof.
  revert l. induction p as [|x p IH]; intros l; simpl.
  - split; [intros _; now exists l|reflexivity].
  - destruct l as [|y l].
    + split; [discriminate|]. intros [rest H]. discriminate.
    + destruct (bool_decide_reflect (x = y)) as [->|Hne].
      * rewrite IH. split; intros [rest H]; exists rest; [now rewrite H|].
        now injection H.
      * split; [discriminate|]. intros [rest H]. injection H as -> _. contradiction.
Qed.

Lemma memcmp_eq_is_prefix (q : list ascii) :
  forall p, negb (length p <? length q) && memcmp_eq p q (length q) = is_prefix q p.
Proof.
  induction q as [|c q IH]; intros p.
  - simpl. now destruct p.
  - destruct p as [|x p]; [reflexivity|].
    cbn [length memcmp_eq is_prefix deref hd].
    change (ptr_add (x :: p) 1) with p. change (ptr_add (c :: q) 1) with q.
    change (S (length p) <? S (length q)) with (length p <? length q).
    rewrite <- IH.
    destruct (Ascii.eqb_spec x c) as [->|Hne].
    + now rewrite bool_decide_true.
    + rewrite bool_decide_false by congruence. now rewrite andb_false_r.
Qed.

Lemma matches_replace_to_utf8_start (in_ : list ascii) (info : ReplaceInfo) :
  matches_replace_to_utf8 in_ 0 info
  = negb (empty (from info)) && is_prefix (from info) in_.
Proof.
  unfold matches_replace_to_utf8, size_t_sub_lt. simpl.
  rewrite Nat.sub_0_r, <- andb_assoc. f_equal.
  change (ptr_add in_ 0) with in_. apply memcmp_eq_is_prefix.
Qed.

Lemma matches_replace_to_game_start (in_ : list ascii) (info : ReplaceInfo) :
  matches_replace_to_game in_ 0 info
  = negb (empty (to info)) && is_prefix (to info) in_.
Proof.
  unfold matches_replace_to_game, size_t_sub_lt. simpl.
  rewrite Nat.sub_0_r, <- andb_assoc. f_equal.
  change (ptr_add in_ 0) with in_. apply memcmp_eq_is_prefix.
Qed.

Lemma is_prefix_same_length (p q l : list ascii) :
  is_prefix p l = true -> is_prefix q l = true -> length p = length q -> p = q.
Proof.
  rewrite !is_prefix_spec. intros [r1 H1] [r2 H2] Hlen. subst l.
  now apply app_inj_1 in H2 as [-> _].
Qed.

Lemma is_prefix_ptr_add (p l : list ascii) :
  is_prefix p l = true -> l = p ++ ptr_add l (length p).
Proof.
  rewrite is_prefix_spec. intros [rest ->]. unfold ptr_add.
  now rewrite drop_app_length.
Qed.

Lemma longer_game_side_false this (n : nat) (t : list ascii) :
  longer_game_side this n t = false ->
  forall x, In x (m_replace_info this) -> is_prefix (from x) t = true ->
            length (from x) <= n.
Proof.
  unfold longer_game_side. intros H x Hx Hp.
  destruct (Nat.ltb_spec n (length (from x))) as [Hlt|]; [|assumption].
  exfalso. assert (existsb (fun x => (n <? length (from x)) && is_prefix (from x) t)
                     (m_replace_info this) = true) as Ht.
  { apply existsb_exists. exists x. split; [exact Hx|].
    rewrite Hp, andb_true_r. now apply Nat.ltb_lt. }
  rewrite Ht in H. discriminate.
Qed.

Section RoundTrip.
Variable this : GameTextFontBank.
Hypothesis bytes_distinct :
  forall x r, In x (m_encode_info this) -> In r (m_encode_info this) ->
              is_prefix (bytes x) (bytes r) = true -> x = r.
Hypothesis from_distinct :
  forall x r, In x (m_replace_info this) -> In r (m_replace_info this) ->
              from x = from r -> x = r.

(** *** The reverse replacement *)

Lemma find_replace_to_utf8_none (t : list ascii) :
  longer_game_side this 0 t = false -> find_replace_to_utf8 this t 0 = None.
Proof.
  intros H. rewrite find_replace_to_utf8_select. apply select_none_all.
  intros x Hx. rewrite matches_replace_to_utf8_start.
  destruct (is_prefix (from x) t) eqn:Ep; [|now rewrite andb_false_r].
  pose proof (longer_game_side_false _ _ _ H x Hx Ep) as Hle.
  destruct (from x); [reflexivity|simpl in Hle; lia].
Qed.

Lemma find_replace_to_utf8_one (r : ReplaceInfo) (t : list ascii) :
  In r (m_replace_info this) -> empty (from r) = false ->
  longer_game_side this (length (from r)) (from r ++ t) = false ->
  find_replace_to_utf8 this (from r ++ t) 0 = Some r.
Proof.
  intros Hin Hne Hlong. rewrite find_replace_to_utf8_select.
  assert (Hp : is_prefix (from r) (from r ++ t) = true)
    by (apply is_prefix_spec; now exists t).
  destruct (select_exists (matches_replace_to_utf8 (from r ++ t) 0)
              (fun info => length (from info)) (m_replace_info this) r Hin)
    as (r' & -> & Hin' & Hm' & Hlen).
  { rewrite matches_replace_to_utf8_start, Hne, Hp. reflexivity. }
  rewrite matches_replace_to_utf8_start in Hm'.
  apply andb_true_iff in Hm' as [_ Hp'].
  pose proof (longer_game_side_false _ _ _ Hlong r' Hin' Hp') as Hle.
  f_equal. apply from_distinct; auto.
  apply (is_prefix_same_length _ _ (from r ++ t)); auto. lia.
Qed.

Lemma replace_to_utf8_rounds_back (rs : list (list ascii * option ReplaceInfo)) :
  Forall (fun round => match snd round with
                       | Some r => In r (m_replace_info this)
                       | None => True
                       end) rs ->
  rounds_invertible this rs = true ->
  replace_to_utf8 this (flat_map game_piece rs) = flat_map display_piece rs.
Proof.
  induction rs as [|[rest o] rs IH]; intros Hin Hok; [reflexivity|].
  inversion Hin as [|? ? Hr Hin']; subst. cbn [snd] in Hr.
  cbn [rounds_invertible snd] in Hok.
  apply andb_true_iff in Hok as [Hhere Hok].
  specialize (IH Hin' Hok).
  destruct o as [r|].
  - apply andb_true_iff in Hhere as [Hne Hlong].
    apply negb_true_iff in Hne, Hlong.
    cbn [flat_map] in *. unfold game_piece at 1, display_piece at 1. cbn [fst snd].
    unfold game_piece at 1 in Hlong. cbn [fst snd] in Hlong.
    pose proof (find_replace_to_utf8_one r _ Hr Hne Hlong) as Hfind.
    destruct (from r) as [|c f] eqn:Ef; [discriminate|].
    cbn [app] in *. rewrite replace_to_utf8_cons, Hfind, Ef.
    f_equal. rewrite <- IH. f_equal.
    change (c :: f ++ flat_map game_piece rs) with ((c :: f) ++ flat_map game_piece rs).
    unfold ptr_add. now rewrite drop_app_length.
  - apply negb_true_iff in Hhere.
    cbn [flat_map] in *. unfold game_piece at 1, display_piece at 1. cbn [fst snd].
    unfold game_piece at 1 in Hhere. cbn [fst snd app] in Hhere. cbn [app].
    rewrite replace_to_utf8_cons, (find_replace_to_utf8_none _ Hhere).
    now rewrite IH.
Qed.

Lemma replace_to_game_rounds_display (s : list ascii) :
  flat_map display_piece (replace_to_game_rounds this s) = s
  /\ Forall (fun round => match snd round with
                          | Some r => In r (m_replace_info this)
                          | None => True
                          end) (replace_to_game_rounds this s).
Proof.
  unfold replace_to_game_rounds.
  apply (rounds_ind (find_replace_to_game this) (fun remap => length (to remap))).
  - intros t i Hi. now apply find_replace_to_game_rest.
  - intros t i r Hr. now destruct (find_replace_to_game_Some _ _ _ _ Hr) as (_ & ? & _).
  - split; [reflexivity|constructor].
  - intros c t _ [IH1 IH2]. split; [|constructor; [exact I|exact IH2]].
    cbn [flat_map]. unfold display_piece at 1. cbn [fst snd deref hd app]. now rewrite IH1.
  - intros c t r Hr [IH1 IH2].
    destruct (find_replace_to_game_Some _ _ _ _ Hr) as (Hin & _ & _).
    split; [|constructor; [exact Hin|exact IH2]].
    cbn [flat_map]. unfold display_piece at 1. cbn [fst snd]. rewrite IH1.
    symmetry. apply is_prefix_ptr_add.
    rewrite find_replace_to_game_select in Hr.
    destruct (select_Some _ _ _ _ Hr) as (_ & Hm & _).
    rewrite matches_replace_to_game_start in Hm.
    now apply andb_true_iff in Hm as [_ Hm].
Qed.

Lemma replace_to_utf8_back (s : list ascii) :
  replace_invertible this s = true ->
  replace_to_utf8 this (replace_to_game this s) = s.
Proof.
  intros H. destruct (replace_to_game_rounds_display s) as [Hs Hin].
  rewrite replace_to_game_rounds_text, replace_to_utf8_rounds_back; auto.
Qed.

Lemma replace_to_utf8_fixed (s : list ascii) :
  no_game_side this s = true -> replace_to_utf8 this s = s.
Proof.
  induction s as [|c s IH]; intros H; [reflexivity|].
  cbn [no_game_side] in H. apply andb_true_iff in H as [Hc Hs].
  apply negb_true_iff in Hc.
  rewrite replace_to_utf8_cons, (find_replace_to_utf8_none _ Hc).
  now rewrite IH.
Qed.

(** *** The decoding *)

Lemma bytes_found_here (bs : list byte) :
  forall pre tail,
    bytes_found (pre ++ map ascii_of_byte bs ++ tail) bs (length pre) = true.
Proof.
  induction bs as [|b bs IH]; intros pre tail; [reflexivity|].
  cbn [bytes_found map app]. unfold ptr_index.
  rewrite nth_middle, byte_of_ascii_of_byte.
  rewrite (byte_dec_lb eq_refl).
  specialize (IH (pre ++ [ascii_of_byte b]) tail).
  rewrite <- app_assoc, length_app in IH. cbn [app length] in IH.
  now rewrite Nat.add_1_r in IH.
Qed.

Lemma find_encode_to_utf8_one (r : EncodeInfo) (tail : list ascii) :
  In r (m_encode_info this) -> bytes r <> [] ->
  find_encode_to_utf8 this (map ascii_of_byte (bytes r) ++ tail) = Some r.
Proof.
  intros Hin Hne. rewrite find_encode_to_utf8_select.
  set (in_ := map ascii_of_byte (bytes r) ++ tail).
  assert (Hr : bytes_found in_ (bytes r) 0 = true) by apply (bytes_found_here _ []).
  destruct (select_exists (matches_encode_to_utf8 in_)
              (fun info => length (chars info)) (m_encode_info this) r Hin)
    as (r' & -> & Hin' & Hm' & _).
  { unfold matches_encode_to_utf8. rewrite Hr, andb_true_r.
    apply negb_true_iff, Nat.eqb_neq. now destruct (bytes r). }
  unfold matches_encode_to_utf8 in Hm'. apply andb_true_iff in Hm' as [_ Hr'].
  f_equal. destruct (Nat.le_ge_cases (length (bytes r')) (length (bytes r))) as [Hle|Hle].
  - apply bytes_distinct; auto. now apply (bytes_found_is_prefix in_ _ _ 0).
  - symmetry. apply bytes_distinct; auto. now apply (bytes_found_is_prefix in_ _ _ 0).
Qed.

Lemma find_encode_to_utf8_copied (c : ascii) (tail : list ascii) :
  copied_back this c = true -> find_encode_to_utf8 this (c :: tail) = None.
Proof.
  intros H. unfold copied_back in H.
  apply andb_true_iff in H as [H _]. apply andb_true_iff in H as [_ H].
  rewrite forallb_forall in H.
  rewrite find_encode_to_utf8_select. apply select_none_all. intros x Hx.
  specialize (H x Hx). unfold matches_encode_to_utf8.
  destruct (bytes x) as [|b bs]; [reflexivity|].
  cbn [length Nat.eqb negb andb bytes_found ptr_index nth].
  apply negb_true_iff in H. now rewrite H.
Qed.

Lemma ascii_of_byte_not_nul (b : byte) :
  Byte.eqb b x00 = false -> Ascii.eqb (ascii_of_byte b) NUL = false.
Proof.
  intros H. apply Ascii.eqb_neq. intros E.
  assert (b = x00) as Hb.
  { rewrite <- (byte_of_ascii_of_byte b), E. reflexivity. }
  rewrite Hb in H. discriminate.
Qed.

Lemma decode_loop_rounds_back (rs : list (list ascii * option EncodeInfo)) :
  Forall (fun round => match snd round with
                       | Some r => In r (m_encode_info this)
                       | None => True
                       end) rs ->
  forallb (round_read_back this) rs = true ->
  forall fuel temp,
    length (flat_map byte_piece rs) <= fuel ->
    decode_loop fuel this (flat_map byte_piece rs) temp
    = temp ++ flat_map chars_piece rs.
Proof.
  induction rs as [|[rest o] rs IH]; intros Hin Hok fuel temp Hfuel.
  - cbn [flat_map]. rewrite app_nil_r. now destruct fuel.
  - inversion Hin as [|? ? Hr Hin']; subst. cbn [snd] in Hr.
    cbn [forallb] in Hok. apply andb_true_iff in Hok as [Hhere Hok].
    specialize (IH Hin' Hok).
    cbn [flat_map] in *. unfold byte_piece at 1, chars_piece at 1. cbn [fst snd].
    unfold byte_piece at 1 in Hfuel. cbn [fst snd] in Hfuel.
    unfold round_read_back in Hhere. cbn [fst snd] in Hhere.
    destruct o as [r|].
    + apply andb_true_iff in Hhere as [_ Hb].
      destruct (bytes r) as [|b bs] eqn:Eb; [discriminate|].
      apply negb_true_iff in Hb.
      rewrite length_app in Hfuel. cbn [map length] in Hfuel.
      destruct fuel as [|fuel]; [lia|].
      pose proof (find_encode_to_utf8_one r (flat_map byte_piece rs) Hr) as Hfind.
      rewrite Eb in Hfind. specialize (Hfind ltac:(discriminate)).
      cbn [decode_loop]. cbn [map app deref hd].
      rewrite (ascii_of_byte_not_nul b Hb).
      cbn [map app] in Hfind. rewrite Hfind, Eb.
      change (ascii_of_byte b :: map ascii_of_byte bs ++ flat_map byte_piece rs)
        with (map ascii_of_byte (b :: bs) ++ flat_map byte_piece rs).
      replace (ptr_add (ptr_add (map ascii_of_byte (b :: bs) ++ flat_map byte_piece rs)
                          (length (b :: bs) - 1)) 1)
        with (flat_map byte_piece rs).
      * rewrite IH by lia. now rewrite <- app_assoc.
      * unfold ptr_add. rewrite skipn_skipn.
        replace (1 + (length (b :: bs) - 1)) with (length (map ascii_of_byte (b :: bs)))
          by (rewrite length_map; simpl; lia).
        now rewrite drop_app_length.
    + cbn [length app] in Hfuel. destruct fuel as [|fuel]; [lia|].
      set (c := deref rest) in *.
      pose proof (find_encode_to_utf8_copied c (flat_map byte_piece rs) Hhere) as Hfind.
      unfold copied_back in Hhere.
      apply andb_true_iff in Hhere as [Hhere Hvalid].
      apply andb_true_iff in Hhere as [Hnul _].
      apply negb_true_iff in Hnul.
      cbn [decode_loop app deref hd]. rewrite Hnul, Hfind, Hvalid.
      change (ptr_add (c :: flat_map byte_piece rs) 1) with (flat_map byte_piece rs).
      rewrite IH by lia. now rewrite <- app_assoc.
Qed.

Lemma encode_utf8_to_game_rounds_chars (g : list ascii) :
  Forall (fun round => match snd round with
                       | Some r => In r (m_encode_info this)
                       | None => True
                       end) (encode_utf8_to_game_rounds this g)
  /\ (encode_invertible this g = true ->
      flat_map chars_piece (encode_utf8_to_game_rounds this g) = g).
Proof.
  unfold encode_invertible, encode_utf8_to_game_rounds.
  apply (rounds_ind (find_encode_to_game this) (fun remap => length (chars remap))).
  - intros t i _. apply find_encode_to_game_rest.
  - intros t i r Hr. now destruct (find_encode_to_game_Some _ _ _ _ Hr) as (_ & ? & _).
  - split; [constructor|reflexivity].
  - intros c t _ [IH1 IH2]. split; [constructor; [exact I|exact IH1]|].
    intros H. cbn [forallb] in H. apply andb_true_iff in H as [_ H].
    cbn [flat_map]. unfold chars_piece at 1. cbn [fst snd deref hd app].
    now rewrite IH2.
  - intros c t r Hr [IH1 IH2].
    destruct (find_encode_to_game_Some _ _ _ _ Hr) as (Hin & _ & _).
    split; [constructor; [exact Hin|exact IH1]|].
    intros H. cbn [forallb] in H. apply andb_true_iff in H as [Hhere H].
    unfold round_read_back in Hhere. cbn [fst snd] in Hhere.
    apply andb_true_iff in Hhere as [Hp _].
    cbn [flat_map]. unfold chars_piece at 1. cbn [fst snd]. rewrite (IH2 H).
    symmetry. now apply is_prefix_ptr_add.
Qed.

Lemma decode_loop_back (g : list ascii) :
  encode_invertible this g = true ->
  let game := encode_utf8_to_game this g in
  decode_loop (length game) this game [] = g.
Proof.
  intros H. destruct (encode_utf8_to_game_rounds_chars g) as [Hin Hg].
  cbv zeta. rewrite encode_utf8_to_game_rounds_text.
  rewrite (decode_loop_rounds_back _ Hin H _ [] (le_n _)). simpl. now apply Hg.
Qed.

(** *** The escapes of the reverse transcoder *)

Lemma ptr_add_next (s : list ascii) (i : nat) :
  i < length s -> ptr_add s i = nth i s NUL :: ptr_add s (i + 1).
Proof.
  unfold ptr_add. revert i. induction s as [|c s IH]; intros i Hi; [simpl in Hi; lia|].
  destruct i as [|i]; [reflexivity|]. simpl in *. apply IH. lia.
Qed.

Lemma escape_body_plain (s : list ascii) :
  plain_text s = true ->
  forall fuel i acc,
    length s - i <= fuel ->
    for_index fuel (length s) (escape_body s) i acc = acc ++ ptr_add s i.
Proof.
  intros Hs. induction fuel as [|fuel IH]; intros i acc Hfuel.
  - simpl. unfold ptr_add. rewrite skipn_all2 by lia. now rewrite app_nil_r.
  - simpl. destruct (Nat.ltb_spec i (length s)) as [Hlt|Hge].
    + unfold plain_text in Hs. rewrite forallb_forall in Hs.
      specialize (Hs (nth i s NUL) (nth_In _ _ Hlt)).
      apply andb_true_iff in Hs as [Hs Hn]. apply andb_true_iff in Hs as [Hs Ht].
      apply andb_true_iff in Hs as [Hq Hb].
      apply negb_true_iff in Hq, Hb, Ht, Hn.
      rewrite Hn, Ht, Hb, Hq. rewrite IH by lia.
      rewrite <- app_assoc. f_equal. now rewrite (ptr_add_next s i Hlt).
    + unfold ptr_add. rewrite skipn_all2 by lia. now rewrite app_nil_r.
Qed.

Lemma plain_text_no_escape (s : list ascii) :
  plain_text s = true ->
  forallb (fun c => negb (Ascii.eqb c DQUOTE) && negb (Ascii.eqb c BACKSLASH)) s = true.
Proof.
  unfold plain_text. rewrite !forallb_forall. intros H c Hc. specialize (H c Hc).
  apply andb_true_iff in H as [H _]. now apply andb_true_iff in H as [H _].
Qed.

Lemma round_trip_in_domain (s : list ascii) (escape : bool) :
  plain_text s = true ->
  no_game_side this s = true ->
  replace_invertible this s = true ->
  encode_invertible this (replace_to_game this s) = true ->
  round_trip this s escape = Ok s.
Proof.
  intros Hplain Hside Hrep Henc.
  assert (H : round_trip this s false = Ok s).
  { unfold round_trip, convert_utf8_to_game. cbn [Result_bind].
    unfold convert_game_to_utf8. cbn [fst]. f_equal.
    rewrite (decode_loop_back _ Henc), (replace_to_utf8_back _ Hrep).
    rewrite (escape_body_plain s Hplain) by lia.
    now apply replace_to_utf8_fixed. }
  destruct escape; [|exact H].
  rewrite round_trip_plain; [exact H|]. now apply plain_text_no_escape.
Qed.
End RoundTrip.

Lemma rules_distinct_same_rules (a b : GameTextFontBank) :
  rules_distinct a = true -> same_rules a b ->
  (forall x r, In x (m_encode_info b) -> In r (m_encode_info b) ->
               is_prefix (bytes x) (bytes r) = true -> x = r)
  /\ (forall x r, In x (m_replace_info b) -> In r (m_replace_info b) ->
                  from x = from r -> x = r).
Proof.
  intros Hd (_ & _ & He & Hr).
  destruct (rules_distinct_spec a Hd) as (H1 & H2 & _).
  split; intros x r Hx Hr'.
  - apply H1; eapply Permutation_in; try eassumption; now symmetry.
  - apply H2; eapply Permutation_in; try eassumption; now symmetry.
Qed.

(** C2 (amended).  Take a bank whose rules are distinct, which the three
    shipped banks are, with its rules in any order, and a text [s] without
    double quote, backslash, tab and newline (no unit of the shipped tables
    holds one).  The forward transcoder followed by the reverse one
    (without the Korean pre-pass) gives [s] back, with escaping on or off,
    when
    - no game side of a replace rule occurs in [s];
    - in the game text that [replace_to_game] writes for [s], read round
      by round, the game side of a rule applied is not empty and no longer
      game side stands at its start, and no game side stands at a
      character copied;
    - every rule that [encode_utf8_to_game] applies to that game text
      stands there in full, with a byte pattern that starts with a byte
      other than zero, and every character it copies is one that the
      reverse transcoder copies.
    A text whose game-side form spells the game side of a replace rule
    where [replace_to_game] wrote none is folded by the reverse transcoder,
    as the code is designed; a rule that runs past the end of the text
    (the defect of C4) is left out. *)
Theorem round_trip_text (model bank : GameTextFontBank) (s : list ascii)
    (escape : bool) :
  rules_distinct model = true ->
  same_rules model bank ->
  plain_text s = true ->
  no_game_side bank s = true ->
  replace_invertible bank s = true ->
  encode_invertible bank (replace_to_game bank s) = true ->
  round_trip bank s escape = Ok s.
Proof.
  intros Hd Hs Hplain Hside Hrep Henc.
  destruct (rules_distinct_same_rules model bank Hd Hs) as [Hbytes Hfrom].
  now apply round_trip_in_domain.
Qed.

Lemma round_trip_text_witness :
  round_trip g_font_bank_jak1_v1 (str "HELLO WORLD 123") true = Ok (str "HELLO WORLD 123")
  /\ round_trip g_font_bank_jak1_v1 (str "HELLO WORLD 123") false
     = Ok (str "HELLO WORLD 123")
  /\ round_trip g_font_bank_jak1_v1 (str "CAFÉS ÀÉÎ ガギグ") false
     = Ok (str "CAFÉS ÀÉÎ ガギグ")
  /\ round_trip g_font_bank_jak1_v2 (str "CAFÉS ÀÉÎ ガギグ") true
     = Ok (str "CAFÉS ÀÉÎ ガギグ")
  /\ round_trip g_font_bank_jak2 (str "Hello, World!") true = Ok (str "Hello, World!")
  /\ round_trip g_font_bank_jak2 (str "Año <PAD_X> Nº 7, ヴギ") false
     = Ok (str "Año <PAD_X> Nº 7, ヴギ").
Proof.
  assert (forall bank, same_rules bank bank) as Hrefl
      by (intros bank; repeat split; reflexivity).
  split_and!.
  - apply (round_trip_text g_font_bank_jak1_v1 g_font_bank_jak1_v1);
      [vm_compute; reflexivity|apply Hrefl|vm_compute; reflexivity..].
  - apply (round_trip_text g_font_bank_jak1_v1 g_font_bank_jak1_v1);
      [vm_compute; reflexivity|apply Hrefl|vm_compute; reflexivity..].
  - apply (round_trip_text g_font_bank_jak1_v1 g_font_bank_jak1_v1);
      [vm_compute; reflexivity|apply Hrefl|vm_compute; reflexivity..].
  - apply (round_trip_text g_font_bank_jak1_v2 g_font_bank_jak1_v2);
      [vm_compute; reflexivity|apply Hrefl|vm_compute; reflexivity..].
  - apply (round_trip_text g_font_bank_jak2 g_font_bank_jak2);
      [vm_compute; reflexivity|apply Hrefl|vm_compute; reflexivity..].
  - apply (round_trip_text g_font_bank_jak2 g_font_bank_jak2);
      [vm_compute; reflexivity|apply Hrefl|vm_compute; reflexivity..].
Defined.


(** The conditions are stable under a change of the order of the rules
    where they read the tables as a set. *)
Lemma no_game_side_perm (a b : GameTextFontBank) (s : list ascii) :
  same_rules a b -> no_game_side b s = no_game_side a s.
Proof.
  intros (_ & _ & _ & Hr). induction s as [|c s IH]; [reflexivity|].
  cbn [no_game_side]. rewrite IH. unfold longer_game_side.
  now rewrite (existsb_perm _ _ _ Hr).
Qed.

(** A text can fold into a replace rule without holding a game side: in
    the third bank the game side that [replace_to_game] writes for the
    degree sign, standing after N, makes the game side of the rule for
    Nº. *)
Lemma round_trip_degree_any_order (bank : GameTextFontBank) :
  same_rules g_font_bank_jak2 bank ->
  forallb (display_unit bank) [str "N"; str "°"] = true
  /\ no_game_side bank (str "N°") = true
  /\ round_trip bank (str "N°") false = Ok (str "Nº").
Proof.
  intros Hs. destruct shipped_rules_distinct as (_ & _ & Hd).
  split_and!.
  - rewrite forallb_forall. intros u Hu. rewrite (display_unit_perm _ _ u Hs).
    revert u Hu. rewrite <- forallb_forall. vm_compute. reflexivity.
  - rewrite (no_game_side_perm _ _ _ Hs). vm_compute. reflexivity.
  - rewrite (round_trip_perm _ _ Hd Hs _ false) by (vm_compute; reflexivity).
    vm_compute. reflexivity.
Qed.

Example round_trip_degree_sign :
  round_trip g_font_bank_jak2 (str "N°") false = Ok (str "Nº")
  /\ no_game_side g_font_bank_jak2 (str "N°") = true
  /\ replace_invertible g_font_bank_jak2 (str "N°") = false.
Proof. vm_compute. split_and!; reflexivity. Qed.

(** The display text of every entry of the shipped tables meets the
    conditions of the round trip. *)
Lemma table_entries_in_domain (bank : GameTextFontBank) :
  In bank [g_font_bank_jak1_v1; g_font_bank_jak1_v2; g_font_bank_jak2] ->
  forallb (fun info => round_trip_domain bank (chars info)) (m_encode_info bank) = true
  /\ forallb (fun info => round_trip_domain bank (to info)) (m_replace_info bank) = true.
Proof.
  intros [<-|[<-|[<-|[]]]]; split; vm_cast_no_check (eq_refl true).
Qed.

(** No unit of the shipped banks holds a double quote, a backslash, a tab
    or a newline. *)
Lemma display_unit_plain_text (model bank : GameTextFontBank) (u : list ascii) :
  In model [g_font_bank_jak1_v1; g_font_bank_jak1_v2; g_font_bank_jak2] ->
  same_rules model bank ->
  display_unit bank u = true -> plain_text u = true.
Proof.
  intros Hmodel Hs. rewrite (display_unit_perm _ _ u Hs). clear Hs bank.
  assert (Hlit : forall c, valid_char_range model c = true -> plain_text [c] = true).
  { intros c Hc. unfold plain_text. cbn [forallb]. rewrite andb_true_r.
    destruct (Ascii.eqb_spec c DQUOTE) as [->|_];
      [destruct Hmodel as [<-|[<-|[<-|[]]]]; vm_compute in Hc; discriminate|].
    destruct (Ascii.eqb_spec c BACKSLASH) as [->|_];
      [destruct Hmodel as [<-|[<-|[<-|[]]]]; vm_compute in Hc; discriminate|].
    destruct (Ascii.eqb_spec c TAB) as [->|_];
      [destruct Hmodel as [<-|[<-|[<-|[]]]]; vm_compute in Hc; discriminate|].
    destruct (Ascii.eqb_spec c NEWLINE) as [->|_];
      [destruct Hmodel as [<-|[<-|[<-|[]]]]; vm_compute in Hc; discriminate|].
    reflexivity. }
  assert (He : forallb (fun info => plain_text (chars info)) (m_encode_info model) = true)
    by (destruct Hmodel as [<-|[<-|[<-|[]]]]; vm_compute; reflexivity).
  assert (Hr : forallb (fun info => plain_text (to info)) (m_replace_info model) = true)
    by (destruct Hmodel as [<-|[<-|[<-|[]]]]; vm_compute; reflexivity).
  rewrite forallb_forall in He, Hr.
  unfold display_unit. intros H. apply orb_true_iff in H as [H|H].
  - destruct u as [|c [|]]; try discriminate. now apply Hlit.
  - apply andb_true_iff in H as [_ H]. apply orb_true_iff in H as [H|H];
      apply existsb_exists in H as (info & Hin & Heq);
      apply bool_decide_eq_true in Heq; subst u; auto.
Qed.

(** ** The registry *)

Lemma sTextVerEnumMap_lookup_None (name : string) :
  sTextVerEnumMap !! name = None
  <-> name <> "jak1-v1"%string /\ name <> "jak1-v2"%string /\ name <> "jak2"%string.
Proof.
  unfold sTextVerEnumMap. rewrite !lookup_insert_None, lookup_empty. intuition.
Qed.

Lemma initial_banks (version : GameTextVersion) :
  exists bank,
    g_font_banks initial_globals !! version = Some bank /\ m_version bank = version
    /\ tables_sorted bank.
Proof.
  unfold initial_globals; cbn [g_font_banks].
  destruct version.
  - exists g_font_bank_jak1_v1. rewrite lookup_insert_eq.
    split; [reflexivity|]. split; [reflexivity|apply GameTextFontBank_new_sorted].
  - exists g_font_bank_jak1_v2. rewrite lookup_insert_ne, lookup_insert_eq by discriminate.
    split; [reflexivity|]. split; [reflexivity|apply GameTextFontBank_new_sorted].
  - exists g_font_bank_jak2.
    rewrite lookup_insert_ne, lookup_insert_ne, lookup_insert_eq by discriminate.
    split; [reflexivity|]. split; [reflexivity|apply GameTextFontBank_new_sorted].
Qed.

(** C8.  [get_font_bank] throws [unknown_text_version] for every name that
    the name map does not hold, and leaves the globals as they are.  For a
    name that the map holds, and with the registry as initialised, the
    result is the bank the registry has for the version of that name, a
    bank of that version, and again the globals are left as they are. *)
Theorem get_font_bank_spec (name : string) (g : Globals) :
  (sTextVerEnumMap !! name = None ->
   get_font_bank name g = (Err (unknown_text_version name), g))
  /\ (forall version,
        sTextVerEnumMap !! name = Some version ->
        g_font_banks g = g_font_banks initial_globals ->
        exists bank,
          get_font_bank name g = (Ok bank, g)
          /\ g_font_banks g !! version = Some bank
          /\ m_version bank = version).
Proof.
  unfold get_font_bank. split.
  - intros ->. reflexivity.
  - intros version -> Hg. unfold get_font_bank_version. rewrite Hg.
    destruct (initial_banks version) as (bank & -> & Hv & _).
    exists bank. auto.
Qed.

Lemma get_font_bank_spec_witness :
  get_font_bank "not-a-real-version" initial_globals
  = (Err (unknown_text_version "not-a-real-version"), initial_globals)
  /\ exists bank,
       get_font_bank "jak2" initial_globals = (Ok bank, initial_globals)
       /\ g_font_banks initial_globals !! JAK2 = Some bank
       /\ m_version bank = JAK2.
Proof.
  split.
  - apply (proj1 (get_font_bank_spec "not-a-real-version" initial_globals)).
    vm_compute. reflexivity.
  - apply (proj2 (get_font_bank_spec "jak2" initial_globals) JAK2).
    + vm_compute. reflexivity.
    + reflexivity.
Defined.

(** The three registered names and their banks. *)
Example get_font_bank_registered :
  get_font_bank "jak1-v1" initial_globals = (Ok g_font_bank_jak1_v1, initial_globals)
  /\ get_font_bank "jak1-v2" initial_globals = (Ok g_font_bank_jak1_v2, initial_globals)
  /\ get_font_bank "jak2" initial_globals = (Ok g_font_bank_jak2, initial_globals).
Proof.
  assert (H : forall name version bank,
             sTextVerEnumMap !! name = Some version ->
             g_font_banks initial_globals !! version = Some bank ->
             get_font_bank name initial_globals = (Ok bank, initial_globals)).
  { intros name version bank Hn Hb.
    unfold get_font_bank, get_font_bank_version. now rewrite Hn, Hb. }
  split_and!.
  - apply (H _ JAK1_V1); [vm_compute; reflexivity|].
    unfold initial_globals; cbn [g_font_banks]. now rewrite lookup_insert_eq.
  - apply (H _ JAK1_V2); [vm_compute; reflexivity|].
    unfold initial_globals; cbn [g_font_banks].
    now rewrite lookup_insert_ne, lookup_insert_eq by discriminate.
  - apply (H _ JAK2); [vm_compute; reflexivity|].
    unfold initial_globals; cbn [g_font_banks].
    now rewrite lookup_insert_ne, lookup_insert_ne, lookup_insert_eq by discriminate.
Qed.

(** ** The tables stay as the constructor left them *)

Lemma run_on_banks this op g :
  g_font_banks (snd (run_on this op g)) = g_font_banks g.
Proof.
  destruct op; cbn [run_on]; unfold bind, ret; try reflexivity.
  - unfold do_convert_utf8_to_game, lift.
    destruct (convert_utf8_to_game this str_ escape); reflexivity.
  - unfold do_convert_game_to_utf8.
    destruct (convert_game_to_utf8 this in_ korean (seqs g)); reflexivity.
Qed.

Lemma run_banks version op g :
  g_font_banks (snd (run version op g)) = g_font_banks g.
Proof.
  unfold run, bind, get_font_bank_version.
  destruct (g_font_banks g !! version); [apply run_on_banks|reflexivity].
Qed.

Lemma run_all_banks ops g :
  g_font_banks (run_all ops g) = g_font_banks g.
Proof.
  revert g. induction ops as [|[version op] ops IH]; intros g; [reflexivity|].
  cbn [run_all]. rewrite IH. apply run_banks.
Qed.

Lemma initial_banks_sorted : banks_sorted initial_globals.
Proof.
  intros version bank H.
  destruct (initial_banks version) as (bank' & H' & _ & Hs).
  rewrite H in H'. now injection H' as <-.
Qed.

(** C9.  The constructor leaves both tables of a bank ordered longest
    pattern first (and holding the rules it was given).  No operation of a
    bank changes a bank of the registry, that is its encode table, its
    replace table and its passthrough set; so after any sequence of
    operations the registry is the initial one and the tables of every bank
    in it are in order. *)
Theorem tables_sorted_invariant :
  (forall version encode_info replace_info passthrus,
      let bank := GameTextFontBank_new version encode_info replace_info passthrus in
      tables_sorted bank
      /\ Permutation (m_encode_info bank) encode_info
      /\ Permutation (m_replace_info bank) replace_info
      /\ m_passthrus bank = passthrus)
  /\ (forall version op g, g_font_banks (snd (run version op g)) = g_font_banks g)
  /\ (forall ops,
        g_font_banks (run_all ops initial_globals) = g_font_banks initial_globals
        /\ banks_sorted (run_all ops initial_globals)).
Proof.
  split; [|split].
  - intros version encode_info replace_info passthrus bank.
    split; [apply GameTextFontBank_new_sorted|apply GameTextFontBank_new_perm].
  - apply run_banks.
  - intros ops. split; [apply run_all_banks|].
    intros version bank H. rewrite run_all_banks in H.
    now apply (initial_banks_sorted version).
Qed.

(** The accumulator of the pre-pass is the part of the globals that an
    operation does change. *)
Example run_changes_seqs :
  seqs (snd (run JAK2 (op_convert_game_to_utf8 ["004"; "001"; "A"]%char true)
               initial_globals)) = [833%Z]
  /\ seqs initial_globals = [].
Proof. vm_compute. split; reflexivity. Qed.

(** * Further properties of the code *)

(** ** What the resolvers return *)

Section FirstLongest.
Context {A : Type} (matches : A -> bool) (len : A -> nat).

Lemma select_first_longest (l : list A) (r : A) :
  select matches len l = Some r ->
  first_longest (fun x => matches x = true) len l r.
Proof.
  revert r. induction l as [|y l IH] using rev_ind; intros r H; [discriminate|].
  unfold select in H. rewrite fold_left_app in H. simpl in H.
  fold (select matches len l) in H. unfold select_step in H.
  destruct (matches y) eqn:Hy.
  - destruct (select matches len l) as [b|] eqn:Eb.
    + destruct (select_Some matches len l b Eb) as (_ & _ & Hmax).
      destruct (Nat.ltb_spec (len b) (len y)) as [Hlt|Hge]; injection H as <-.
      * exists l, []. split; [reflexivity|]. split; [exact Hy|]. split; [|intros ? []].
        intros x Hx Hm. specialize (Hmax x Hx Hm). lia.
      * destruct (IH b eq_refl) as (l1 & l2 & -> & Hm & H1 & H2).
        exists l1, (l2 ++ [y]). rewrite <- app_assoc. split; [reflexivity|].
        split; [exact Hm|]. split; [exact H1|].
        intros x Hx Hmx. apply in_app_or in Hx as [Hx|[<-|[]]]; [now apply H2|exact Hge].
    + injection H as <-. exists l, []. split; [reflexivity|]. split; [exact Hy|].
      split; [|intros ? []]. intros x Hx Hm.
      rewrite (select_None matches len l Eb x Hx) in Hm. discriminate.
  - destruct (IH r H) as (l1 & l2 & -> & Hm & H1 & H2).
    exists l1, (l2 ++ [y]). rewrite <- app_assoc. split; [reflexivity|].
    split; [exact Hm|]. split; [exact H1|].
    intros x Hx Hmx. apply in_app_or in Hx as [Hx|[<-|[]]]; [now apply H2|congruence].
Qed.

Lemma first_longest_iff (P Q : A -> Prop) (l : list A) (r : A) :
  (forall x, P x <-> Q x) -> first_longest P len l r -> first_longest Q len l r.
Proof.
  intros HPQ (l1 & l2 & -> & Hr & H1 & H2). exists l1, l2.
  split; [reflexivity|]. split; [now apply HPQ|].
  split; intros x Hx Hq; [apply H1|apply H2]; auto; now apply HPQ.
Qed.
End FirstLongest.

Lemma bytes_found_spec (in_ : list ascii) (bs : list byte) :
  forall i,
    bytes_found in_ bs i = true
    <-> forall k, k < length bs -> byte_of_ascii (ptr_index in_ (i + k)) = nth k bs x00.
Proof.
  induction bs as [|b bs IH]; intros i; simpl.
  - split; [intros _ k Hk; lia|reflexivity].
  - destruct (Byte.eqb (byte_of_ascii (ptr_index in_ i)) b) eqn:E.
    + apply byte_dec_bl in E. rewrite IH. split.
      * intros H [|k] Hk; [now rewrite Nat.add_0_r|].
        replace (i + S k) with (S i + k) by lia. apply H. lia.
      * intros H k Hk. replace (S i + k) with (i + S k) by lia. apply (H (S k)). lia.
    + split; [discriminate|]. intros H. specialize (H 0 ltac:(lia)).
      rewrite Nat.add_0_r in H. simpl in H.
      rewrite (byte_dec_lb H) in E. discriminate.
Qed.

Lemma starts_with_bytes_spec (in_ : list ascii) (bs : list byte) :
  bytes_found in_ bs 0 = true <-> starts_with_bytes in_ bs.
Proof. rewrite bytes_found_spec. reflexivity. Qed.

Lemma chars_found_spec (pat : list ascii) :
  forall rest,
    chars_found rest pat = true
    <-> forall k, k < length pat -> k < length rest -> nth k rest NUL = nth k pat NUL.
Proof.
  induction pat as [|c pat IH]; intros rest.
  - split; [intros _ k Hk; simpl in Hk; lia|now destruct rest].
  - destruct rest as [|x rest]; simpl.
    + split; [intros _ k _ Hk; lia|reflexivity].
    + destruct (Ascii.eqb_spec x c) as [->|Hne].
      * rewrite IH. split.
        -- intros H [|k] Hk Hk'; [reflexivity|]. simpl. apply H; simpl in *; lia.
        -- intros H k Hk Hk'. apply (H (S k)); simpl; lia.
      * split; [discriminate|]. intros H. specialize (H 0). simpl in H.
        exfalso. apply Hne, H; lia.
Qed.

Lemma agrees_at_spec (pat in_ : list ascii) (off : nat) :
  chars_found (ptr_add in_ off) pat = true <-> agrees_at pat in_ off.
Proof.
  rewrite chars_found_spec. unfold agrees_at, ptr_add.
  split; intros H k Hk Hk'.
  - rewrite <- (H k Hk).
    + rewrite nth_skipn. reflexivity.
    + rewrite length_skipn. lia.
  - rewrite length_skipn in Hk'. rewrite nth_skipn. apply H; lia.
Qed.

Lemma memcmp_eq_firstn (q : list ascii) :
  forall p, length q <= length p ->
            (memcmp_eq p q (length q) = true <-> firstn (length q) p = q).
Proof.
  induction q as [|c q IH]; intros p Hlen; simpl.
  - split; reflexivity.
  - destruct p as [|x p]; [simpl in Hlen; lia|]. simpl in Hlen. simpl.
    destruct (Ascii.eqb_spec x c) as [->|Hne].
    + unfold ptr_add. simpl. rewrite IH by lia. split; [now intros ->|now intros [= ->]].
    + split; [discriminate|]. intros [= ? _]. contradiction.
Qed.

Lemma occurs_at_firstn (pat in_ : list ascii) (off : nat) :
  occurs_at pat in_ off
  <-> off + length pat <= length in_ /\ firstn (length pat) (skipn off in_) = pat.
Proof.
  split.
  - intros (pre & post & -> & <-). split.
    + rewrite !length_app. lia.
    + now rewrite drop_app_length, take_app_length.
  - intros [Hlen H]. exists (firstn off in_), (skipn (length pat) (skipn off in_)).
    split.
    + rewrite <- H at 1. now rewrite !firstn_skipn.
    + rewrite length_firstn. lia.
Qed.

Lemma matches_replace_spec (pat in_ : list ascii) (off : nat) :
  off <= length in_ ->
  (negb (empty pat) && negb (size_t_sub_lt (length in_) off (length pat))
   && memcmp_eq (ptr_add in_ off) pat (length pat) = true)
  <-> (pat <> [] /\ occurs_at pat in_ off).
Proof.
  intros Hoff. unfold size_t_sub_lt.
  destruct (Nat.leb_spec off (length in_)); [|lia].
  rewrite occurs_at_firstn, !andb_true_iff, !negb_true_iff.
  destruct (Nat.ltb_spec (length in_ - off) (length pat)) as [Hlt|Hge].
  - split; [intros [[_ ?] _]; discriminate|]. intros [_ [? _]]. lia.
  - unfold ptr_add. rewrite memcmp_eq_firstn by (rewrite length_skipn; lia).
    split.
    + intros [[He _] Hf]. split; [now destruct pat|]. split; [lia|exact Hf].
    + intros [Hne [_ Hf]]. split; [split; [now destruct pat|reflexivity]|exact Hf].
Qed.

Lemma matches_encode_to_utf8_spec (in_ : list ascii) (info : EncodeInfo) :
  matches_encode_to_utf8 in_ info = true
  <-> bytes info <> [] /\ starts_with_bytes in_ (bytes info).
Proof.
  unfold matches_encode_to_utf8.
  rewrite andb_true_iff, negb_true_iff, Nat.eqb_neq, starts_with_bytes_spec.
  now destruct (bytes info).
Qed.

Lemma matches_encode_to_game_spec (in_ : list ascii) (off : nat) (info : EncodeInfo) :
  matches_encode_to_game in_ off info = true
  <-> chars info <> [] /\ agrees_at (chars info) in_ off.
Proof.
  unfold matches_encode_to_game.
  rewrite andb_true_iff, negb_true_iff, Nat.eqb_neq, agrees_at_spec.
  now destruct (chars info).
Qed.

Lemma select_None_spec {A} (matches : A -> bool) (len : A -> nat) (P : A -> Prop)
    (l : list A) :
  (forall x, matches x = true <-> P x) ->
  select matches len l = None -> forall x, In x l -> ~ P x.
Proof.
  intros HP H x Hx HPx. apply HP in HPx.
  rewrite (select_None matches len l H x Hx) in HPx. discriminate.
Qed.

(** X1: [find_encode_to_utf8] returns the first of the rules with the longest
    text among the rules whose byte pattern is not empty and stands at the
    start of the buffer, and no rule when there is none. *)
Theorem find_encode_to_utf8_spec (this : GameTextFontBank) (in_ : list ascii) :
  match find_encode_to_utf8 this in_ with
  | Some r =>
      first_longest (fun info => bytes info <> [] /\ starts_with_bytes in_ (bytes info))
        (fun info => length (chars info)) (m_encode_info this) r
  | None =>
      forall info, In info (m_encode_info this) ->
                   ~ (bytes info <> [] /\ starts_with_bytes in_ (bytes info))
  end.
Proof.
  rewrite find_encode_to_utf8_select.
  destruct (select _ _ _) as [r|] eqn:E.
  - eapply first_longest_iff; [|exact (select_first_longest _ _ _ _ E)].
    intros x. apply matches_encode_to_utf8_spec.
  - eapply select_None_spec; [|exact E]. intros x. apply matches_encode_to_utf8_spec.
Qed.

(** X2: [find_encode_to_game] returns the first of the rules with the longest
    text among the rules whose text is not empty and agrees with the
    string from [off] on as far as the string goes, and no rule when there
    is none.  A rule that fits into the rest of the string stands there. *)
Theorem find_encode_to_game_spec (this : GameTextFontBank) (in_ : list ascii)
    (off : nat) :
  match find_encode_to_game this in_ off with
  | Some r =>
      first_longest (fun info => chars info <> [] /\ agrees_at (chars info) in_ off)
        (fun info => length (chars info)) (m_encode_info this) r
      /\ (off + length (chars r) <= length in_ -> occurs_at (chars r) in_ off)
  | None =>
      forall info, In info (m_encode_info this) ->
                   ~ (chars info <> [] /\ agrees_at (chars info) in_ off)
  end.
Proof.
  rewrite find_encode_to_game_select.
  destruct (select _ _ _) as [r|] eqn:E.
  - split.
    + eapply first_longest_iff; [|exact (select_first_longest _ _ _ _ E)].
      intros x. apply matches_encode_to_game_spec.
    + intros Hfit. destruct (select_Some _ _ _ _ E) as (_ & Hm & _).
      apply matches_encode_to_game_spec in Hm as [_ Hag].
      apply occurs_at_firstn. split; [exact Hfit|].
      apply nth_ext with (d := NUL) (d' := NUL).
      * rewrite length_firstn, length_skipn. lia.
      * intros k Hk. rewrite length_firstn, length_skipn in Hk.
        rewrite nth_firstn.
        destruct (Nat.ltb_spec k (length (chars r))); [|lia].
        rewrite nth_skipn. apply Hag; lia.
  - eapply select_None_spec; [|exact E]. intros x. apply matches_encode_to_game_spec.
Qed.

(** X3: for an index inside the string, [find_replace_to_utf8] returns the
    first of the longest rules whose game side is not empty and stands in
    the string at [off], and no rule when there is none: a rule that runs
    past the end of the string is never returned. *)
Theorem find_replace_to_utf8_spec (this : GameTextFontBank) (in_ : list ascii)
    (off : nat) :
  off <= length in_ ->
  match find_replace_to_utf8 this in_ off with
  | Some r =>
      first_longest (fun info => from info <> [] /\ occurs_at (from info) in_ off)
        (fun info => length (from info)) (m_replace_info this) r
      /\ off + length (from r) <= length in_
  | None =>
      forall info, In info (m_replace_info this) ->
                   ~ (from info <> [] /\ occurs_at (from info) in_ off)
  end.
Proof.
  intros Hoff. rewrite find_replace_to_utf8_select.
  assert (Hspec : forall x, matches_replace_to_utf8 in_ off x = true
                            <-> from x <> [] /\ occurs_at (from x) in_ off)
    by (intros x; now apply matches_replace_spec).
  destruct (select _ _ _) as [r|] eqn:E.
  - split.
    + eapply first_longest_iff; [exact Hspec|exact (select_first_longest _ _ _ _ E)].
    + destruct (select_Some _ _ _ _ E) as (_ & Hm & _).
      apply Hspec in Hm as [_ Hocc]. now apply occurs_at_firstn in Hocc.
  - eapply select_None_spec; [exact Hspec|exact E].
Qed.


Lemma find_replace_to_utf8_spec_witness :
  find_replace_to_utf8 g_font_bank_jak1_v1 (str "CA~Y~-21H~-5Vº~Z~Z") 1
  = Some (RI "A~Y~-21H~-5Vº~Z" "Å")
  /\ match find_replace_to_utf8 g_font_bank_jak1_v1 (str "CA~Y~-21H~-5Vº~Z~Z") 1 with
     | Some r =>
         first_longest
           (fun info => from info <> []
                        /\ occurs_at (from info) (str "CA~Y~-21H~-5Vº~Z~Z") 1)
           (fun info => length (from info)) (m_replace_info g_font_bank_jak1_v1) r
         /\ 1 + length (from r) <= length (str "CA~Y~-21H~-5Vº~Z~Z")
     | None =>
         forall info, In info (m_replace_info g_font_bank_jak1_v1) ->
                      ~ (from info <> []
                         /\ occurs_at (from info) (str "CA~Y~-21H~-5Vº~Z~Z") 1)
     end.
Proof.
  split; [vm_compute; reflexivity|].
  apply (find_replace_to_utf8_spec g_font_bank_jak1_v1 (str "CA~Y~-21H~-5Vº~Z~Z") 1).
  vm_compute. lia.
Defined.

(** X4: for an index inside the string, [find_replace_to_game] returns the
    first of the longest rules whose display side is not empty and stands
    in the string at [off], and no rule when there is none: a rule that
    runs past the end of the string is never returned. *)
Theorem find_replace_to_game_spec (this : GameTextFontBank) (in_ : list ascii)
    (off : nat) :
  off <= length in_ ->
  match find_replace_to_game this in_ off with
  | Some r =>
      first_longest (fun info => to info <> [] /\ occurs_at (to info) in_ off)
        (fun info => length (to info)) (m_replace_info this) r
      /\ off + length (to r) <= length in_
  | None =>
      forall info, In info (m_replace_info this) ->
                   ~ (to info <> [] /\ occurs_at (to info) in_ off)
  end.
Proof.
  intros Hoff. rewrite find_replace_to_game_select.
  assert (Hspec : forall x, matches_replace_to_game in_ off x = true
                            <-> to x <> [] /\ occurs_at (to x) in_ off)
    by (intros x; now apply matches_replace_spec).
  destruct (select _ _ _) as [r|] eqn:E.
  - split.
    + eapply first_longest_iff; [exact Hspec|exact (select_first_longest _ _ _ _ E)].
    + destruct (select_Some _ _ _ _ E) as (_ & Hm & _).
      apply Hspec in Hm as [_ Hocc]. now apply occurs_at_firstn in Hocc.
  - eapply select_None_spec; [exact Hspec|exact E].
Qed.

Lemma find_replace_to_game_spec_witness :
  find_replace_to_game g_font_bank_jak2 (str "AÑO") 1
  = Some (RI "N~Y~-22H~-4V<TIL>~Z" "Ñ")
  /\ find_replace_to_game g_font_bank_jak2 (str "<PAD_") 0 = None
  /\ match find_replace_to_game g_font_bank_jak2 (str "AÑO") 1 with
     | Some r =>
         first_longest
           (fun info => to info <> [] /\ occurs_at (to info) (str "AÑO") 1)
           (fun info => length (to info)) (m_replace_info g_font_bank_jak2) r
         /\ 1 + length (to r) <= length (str "AÑO")
     | None =>
         forall info, In info (m_replace_info g_font_bank_jak2) ->
                      ~ (to info <> [] /\ occurs_at (to info) (str "AÑO") 1)
     end.
Proof.
  split; [vm_compute; reflexivity|]. split; [vm_compute; reflexivity|].
  apply (find_replace_to_game_spec g_font_bank_jak2 (str "AÑO") 1).
  vm_compute. lia.
Defined.

(** ** The order of the rules and the reverse direction *)

(** X5: for a bank with distinct rules, which the three shipped banks are,
    the order in which [std::sort] leaves the rules has no influence on
    the reverse direction: the byte resolver, the two replace resolvers,
    the two replace loops, the validity test and [convert_game_to_utf8]
    give the same results on the rules in any order. *)
Theorem reverse_transcoder_any_order (a b : GameTextFontBank) :
  rules_distinct a = true ->
  same_rules a b ->
  (forall in_, find_encode_to_utf8 b in_ = find_encode_to_utf8 a in_)
  /\ (forall in_ off, find_replace_to_utf8 b in_ off = find_replace_to_utf8 a in_ off)
  /\ (forall in_ off, find_replace_to_game b in_ off = find_replace_to_game a in_ off)
  /\ (forall s, replace_to_utf8 b s = replace_to_utf8 a s)
  /\ (forall s, replace_to_game b s = replace_to_game a s)
  /\ (forall c, valid_char_range b c = valid_char_range a c)
  /\ (forall in_ korean seqs,
        convert_game_to_utf8 b in_ korean seqs = convert_game_to_utf8 a in_ korean seqs).
Proof.
  intros Hd Hs. split_and!.
  - apply (find_encode_to_utf8_perm a b Hd Hs).
  - apply (find_replace_to_utf8_perm a b Hd Hs).
  - apply (find_replace_to_game_perm a b Hd Hs).
  - apply (replace_to_utf8_perm a b Hd Hs).
  - apply (replace_to_game_perm a b Hd Hs).
  - apply (valid_char_range_perm a b Hs).
  - apply (convert_game_to_utf8_perm a b Hd Hs).
Qed.

Lemma reverse_transcoder_any_order_witness :
  let a := g_font_bank_jak2 in
  let b := {| m_version := JAK2;
              m_encode_info := rev (m_encode_info g_font_bank_jak2);
              m_replace_info := rev (m_replace_info g_font_bank_jak2);
              m_passthrus := s_passthrus_jak2 |} in
  (forall in_, find_encode_to_utf8 b in_ = find_encode_to_utf8 a in_)
  /\ (forall in_ off, find_replace_to_utf8 b in_ off = find_replace_to_utf8 a in_ off)
  /\ (forall in_ off, find_replace_to_game b in_ off = find_replace_to_game a in_ off)
  /\ (forall s, replace_to_utf8 b s = replace_to_utf8 a s)
  /\ (forall s, replace_to_game b s = replace_to_game a s)
  /\ (forall c, valid_char_range b c = valid_char_range a c)
  /\ (forall in_ korean seqs,
        convert_game_to_utf8 b in_ korean seqs = convert_game_to_utf8 a in_ korean seqs).
Proof.
  apply reverse_transcoder_any_order.
  - vm_compute. reflexivity.
  - unfold same_rules. cbn [m_version m_passthrus m_encode_info m_replace_info].
    split; [reflexivity|]. split; [reflexivity|].
    split; apply Permutation_rev.
Defined.

(** ** What the escape stage can throw *)

Lemma backslash_then_cons (p c : ascii) (s : list ascii) :
  backslash_then p s -> backslash_then p (c :: s).
Proof. intros (pre & rest & ->). now exists (c :: pre), rest. Qed.

Lemma unescape_from_errors (n : nat) :
  forall rest newstr e,
    length rest <= n ->
    unescape_from rest newstr = Err e ->
    e = incomplete_string_escape_code
    \/ e = invalid_character_escape_hex_number
    \/ exists p, e = unknown_string_escape_code p /\ backslash_then p rest
                 /\ p <> "c"%char /\ p <> DQUOTE /\ p <> BACKSLASH.
Proof.
  induction n as [|n IH]; intros rest newstr e Hlen H.
  - destruct rest; [discriminate|simpl in Hlen; lia].
  - destruct rest as [|c rest1]; [discriminate|]. cbn [unescape_from] in H.
    simpl in Hlen.
    assert (Hcons : forall t ns, length t <= n -> unescape_from t ns = Err e ->
              forall front, rest1 = front ++ t ->
              e = incomplete_string_escape_code
              \/ e = invalid_character_escape_hex_number
              \/ exists p, e = unknown_string_escape_code p
                           /\ backslash_then p (c :: rest1)
                           /\ p <> "c"%char /\ p <> DQUOTE /\ p <> BACKSLASH).
    { intros t ns Ht He front ->.
      destruct (IH t ns e Ht He) as [?|[?|(p & ? & (pre & post & ->) & ?)]]; auto.
      right; right. exists p. split; [assumption|]. split; [|assumption].
      exists (c :: front ++ pre), post. cbn [app]. now rewrite <- app_assoc. }
    destruct (Ascii.eqb c DQUOTE).
    + destruct rest1 as [|x rest2]; [discriminate|].
      apply (Hcons rest2 _ ltac:(simpl in Hlen; lia) H [x]). reflexivity.
    + destruct (Ascii.eqb_spec c BACKSLASH) as [->|_].
      * destruct rest1 as [|p rest2]; [injection H as <-; now left|].
        destruct (Ascii.eqb_spec p "c") as [->|Hpc].
        -- destruct rest2 as [|first [|second rest4]];
             try (injection H as <-; now left).
           destruct (hex_char first) eqn:H1, (hex_char second) eqn:H2;
             cbn [negb orb] in H;
             try (injection H as <-; right; now left).
           destruct (stoul16_two_digits first second H1 H2) as (value & Ev & Hv).
           rewrite Ev in H. cbn [Nat.eqb negb] in H.
           destruct (Z.ltb_spec value 256); [|lia]. cbn [negb] in H.
           apply (Hcons rest4 _ ltac:(simpl in Hlen; lia) H ["c"%char; first; second]).
           reflexivity.
        -- destruct (Ascii.eqb_spec p DQUOTE) as [->|Hpq].
           { cbn [orb] in H.
             apply (Hcons rest2 _ ltac:(simpl in Hlen; lia) H [DQUOTE]). reflexivity. }
           destruct (Ascii.eqb_spec p BACKSLASH) as [->|Hpb].
           { cbn [orb] in H.
             apply (Hcons rest2 _ ltac:(simpl in Hlen; lia) H [BACKSLASH]). reflexivity. }
           cbn [orb] in H. injection H as <-. right; right. exists p.
           split; [reflexivity|]. split; [now exists [], rest2|]. auto.
      * apply (Hcons rest1 _ ltac:(lia) H []). reflexivity.
Qed.

(** X7: [convert_utf8_to_game] throws with escaping enabled only, and then
    one of three errors: incomplete string escape code, invalid character
    escape hex number, or unknown string escape code for a character other
    than c, double quote and backslash that follows a backslash in the
    text.  The error invalid character escape and the assertion on the
    value of a [\c] escape are never reached. *)
Theorem convert_utf8_to_game_errors (this : GameTextFontBank) (s : list ascii)
    (escape : bool) (e : exception) :
  convert_utf8_to_game this s escape = Err e ->
  escape = true
  /\ (e = incomplete_string_escape_code
      \/ e = invalid_character_escape_hex_number
      \/ exists p, e = unknown_string_escape_code p /\ backslash_then p s
                   /\ p <> "c"%char /\ p <> DQUOTE /\ p <> BACKSLASH).
Proof.
  intros H. destruct escape; [|discriminate]. split; [reflexivity|].
  rewrite convert_utf8_to_game_escape, unescape_unescape_from in H.
  destruct (unescape_from s []) as [newstr|e'] eqn:E; [discriminate|].
  injection H as <-. exact (unescape_from_errors (length s) s [] e' (le_n _) E).
Qed.

Lemma convert_utf8_to_game_errors_witness :
  true = true
  /\ (unknown_string_escape_code "q" = incomplete_string_escape_code
      \/ unknown_string_escape_code "q" = invalid_character_escape_hex_number
      \/ exists p, unknown_string_escape_code "q" = unknown_string_escape_code p
                   /\ backslash_then p (str "AB\qC")
                   /\ p <> "c"%char /\ p <> DQUOTE /\ p <> BACKSLASH).
Proof.
  apply (convert_utf8_to_game_errors g_font_bank_jak2 (str "AB\qC") true).
  vm_compute. reflexivity.
Defined.

(** ** The escape of a byte, written and read *)

Lemma unescape_format_c02x (c : ascii) : unescape (format_c02x c) = Ok [c].
Proof. destruct c as [[] [] [] [] [] [] [] []]; vm_compute; reflexivity. Qed.

(** X8: the escape that [convert_game_to_utf8] writes for a byte it cannot
    show, [\c] and two hexadecimal digits, is read by [convert_utf8_to_game]
    with escaping as that byte, for every byte value and every bank. *)
Theorem convert_utf8_to_game_format_c02x (this : GameTextFontBank) (c : ascii) :
  convert_utf8_to_game this (format_c02x c) true = convert_utf8_to_game this [c] false.
Proof.
  rewrite convert_utf8_to_game_escape, unescape_format_c02x. reflexivity.
Qed.

(** ** Text without escapes *)

(** X9: on a text without double quote and backslash the escaping flag makes
    no difference. *)
Theorem convert_utf8_to_game_no_escape (this : GameTextFontBank) (s : list ascii) :
  forallb (fun c => negb (Ascii.eqb c DQUOTE) && negb (Ascii.eqb c BACKSLASH)) s = true ->
  convert_utf8_to_game this s true = convert_utf8_to_game this s false.
Proof.
  intros H.
  rewrite convert_utf8_to_game_escape, unescape_unescape_from, (unescape_from_plain s [] H).
  reflexivity.
Qed.

Lemma convert_utf8_to_game_no_escape_witness :
  convert_utf8_to_game g_font_bank_jak1_v1 (str "CAFÉS <PAD_X>") true
  = convert_utf8_to_game g_font_bank_jak1_v1 (str "CAFÉS <PAD_X>") false.
Proof.
  apply (convert_utf8_to_game_no_escape g_font_bank_jak1_v1 (str "CAFÉS <PAD_X>")).
  vm_compute. reflexivity.
Defined.

Lemma convert_game_to_utf8_same_text_witness :
  convert_game_to_utf8 g_font_bank_jak2 ["A"; "000"; "B"]%char false []
  = convert_game_to_utf8 g_font_bank_jak2 ["A"; "000"; "C"; "D"]%char false [].
Proof.
  apply (convert_game_to_utf8_same_text g_font_bank_jak2).
  - exact (proj2 (proj2 shipped_rules_without_nul)).
  - reflexivity.
Defined.

(** ** The accumulator of the Korean pre-pass *)

Lemma sort_insert_lt (x : Z) (l : list Z) :
  StronglySorted Z.lt l -> ~ In x l ->
  StronglySorted Z.lt (sort_insert Z.ltb x l)
  /\ forall v, In v (sort_insert Z.ltb x l) <-> v = x \/ In v l.
Proof.
  induction l as [|y l IH]; intros Hs Hx.
  - split; [repeat constructor|]. intros v. simpl. intuition.
  - inversion Hs as [|? ? Hl Hy]; subst. cbn [sort_insert].
    destruct (Z.ltb_spec y x) as [Hlt|Hge].
    + destruct (IH Hl) as [IHs IHin]; [intros ?; apply Hx; now right|].
      split.
      * constructor; [exact IHs|]. apply List.Forall_forall. intros v Hv.
        apply IHin in Hv as [->|Hv]; [exact Hlt|].
        rewrite List.Forall_forall in Hy. now apply Hy.
      * intros v. simpl. rewrite IHin. intuition.
    + assert (x < y)%Z as Hxy.
      { destruct (Z.eq_dec x y) as [->|]; [exfalso; apply Hx; now left|lia]. }
      split.
      * constructor; [exact Hs|]. constructor; [exact Hxy|].
        rewrite List.Forall_forall in Hy. apply List.Forall_forall. intros v Hv.
        specialize (Hy v Hv). lia.
      * intros v. simpl. intuition.
Qed.

Lemma std_sort_push_back (x : Z) (l : list Z) :
  StronglySorted Z.lt l -> ~ In x l ->
  StronglySorted Z.lt (std_sort Z.ltb (l ++ [x]))
  /\ forall v, In v (std_sort Z.ltb (l ++ [x])) <-> In v l \/ v = x.
Proof.
  induction l as [|a l IH]; intros Hs Hx.
  - split; [repeat constructor|]. intros v. simpl. intuition.
  - inversion Hs as [|? ? Hl Ha]; subst.
    destruct (IH Hl) as [IHs IHin]; [intros ?; apply Hx; now right|].
    cbn [app std_sort].
    destruct (sort_insert_lt a (std_sort Z.ltb (l ++ [x])) IHs) as [Hs' Hin'].
    + rewrite IHin. intros [Hin| ->]; [|apply Hx; now left].
      rewrite List.Forall_forall in Ha. specialize (Ha a Hin). lia.
    + split; [exact Hs'|]. intros v. rewrite Hin', IHin. simpl. intuition.
Qed.

Lemma seqs_push_back (seq : Z) (seqs : list Z) :
  StronglySorted Z.lt seqs ->
  let seqs1 := if negb (existsb (Z.eqb seq) seqs)
               then std_sort Z.ltb (seqs ++ [seq]) else seqs in
  StronglySorted Z.lt seqs1 /\ forall v, In v seqs -> In v seqs1.
Proof.
  intros Hs. cbv zeta. destruct (existsb (Z.eqb seq) seqs) eqn:E; cbn [negb].
  - split; [exact Hs|auto].
  - assert (~ In seq seqs) as Hnotin.
    { intros Hin. assert (existsb (Z.eqb seq) seqs = true) as Ht.
      { apply existsb_exists. exists seq. split; [exact Hin|apply Z.eqb_refl]. }
      rewrite Ht in E. discriminate. }
    destruct (std_sort_push_back seq seqs Hs Hnotin) as [Hsorted Hin].
    split; [exact Hsorted|]. intros v Hv. apply Hin. now left.
Qed.

Lemma korean_loop_seqs (fuel : nat) :
  forall in_ out seqs,
    StronglySorted Z.lt seqs ->
    StronglySorted Z.lt (snd (korean_loop fuel in_ out seqs))
    /\ forall v, In v seqs -> In v (snd (korean_loop fuel in_ out seqs)).
Proof.
  induction fuel as [|fuel IH]; intros in_ out seqs Hs; [now split|].
  cbn [korean_loop].
  destruct (Ascii.eqb (deref in_) NUL); [now split|].
  destruct (Ascii.eqb (deref in_) "003").
  - destruct (korean_ascii_run (ptr_add in_ 1) out) as [in1 out1]. now apply IH.
  - destruct (korean_jamo_run (ptr_add (ptr_add in_ 1) 1) 0 0 out) as [[in3 seq] out1].
    destruct (seqs_push_back seq seqs Hs) as [Hs1 Hin1].
    destruct (IH in3 out1 _ Hs1) as [Hs2 Hin2].
    split; [exact Hs2|]. intros v Hv. apply Hin2, Hin1, Hv.
Qed.

Lemma convert_game_to_utf8_snd this in_ korean seqs :
  snd (convert_game_to_utf8 this in_ korean seqs)
  = if korean then snd (convert_korean_text_from_game in_ seqs) else seqs.
Proof.
  unfold convert_game_to_utf8. destruct korean.
  - now destruct (convert_korean_text_from_game in_ seqs).
  - reflexivity.
Qed.

Lemma run_seqs version op g :
  StronglySorted Z.lt (seqs g) -> StronglySorted Z.lt (seqs (snd (run version op g))).
Proof.
  intros Hs. unfold run, bind, get_font_bank_version.
  destruct (g_font_banks g !! version) as [this|]; [|exact Hs].
  destruct op; cbn [run_on]; unfold bind, ret; try exact Hs.
  - unfold do_convert_utf8_to_game, lift.
    destruct (convert_utf8_to_game this str_ escape); exact Hs.
  - unfold do_convert_game_to_utf8.
    pose proof (convert_game_to_utf8_snd this in_ korean (seqs g)) as E.
    destruct (convert_game_to_utf8 this in_ korean (seqs g)) as [out seqs'].
    cbn [snd seqs] in *. subst seqs'. destruct korean; [|exact Hs].
    apply korean_loop_seqs, Hs.
Qed.

(** X14: the accumulator [seqs] of the Korean pre-pass is kept in strictly
    increasing order, so without duplicates, and nothing is ever taken out
    of it by a conversion: [convert_game_to_utf8] keeps the order and every
    element, and after any sequence of operations on the registered banks
    [seqs] is strictly increasing. *)
Theorem seqs_sorted_invariant :
  (forall this in_ korean seqs,
      StronglySorted Z.lt seqs ->
      StronglySorted Z.lt (snd (convert_game_to_utf8 this in_ korean seqs))
      /\ forall v, In v seqs -> In v (snd (convert_game_to_utf8 this in_ korean seqs)))
  /\ (forall ops, StronglySorted Z.lt (seqs (run_all ops initial_globals))).
Proof.
  split.
  - intros this in_ korean seqs Hs. rewrite convert_game_to_utf8_snd.
    destruct korean; [apply korean_loop_seqs, Hs|now split].
  - intros ops.
    assert (H : forall g, StronglySorted Z.lt (seqs g) ->
                          StronglySorted Z.lt (seqs (run_all ops g))).
    { induction ops as [|[version op] ops IH]; intros g Hg; [exact Hg|].
      cbn [run_all]. apply IH, run_seqs, Hg. }
    apply H. constructor.
Qed.

(** ** The accumulator has no part in the text *)

Lemma korean_loop_fst (fuel : nat) :
  forall in_ out seqs1 seqs2,
    fst (korean_loop fuel in_ out seqs1) = fst (korean_loop fuel in_ out seqs2).
Proof.
  induction fuel as [|fuel IH]; intros in_ out seqs1 seqs2; [reflexivity|].
  cbn [korean_loop].
  destruct (Ascii.eqb (deref in_) NUL); [reflexivity|].
  destruct (Ascii.eqb (deref in_) "003").
  - destruct (korean_ascii_run (ptr_add in_ 1) out) as [in1 out1]. apply IH.
  - destruct (korean_jamo_run (ptr_add (ptr_add in_ 1) 1) 0 0 out) as [[in3 seq] out1].
    apply IH.
Qed.

(** X13: the text that [convert_game_to_utf8] returns does not depend on the
    accumulator [seqs], with or without the Korean pre-pass, and without
    the pre-pass the accumulator is left as it is. *)
Theorem convert_game_to_utf8_seqs (this : GameTextFontBank) (in_ : list ascii)
    (korean : bool) (seqs1 seqs2 : list Z) :
  fst (convert_game_to_utf8 this in_ korean seqs1)
  = fst (convert_game_to_utf8 this in_ korean seqs2)
  /\ snd (convert_game_to_utf8 this in_ false seqs1) = seqs1.
Proof.
  split; [|reflexivity].
  unfold convert_game_to_utf8. destruct korean; [|reflexivity].
  pose proof (korean_loop_fst (length in_) in_ [] seqs1 seqs2) as E.
  unfold convert_korean_text_from_game.
  destruct (korean_loop (length in_) in_ [] seqs1) as [o1 s1].
  destruct (korean_loop (length in_) in_ [] seqs2) as [o2 s2].
  cbn [fst] in *. now subst.
Qed.

(** ** Names and versions *)

Lemma sTextVerEnumMap_lookup_Some (name : string) (version : GameTextVersion) :
  sTextVerEnumMap !! name = Some version
  <-> (name = "jak1-v1"%string /\ version = JAK1_V1)
      \/ (name = "jak1-v2"%string /\ version = JAK1_V2)
      \/ (name = "jak2"%string /\ version = JAK2).
Proof.
  unfold sTextVerEnumMap. rewrite !lookup_insert_Some, lookup_empty.
  split.
  - intros [[<- <-]|[_ [[<- <-]|[_ [[<- <-]|[_ ?]]]]]]; auto. discriminate.
  - intros [[-> ->]|[[-> ->]|[-> ->]]].
    + now left.
    + right. split; [discriminate|]. now left.
    + right. split; [discriminate|]. right. split; [discriminate|]. now left.
Qed.

Lemma get_text_version_name_in_found (entries : list (string * GameTextVersion))
    (name : string) (version : GameTextVersion) :
  (forall other, In (other, version) entries -> other = name) ->
  In (name, version) entries ->
  get_text_version_name_in entries version = Some name.
Proof.
  induction entries as [|[n v] entries IH]; intros Huniq Hin; [destruct Hin|].
  cbn [get_text_version_name_in].
  destruct (bool_decide_reflect (v = version)) as [->|Hne].
  - f_equal. apply Huniq. now left.
  - apply IH.
    + intros other Ho. apply Huniq. now right.
    + destruct Hin as [[= -> ->]|Hin]; [contradiction|exact Hin].
Qed.

(** X16: names and versions stand in a one-to-one relation, in whatever
    order the map of the names is visited: [get_text_version_name] finds a
    name for each of the three versions and [get_text_version_from_name]
    takes that name back to the version; a registered name comes back from
    its version; for a name that is not registered
    [get_text_version_from_name] throws [out_of_range]; and with the
    registry as initialised [get_font_bank] by the name of a version
    returns the bank that [get_font_bank] by the version returns. *)
Theorem get_text_version_name_round_trip (entries : list (string * GameTextVersion)) :
  Permutation entries (map_to_list sTextVerEnumMap) ->
  (forall version,
      exists name,
        get_text_version_name_in entries version = Some name
        /\ get_text_version_from_name name = Ok version)
  /\ (forall name version,
        get_text_version_from_name name = Ok version ->
        get_text_version_name_in entries version = Some name)
  /\ (forall name,
        sTextVerEnumMap !! name = None ->
        get_text_version_from_name name = Err out_of_range)
  /\ (forall version,
        exists name bank,
          get_text_version_name_in entries version = Some name
          /\ get_font_bank name initial_globals = (Ok bank, initial_globals)
          /\ get_font_bank_version version initial_globals = (Ok bank, initial_globals)
          /\ m_version bank = version).
Proof.
  intros Hperm.
  assert (Hin : forall name version,
             In (name, version) entries <-> sTextVerEnumMap !! name = Some version).
  { intros name version. rewrite <- elem_of_map_to_list, <- list_elem_of_In.
    now rewrite Hperm. }
  assert (Hfound : forall name version,
             sTextVerEnumMap !! name = Some version ->
             get_text_version_name_in entries version = Some name).
  { intros name version Hl. apply get_text_version_name_in_found.
    - intros other Ho. apply Hin in Ho.
      apply sTextVerEnumMap_lookup_Some in Ho, Hl.
      destruct Ho as [[-> ->]|[[-> ->]|[-> ->]]];
        destruct Hl as [[-> ?]|[[-> ?]|[-> ?]]]; congruence.
    - now apply Hin. }
  split_and!.
  - intros version.
    assert (exists name, sTextVerEnumMap !! name = Some version) as [name Hl].
    { destruct version;
        [exists "jak1-v1"%string|exists "jak1-v2"%string|exists "jak2"%string];
        apply sTextVerEnumMap_lookup_Some; auto. }
    exists name. split; [now apply Hfound|].
    unfold get_text_version_from_name. now rewrite Hl.
  - intros name version H. unfold get_text_version_from_name in H.
    destruct (sTextVerEnumMap !! name) as [v|] eqn:Hl; [|discriminate].
    injection H as ->. now apply Hfound.
  - intros name Hl. unfold get_text_version_from_name. now rewrite Hl.
  - intros version.
    assert (exists name, sTextVerEnumMap !! name = Some version) as [name Hl].
    { destruct version;
        [exists "jak1-v1"%string|exists "jak1-v2"%string|exists "jak2"%string];
        apply sTextVerEnumMap_lookup_Some; auto. }
    destruct (initial_banks version) as (bank & Hb & Hv & _).
    assert (Hv' : get_font_bank_version version initial_globals
                  = (Ok bank, initial_globals)).
    { unfold get_font_bank_version. cbv beta.
      destruct (g_font_banks initial_globals !! version); [|discriminate].
      now injection Hb as ->. }
    exists name, bank. split; [now apply Hfound|]. split; [|split; assumption].
    unfold get_font_bank. destruct (sTextVerEnumMap !! name); [|discriminate].
    injection Hl as ->. exact Hv'.
Qed.

Lemma get_text_version_name_round_trip_witness :
  (forall version,
      exists name,
        get_text_version_name version = Some name
        /\ get_text_version_from_name name = Ok version)
  /\ (forall name version,
        get_text_version_from_name name = Ok version ->
        get_text_version_name version = Some name)
  /\ (forall name,
        sTextVerEnumMap !! name = None ->
        get_text_version_from_name name = Err out_of_range)
  /\ (forall version,
        exists name bank,
          get_text_version_name version = Some name
          /\ get_font_bank name initial_globals = (Ok bank, initial_globals)
          /\ get_font_bank_version version initial_globals = (Ok bank, initial_globals)
          /\ m_version bank = version).
Proof.
  apply (get_text_version_name_round_trip (map_to_list sTextVerEnumMap)).
  reflexivity.
Defined.

(** ** The registry of the banks *)

(** X17: [font_bank_exists] tells whether [get_font_bank] by version returns
    a bank or throws [out_of_range], and neither changes the globals; with
    the registry as initialised a bank exists for each version and it is of
    that version. *)
Theorem font_bank_exists_spec (version : GameTextVersion) (g : Globals) :
  ((font_bank_exists version g = (Ok true, g)
    /\ exists bank, get_font_bank_version version g = (Ok bank, g))
   \/ (font_bank_exists version g = (Ok false, g)
       /\ get_font_bank_version version g = (Err out_of_range, g)))
  /\ font_bank_exists version initial_globals = (Ok true, initial_globals)
  /\ exists bank,
       get_font_bank_version version initial_globals = (Ok bank, initial_globals)
       /\ m_version bank = version.
Proof.
  split.
  - unfold font_bank_exists, get_font_bank_version.
    destruct (g_font_banks g !! version) as [bank|] eqn:E.
    + left. split; [|now exists bank].
      rewrite bool_decide_true; [reflexivity|]. now exists bank.
    + right. split; [|reflexivity].
      rewrite bool_decide_false; [reflexivity|]. intros [? ?]. discriminate.
  - destruct (initial_banks version) as (bank & Hl & Hv & _).
    unfold font_bank_exists, get_font_bank_version. cbv beta.
    destruct (g_font_banks initial_globals !! version) as [bank'|]; [|discriminate].
    injection Hl as ->. split.
    + rewrite bool_decide_true; [reflexivity|]. now exists bank.
    + now exists bank.
Qed.

(** ** Tab and newline in the output of the reverse transcoder *)

Lemma In_ptr_add (s : list ascii) (k : nat) (c : ascii) :
  In c (ptr_add s k) -> In c s.
Proof.
  unfold ptr_add. revert k. induction s as [|x s IH]; intros k H.
  - destruct k; destruct H.
  - destruct k; [exact H|]. right. apply (IH k H).
Qed.

(** A character written by [replace_to_utf8] comes from the string or from
    the display side of a rule. *)
Lemma replace_to_utf8_In this (s : list ascii) (c : ascii) :
  In c (replace_to_utf8 this s) ->
  In c s \/ exists r, In r (m_replace_info this) /\ In c (to r).
Proof.
  rewrite replace_to_utf8_rounds_text. revert c.
  apply (rounds_ind (find_replace_to_utf8 this) (fun remap => length (from remap))
           ltac:(intros t i Hi; now apply find_replace_to_utf8_rest)
           ltac:(intros t i r Hr;
                 now destruct (find_replace_to_utf8_Some _ _ _ _ Hr) as (_ & ? & _))
           (fun s rs => forall c, In c (flat_map display_piece rs) ->
                                  In c s \/ exists r, In r (m_replace_info this)
                                                      /\ In c (to r))).
  - intros c [].
  - intros x t _ IH c Hc. cbn [flat_map] in Hc. unfold display_piece at 1 in Hc.
    cbn [fst snd deref hd app] in Hc. destruct Hc as [<-|Hc]; [left; now left|].
    destruct (IH c Hc) as [?|?]; [left; now right|now right].
  - intros x t r Hr IH c Hc. cbn [flat_map] in Hc. unfold display_piece at 1 in Hc.
    cbn [fst snd] in Hc. apply in_app_or in Hc as [Hc|Hc].
    + right. exists r. split; [|exact Hc].
      now destruct (find_replace_to_utf8_Some _ _ _ _ Hr) as (? & _).
    + destruct (IH c Hc) as [H|H]; [left; eapply In_ptr_add; exact H|now right].
Qed.

Lemma escape_body_no_newline (temp : list ascii) (fuel : nat) :
  forall i acc,
    (forall c, In c acc -> c <> NEWLINE /\ c <> TAB) ->
    forall c, In c (for_index fuel (length temp) (escape_body temp) i acc) ->
              c <> NEWLINE /\ c <> TAB.
Proof.
  induction fuel as [|fuel IH]; intros i acc Hacc; [exact Hacc|].
  cbn [for_index]. destruct (i <? length temp); [|exact Hacc].
  unfold escape_body. apply IH. intros c Hc.
  destruct (Ascii.eqb_spec (nth i temp NUL) NEWLINE) as [En|En].
  { apply in_app_or in Hc as [Hc|[<-|[<-|[]]]]; [now apply Hacc|split; discriminate..]. }
  destruct (Ascii.eqb_spec (nth i temp NUL) TAB) as [Et|Et].
  { apply in_app_or in Hc as [Hc|[<-|[<-|[]]]]; [now apply Hacc|split; discriminate..]. }
  destruct (Ascii.eqb_spec (nth i temp NUL) BACKSLASH) as [Eb|Eb].
  { destruct ((i <? length temp - 1) && Ascii.eqb (nth (i + 1) temp NUL) "c").
    - apply in_app_or in Hc as [Hc|[<-|[]]]; [now apply Hacc|].
      rewrite Eb. split; discriminate.
    - apply in_app_or in Hc as [Hc|[<-|[<-|[]]]]; [now apply Hacc|split; discriminate..]. }
  destruct (Ascii.eqb_spec (nth i temp NUL) DQUOTE) as [Eq|Eq].
  { apply in_app_or in Hc as [Hc|[<-|[<-|[]]]]; [now apply Hacc|split; discriminate..]. }
  apply in_app_or in Hc as [Hc|[<-|[]]]; [now apply Hacc|]. now split.
Qed.

(** X12: the text that [convert_game_to_utf8] returns holds no tab and no
    newline character, whatever the input (a tab and a newline of the game
    text are written as the two characters of [\t] and [\n]), for every
    bank in which no replace rule has one in its display side. *)
Theorem convert_game_to_utf8_no_newline (this : GameTextFontBank) (in_ : list ascii)
    (korean : bool) (seqs : list Z) :
  forallb (fun info =>
             forallb (fun c => negb (Ascii.eqb c NEWLINE) && negb (Ascii.eqb c TAB))
               (to info)) (m_replace_info this) = true ->
  forallb (fun c => negb (Ascii.eqb c NEWLINE) && negb (Ascii.eqb c TAB))
    (fst (convert_game_to_utf8 this in_ korean seqs)) = true.
Proof.
  intros Hrules. rewrite forallb_forall in Hrules.
  apply forallb_forall. intros c Hc.
  assert (c <> NEWLINE /\ c <> TAB) as [Hn Ht].
  { unfold convert_game_to_utf8 in Hc.
    destruct (if korean then convert_korean_text_from_game in_ seqs else (in_, seqs))
      as [in1 seqs1].
    cbn [fst] in Hc. apply replace_to_utf8_In in Hc as [Hc|(r & Hr & Hc)].
    - eapply escape_body_no_newline; [|exact Hc]. intros ? [].
    - specialize (Hrules r Hr). rewrite forallb_forall in Hrules.
      specialize (Hrules c Hc). apply andb_true_iff in Hrules as [H1 H2].
      apply negb_true_iff in H1, H2. split; now apply Ascii.eqb_neq. }
  apply andb_true_iff. split; apply negb_true_iff; now apply Ascii.eqb_neq.
Qed.

Lemma convert_game_to_utf8_no_newline_witness :
  fst (convert_game_to_utf8 g_font_bank_jak2 ["A"; "010"; "009"; "B"]%char false [])
  = str "A\n\tB"
  /\ forallb (fun c => negb (Ascii.eqb c NEWLINE) && negb (Ascii.eqb c TAB))
       (fst (convert_game_to_utf8 g_font_bank_jak2 ["A"; "010"; "009"; "B"]%char false []))
     = true.
Proof.
  split; [vm_compute; reflexivity|].
  apply (convert_game_to_utf8_no_newline g_font_bank_jak2).
  vm_compute. reflexivity.
Defined.

(** ** The format of the Korean pre-pass *)

Lemma korean_ascii_run_out (in_ : list ascii) :
  forall out,
    korean_ascii_run in_ out
    = (fst (korean_ascii_run in_ []), out ++ snd (korean_ascii_run in_ [])).
Proof.
  induction in_ as [|c in_ IH]; intros out; cbn [korean_ascii_run].
  - now rewrite app_nil_r.
  - destruct (negb (Ascii.eqb c NUL) && negb (Ascii.eqb c "003")
              && negb (Ascii.eqb c "004")).
    + rewrite (IH (out ++ [c])), (IH ([] ++ [c])). cbn [fst snd app].
      now rewrite <- app_assoc.
    + cbn [fst snd]. now rewrite app_nil_r.
Qed.

Lemma korean_jamo_run_out (n : nat) :
  forall in_ i seq out,
    length in_ <= n ->
    korean_jamo_run in_ i seq out
    = (fst (korean_jamo_run in_ i seq []), out ++ snd (korean_jamo_run in_ i seq [])).
Proof.
  induction n as [|n IH]; intros in_ i seq out Hlen.
  - destruct in_; [|simpl in Hlen; lia]. cbn [korean_jamo_run fst snd].
    now rewrite app_nil_r.
  - destruct in_ as [|c in']; [cbn [korean_jamo_run fst snd]; now rewrite app_nil_r|].
    simpl in Hlen. cbn [korean_jamo_run].
    destruct (negb (Ascii.eqb c NUL) && negb (Ascii.eqb c "003")
              && negb (Ascii.eqb c "004"));
      [|cbn [fst snd]; now rewrite app_nil_r].
    destruct (Ascii.eqb c "005").
    + destruct in' as [|d in'']; [cbn [fst snd app]; reflexivity|].
      simpl in Hlen.
      rewrite (IH in'' _ _ (out ++ _)) by lia.
      rewrite (IH in'' _ _ ([] ++ _)) by lia.
      cbn [fst snd app]. now rewrite <- app_assoc.
    + rewrite (IH in' _ _ (out ++ _)) by lia.
      rewrite (IH in' _ _ ([] ++ _)) by lia.
      cbn [fst snd app]. now rewrite <- app_assoc.
Qed.

Lemma korean_loop_out (fuel : nat) :
  forall in_ out seqs,
    fst (korean_loop fuel in_ out seqs) = out ++ fst (korean_loop fuel in_ [] seqs).
Proof.
  induction fuel as [|fuel IH]; intros in_ out seqs; cbn [korean_loop].
  - cbn [fst]. now rewrite app_nil_r.
  - destruct (Ascii.eqb (deref in_) NUL); [cbn [fst]; now rewrite app_nil_r|].
    destruct (Ascii.eqb (deref in_) "003").
    + rewrite (korean_ascii_run_out _ out).
      destruct (korean_ascii_run (ptr_add in_ 1) []) as [in1 o1]. cbn [fst snd app].
      rewrite (IH in1 (out ++ o1)), (IH in1 o1). now rewrite <- app_assoc.
    + rewrite (korean_jamo_run_out _ _ _ _ out (le_n _)).
      destruct (korean_jamo_run (ptr_add (ptr_add in_ 1) 1) 0 0 []) as [[in3 seq] o1].
      cbn [fst snd app].
      rewrite (IH in3 (out ++ o1)), (IH in3 o1). now rewrite <- app_assoc.
Qed.

(** The end of a run: the end of the buffer, a terminator or one of the
    markers 3 and 4. *)
Lemma korean_ascii_run_text (s rest : list ascii) :
  forallb (fun c => negb (Ascii.eqb c NUL) && negb (Ascii.eqb c "003")
                    && negb (Ascii.eqb c "004")) s = true ->
  (negb (Ascii.eqb (deref rest) NUL) && negb (Ascii.eqb (deref rest) "003")
   && negb (Ascii.eqb (deref rest) "004")) = false ->
  korean_ascii_run (s ++ rest) [] = (rest, s).
Proof.
  intros Hs Hrest. induction s as [|c s IH]; cbn [app].
  - destruct rest as [|c rest]; [reflexivity|]. cbn [korean_ascii_run].
    cbn [deref hd] in Hrest. now rewrite Hrest.
  - cbn [forallb] in Hs. apply andb_true_iff in Hs as [Hc Hs].
    cbn [korean_ascii_run]. rewrite Hc, korean_ascii_run_out, (IH Hs). reflexivity.
Qed.

Lemma korean_jamo_run_text (glyphs rest : list ascii) :
  forallb (fun c => negb (Ascii.eqb c NUL) && negb (Ascii.eqb c "003")
                    && negb (Ascii.eqb c "004") && negb (Ascii.eqb c "005"))
    glyphs = true ->
  (negb (Ascii.eqb (deref rest) NUL) && negb (Ascii.eqb (deref rest) "003")
   && negb (Ascii.eqb (deref rest) "004")) = false ->
  forall i seq,
    fst (fst (korean_jamo_run (glyphs ++ rest) i seq [])) = rest
    /\ snd (korean_jamo_run (glyphs ++ rest) i seq [])
       = flat_map (fun g => ["003"%char; g]) glyphs.
Proof.
  intros Hg Hrest. induction glyphs as [|c glyphs IH]; intros i seq; cbn [app].
  - destruct rest as [|c rest]; [now split|]. cbn [korean_jamo_run].
    cbn [deref hd] in Hrest. rewrite Hrest. now split.
  - cbn [forallb] in Hg. apply andb_true_iff in Hg as [Hc Hg].
    apply andb_true_iff in Hc as [Hc H5]. apply negb_true_iff in H5.
    cbn [korean_jamo_run]. rewrite Hc, H5.
    rewrite (korean_jamo_run_out _ _ _ _ _ (le_n _)). cbn [fst snd].
    destruct (IH Hg (i + 1)%Z
                (Z.lor seq (shl64 (Z.lor 768 (char_to_u8 c)) (i * 16)))) as [E1 E2].
    now rewrite E1, E2.
Qed.

(** X15: what the Korean pre-pass writes.  A run of text after a marker 3 is
    copied as it is, up to the end of the buffer, a terminator or the next
    marker 3 or 4; a group of glyph codes after another marker and its
    length byte is written with the page byte 3 in front of each code; the
    conversion then goes on with what follows, and what it has written so
    far has no influence on what it writes next. *)
Theorem convert_korean_text_from_game_format :
  (forall (s rest : list ascii) (seqs : list Z),
      forallb (fun c => negb (Ascii.eqb c NUL) && negb (Ascii.eqb c "003")
                        && negb (Ascii.eqb c "004")) s = true ->
      (negb (Ascii.eqb (deref rest) NUL) && negb (Ascii.eqb (deref rest) "003")
       && negb (Ascii.eqb (deref rest) "004")) = false ->
      fst (convert_korean_text_from_game ("003"%char :: s ++ rest) seqs)
      = s ++ fst (convert_korean_text_from_game rest seqs))
  /\ (forall (marker len : ascii) (glyphs rest : list ascii) (seqs : list Z),
        Ascii.eqb marker NUL = false -> Ascii.eqb marker "003" = false ->
        forallb (fun c => negb (Ascii.eqb c NUL) && negb (Ascii.eqb c "003")
                          && negb (Ascii.eqb c "004") && negb (Ascii.eqb c "005"))
          glyphs = true ->
        (negb (Ascii.eqb (deref rest) NUL) && negb (Ascii.eqb (deref rest) "003")
         && negb (Ascii.eqb (deref rest) "004")) = false ->
        fst (convert_korean_text_from_game (marker :: len :: glyphs ++ rest) seqs)
        = flat_map (fun g => ["003"%char; g]) glyphs
            ++ fst (convert_korean_text_from_game rest seqs)).
Proof.
  split.
  - intros s rest seqs Hs Hrest. unfold convert_korean_text_from_game.
    cbn [length korean_loop deref hd]. change (Ascii.eqb "003" NUL) with false.
    change (Ascii.eqb "003" "003") with true. cbn iota.
    change (ptr_add ("003"%char :: s ++ rest) 1) with (s ++ rest).
    rewrite (korean_ascii_run_text s rest Hs Hrest), korean_loop_out.
    f_equal. rewrite (korean_loop_fuel _ (length rest)); [reflexivity| |lia].
    rewrite length_app. lia.
  - intros marker len glyphs rest seqs Hm0 Hm3 Hg Hrest.
    unfold convert_korean_text_from_game.
    cbn [length]. remember (S (length (glyphs ++ rest))) as fuel eqn:Efuel.
    cbn [korean_loop deref hd]. rewrite Hm0, Hm3.
    change (ptr_add (ptr_add (marker :: len :: glyphs ++ rest) 1) 1)
      with (glyphs ++ rest).
    destruct (korean_jamo_run_text glyphs rest Hg Hrest 0%Z 0%Z) as [E1 E2].
    destruct (korean_jamo_run (glyphs ++ rest) 0 0 []) as [[in3 seq] out1].
    cbn [fst snd] in E1, E2. subst in3 out1.
    rewrite korean_loop_out. f_equal.
    etransitivity; [apply (korean_loop_fst _ _ _ _ seqs)|].
    f_equal. apply korean_loop_fuel; [|lia].
    subst fuel. rewrite length_app. lia.
Qed.
